(** * Picard solver of Hermes2D: an embedding of [picard_solver.cpp]

    The file follows [hermes2d/src/solver/picard_solver.cpp]:

    - [Binary64]: the C++ type [double], as IEEE 754 binary64 values with
      round-to-nearest-even operations;
    - [ScalarOps]: the operations the template parameter [Scalar] is used
      with, its [double] instance and, further down, the one of
      [std::complex<double>];
    - [calculate_anderson_coeffs], the history shift, the mixing loop and the
      relative error of [PicardSolver::solve], as functions on lists;
    - [solve] itself in a state-and-exception monad that records the calls to
      the assembler, to the matrix solver and to [new]/[delete];
    - the properties of the specification, one theorem each. *)

From Stdlib Require Import ZArith List Bool Lia PeanoNat Permutation.
From Stdlib Require Import Floats.SpecFloat.
Import ListNotations.

Set Implicit Arguments.
Local Open Scope Z_scope.

(** ** The type [double] *)

Module Binary64.

Definition prec : Z := 53.
Definition emax : Z := 1024.

Definition double : Type := spec_float.

Definition add : double -> double -> double := SFadd prec emax.
Definition sub : double -> double -> double := SFsub prec emax.
Definition mul : double -> double -> double := SFmul prec emax.
Definition div : double -> double -> double := SFdiv prec emax.
Definition sqrt : double -> double := SFsqrt prec emax.
Definition abs : double -> double := SFabs.
Definition ltb : double -> double -> bool := SFltb.
Definition eqb : double -> double -> bool := SFeqb.

(** An integer literal converted to [double]. *)
Definition of_Z (z : Z) : double := binary_normalize prec emax z 0 false.

(** A decimal literal [m]e-[k]: the double nearest to m / 10^k, as long as
    [m] and [10^k] are doubles themselves ([k <= 22]). *)
Definition decimal (m : Z) (k : Z) : double := div (of_Z m) (of_Z (10 ^ k)).

Definition zero : double := S754_zero false.
Definition one : double := of_Z 1.

(** Neither an infinity nor a NaN. *)
Definition is_finite (x : double) : bool :=
  match x with
  | S754_zero _ | S754_finite _ _ _ => true
  | S754_infinity _ | S754_nan => false
  end.

Definition is_zero (x : double) : bool :=
  match x with S754_zero _ => true | _ => false end.

(** A value a C++ [double] can hold: the mantissa is normalised. *)
Definition valid (x : double) : bool := valid_binary prec emax x.

(** Same value, where [+0.0] and [-0.0] are not told apart (and a NaN is
    a NaN). *)
Definition same (x y : double) : Prop :=
  x = y \/ (is_zero x = true /\ is_zero y = true).

End Binary64.

Import Binary64.

(** ** The template parameter [Scalar]

    [PicardSolver<Scalar>] is instantiated at [double] and at
    [std::complex<double>].  The class lists the operations the file applies
    to a [Scalar]; mixed expressions such as [1.0 - sum] keep the C++
    overload they resolve to. *)

Class ScalarOps (Scalar : Type) : Type := {
  s_zero : Scalar;                          (* Scalar val = 0 *)
  s_of_double : double -> Scalar;           (* anderson_coeffs[0] = 1.0 *)
  s_add : Scalar -> Scalar -> Scalar;
  s_sub : Scalar -> Scalar -> Scalar;
  s_mul : Scalar -> Scalar -> Scalar;
  d_mul_s : double -> Scalar -> Scalar;     (* double * Scalar *)
  d_sub_s : double -> Scalar -> Scalar;     (* double - Scalar *)
  s_abs : Scalar -> double;                 (* std::abs *)
  s_as_double : Scalar -> double            (* *(double* )(&val) *)
}.

#[export] Instance double_ScalarOps : ScalarOps double := {
  s_zero := Binary64.zero;
  s_of_double := fun d => d;
  s_add := Binary64.add;
  s_sub := Binary64.sub;
  s_mul := Binary64.mul;
  d_mul_s := Binary64.mul;
  d_sub_s := Binary64.sub;
  s_abs := Binary64.abs;
  s_as_double := fun d => d
}.

(** ** Arrays and loops *)

(** [for (int i = 0; i < n; i++) body], threading the variables the body
    assigns. *)
Definition for_loop {A : Type} (n : nat) (body : nat -> A -> A) (init : A) : A :=
  fold_left (fun a i => body i a) (seq 0 n) init.

(** [a[i] = x].  The code never writes outside an array; the model leaves
    the array alone there. *)
Fixpoint store {A : Type} (a : list A) (i : nat) (x : A) : list A :=
  match a, i with
  | [], _ => []
  | _ :: t, O => x :: t
  | h :: t, S i' => h :: store t i' x
  end.

(** [memcpy(dst, src, n * sizeof(Scalar))]. *)
Definition memcpy {A : Type} (dst src : list A) (n : nat) : list A :=
  firstn n src ++ skipn n dst.

Section Arrays.
Context {Scalar : Type} `{ScalarOps Scalar}.

(** [new Scalar[n]]: the content of a fresh array is indeterminate in C++;
    the model fills it with zeros. *)
Definition new_array (n : nat) : list Scalar := repeat s_zero n.

(** [v[k]] and [m[j][k]]. *)
Definition at1 (v : list Scalar) (k : nat) : Scalar := nth k v s_zero.
Definition at2 (m : list (list Scalar)) (j k : nat) : Scalar :=
  nth k (nth j m []) s_zero.

End Arrays.

(** [new_matrix<double>(n, m)] and [mat[i][j] = x]. *)
Definition new_matrix (n m : nat) : list (list double) :=
  repeat (repeat Binary64.zero m) n.

Definition store2 {A : Type} (m : list (list A)) (i j : nat) (x : A) : list (list A) :=
  store m i (store (nth i m []) j x).

(** ** Anderson coefficients *)

Section AndersonCoeffs.
Context {Scalar : Type} `{ScalarOps Scalar}.

(** [previous_vectors[i + 1][k] - previous_vectors[i][k]]. *)
Definition residual (previous_vectors : list (list Scalar)) (i k : nat) : Scalar :=
  s_sub (at2 previous_vectors (i + 1) k) (at2 previous_vectors i k).

(** The loop over [k] that accumulates [rhs[i]]. *)
Definition rhs_entry (previous_vectors : list (list Scalar)) (n ndof i : nat) : Scalar :=
  for_loop ndof
    (fun k rhs_i =>
       let residual_n_k := residual previous_vectors n k in
       let residual_i_k := residual previous_vectors i k in
       s_add rhs_i (s_mul residual_n_k (s_sub residual_n_k residual_i_k)))
    s_zero.

(** The loop over [k] that accumulates [val], and the cast to [double]. *)
Definition mat_entry (previous_vectors : list (list Scalar)) (n ndof i j : nat) : double :=
  s_as_double
    (for_loop ndof
       (fun k val =>
          let residual_n_k := residual previous_vectors n k in
          let residual_i_k := residual previous_vectors i k in
          let residual_j_k := residual previous_vectors j k in
          s_add val (s_mul (s_sub residual_n_k residual_i_k)
                           (s_sub residual_n_k residual_j_k)))
       s_zero).

(** "Set up the matrix and rhs vector": the loops over [i] and [j]. *)
Definition anderson_system (previous_vectors : list (list Scalar)) (n ndof : nat)
  : list (list double) * list Scalar :=
  for_loop n
    (fun i '(mat, rhs) =>
       let rhs := store rhs i (rhs_entry previous_vectors n ndof i) in
       let mat :=
         for_loop n
           (fun j mat => store2 mat i j (mat_entry previous_vectors n ndof i j))
           mat in
       (mat, rhs))
    (new_matrix n n, new_array n).

(** "Use the result to define the Anderson coefficients": the last loop
    and the assignment of [anderson_coeffs[n]]. *)
Definition define_coeffs (anderson_coeffs rhs : list Scalar) (n : nat) : list Scalar :=
  let '(anderson_coeffs, sum) :=
    for_loop n
      (fun i '(anderson_coeffs, sum) =>
         (store anderson_coeffs i (at1 rhs i), s_add sum (at1 rhs i)))
      (anderson_coeffs, s_zero) in
  store anderson_coeffs n (d_sub_s Binary64.one sum).

End AndersonCoeffs.

(** ** Effects: the calls [solve] makes, and its exceptions *)

Inductive FactorizationScheme : Type :=
| HERMES_FACTORIZE_FROM_SCRATCH
| HERMES_REUSE_MATRIX_REORDERING_AND_SCALING
| HERMES_REUSE_FACTORIZATION_COMPLETELY.

(** The arrays obtained from [new].  The buffers behind
    [previous_vectors[i]] are numbered in the order they are allocated. *)
Inductive block : Type :=
| SlnVector                 (* this->sln_vector *)
| LastIterVector            (* last_iter_vector *)
| PreviousVectors           (* previous_vectors, the array of pointers *)
| PreviousVector (b : nat)  (* one buffer of ndof scalars *)
| AndersonCoeffs            (* anderson_coeffs *)
| CoeffsMat                 (* mat, in calculate_anderson_coeffs *)
| CoeffsRhs                 (* rhs *)
| CoeffsPerm.               (* perm *)

Inductive message : Type :=
| ReusingJacobian                                (* "Picard: reusing jacobian." *)
| StartingFromZeroVector (it : Z)                (* "... starting from zero vector." *)
| RelativeError (it : Z) (percent : double)      (* "... relative error %g%%" *)
| SolutionDuration.                              (* "Picard: solution duration ..." *)

Inductive event : Type :=
| New (b : block)
| Delete (b : block)
| Assemble (jacobian : bool)     (* dp->assemble(vec, [jacobian,] residual) *)
| SetFactorizationScheme (s : FactorizationScheme)
| MatrixSolve                    (* matrix_solver->solve() *)
| Ludcmp
| Lubksb
| Info (m : message).

Inductive exn : Type :=
| NotOkay                        (* check(), when isOkay() answers false *)
| BadNumberOfLastIterations      (* "Picard: Bad number of last iterations ..." *)
| AndersonNeedsTwoVectors        (* "Picard: Anderson acceleration makes sense only if ..." *)
| LinearMatrixSolverException
| LUException                    (* raised inside ludcmp *)
| MaxIterationsExceeded.         (* "Picard: maximum allowed number of Picard iterations exceeded." *)

Inductive result (A : Type) : Type :=
| Return (a : A)
| Throw (e : exn)
| OutOfFuel.

Arguments Return {A} a.
Arguments Throw {A} e.
Arguments OutOfFuel {A}.

Section Monad.
Variables World Scalar : Type.

(** What outlives a statement: the collaborators, the two members [solve]
    assigns, and the calls made so far, oldest first. *)
Record state : Type := {
  world : World;
  jacobian_reusable : bool;
  sln_vector : option (list Scalar);   (* None: NULL *)
  trace : list event
}.

Definition M (A : Type) : Type := state -> result A * state.

Definition ret {A : Type} (a : A) : M A := fun st => (Return a, st).

Definition bind {A B : Type} (c : M A) (k : A -> M B) : M B :=
  fun st =>
    match c st with
    | (Return a, st') => k a st'
    | (Throw e, st') => (Throw e, st')
    | (OutOfFuel, st') => (OutOfFuel, st')
    end.

Definition throw {A : Type} (e : exn) : M A := fun st => (Throw e, st).

(** The state after the calls [es]. *)
Definition log (es : list event) (st : state) : state :=
  {| world := world st; jacobian_reusable := jacobian_reusable st;
     sln_vector := sln_vector st; trace := trace st ++ es |}.

Definition emit (e : event) : M unit := fun st => (Return tt, log [e] st).

Definition get_world : M World := fun st => (Return (world st), st).

Definition put_world (w : World) : M unit :=
  fun st =>
    (Return tt,
     {| world := w; jacobian_reusable := jacobian_reusable st;
        sln_vector := sln_vector st; trace := trace st |}).

Definition get_jacobian_reusable : M bool :=
  fun st => (Return (jacobian_reusable st), st).

Definition set_jacobian_reusable (b : bool) : M unit :=
  fun st =>
    (Return tt,
     {| world := world st; jacobian_reusable := b;
        sln_vector := sln_vector st; trace := trace st |}).

Definition get_sln_vector : M (option (list Scalar)) :=
  fun st => (Return (sln_vector st), st).

Definition set_sln_vector (v : option (list Scalar)) : M unit :=
  fun st =>
    (Return tt,
     {| world := world st; jacobian_reusable := jacobian_reusable st;
        sln_vector := v; trace := trace st |}).

(** A loop whose body only makes calls. *)
Fixpoint emit_all (es : list event) : M unit :=
  match es with
  | [] => ret tt
  | e :: es' => bind (emit e) (fun _ => emit_all es')
  end.

End Monad.

Arguments ret {World Scalar A} a.
Arguments bind {World Scalar A B} c k.
Arguments throw {World Scalar A} e.
Arguments log {World Scalar} es st.
Arguments emit {World Scalar} e.
Arguments emit_all {World Scalar} es.
Arguments get_world {World Scalar}.
Arguments put_world {World Scalar} w.
Arguments get_jacobian_reusable {World Scalar}.
Arguments set_jacobian_reusable {World Scalar} b.
Arguments get_sln_vector {World Scalar}.
Arguments set_sln_vector {World Scalar} v.

Declare Scope picard_scope.
Delimit Scope picard_scope with picard.
Notation "x <- c1 ;; c2" := (bind c1 (fun x => c2))
  (at level 61, c1 at next level, right associativity) : picard_scope.
Notation "c1 ;; c2" := (bind c1 (fun _ => c2))
  (at level 61, right associativity) : picard_scope.
Notation "' pat <- c1 ;; c2" := (bind c1 (fun x => match x with pat => c2 end))
  (at level 61, pat pattern, c1 at next level, right associativity) : picard_scope.
Local Open Scope picard_scope.

(** ** The solver *)

(** The members [solve] reads and never assigns.  [constant_jacobian] is a
    member of the base class [NonlinearSolver]. *)
Record config : Type := {
  tol : double;
  max_iter : Z;
  num_last_vectors_used : Z;
  anderson_beta : double;
  anderson_is_on : bool;
  constant_jacobian : bool
}.

(** [init_picard]: the values a constructor leaves. *)
Definition init_picard (constant_jacobian : bool) : config := {|
  tol := decimal 1 4;
  max_iter := 50;
  num_last_vectors_used := 3;
  anderson_beta := Binary64.one;
  anderson_is_on := false;
  constant_jacobian := constant_jacobian
|}.

Definition set_picard_tol (t : double) (c : config) : config :=
  {| tol := t; max_iter := max_iter c;
     num_last_vectors_used := num_last_vectors_used c;
     anderson_beta := anderson_beta c; anderson_is_on := anderson_is_on c;
     constant_jacobian := constant_jacobian c |}.

Definition set_picard_max_iter (n : Z) (c : config) : config :=
  {| tol := tol c; max_iter := n;
     num_last_vectors_used := num_last_vectors_used c;
     anderson_beta := anderson_beta c; anderson_is_on := anderson_is_on c;
     constant_jacobian := constant_jacobian c |}.

Definition set_num_last_vector_used (num : Z) (c : config) : config :=
  {| tol := tol c; max_iter := max_iter c;
     num_last_vectors_used := num;
     anderson_beta := anderson_beta c; anderson_is_on := anderson_is_on c;
     constant_jacobian := constant_jacobian c |}.

Definition set_anderson_beta (beta : double) (c : config) : config :=
  {| tol := tol c; max_iter := max_iter c;
     num_last_vectors_used := num_last_vectors_used c;
     anderson_beta := beta; anderson_is_on := anderson_is_on c;
     constant_jacobian := constant_jacobian c |}.

Definition use_Anderson_acceleration (to_set : bool) (c : config) : config :=
  {| tol := tol c; max_iter := max_iter c;
     num_last_vectors_used := num_last_vectors_used c;
     anderson_beta := anderson_beta c; anderson_is_on := to_set;
     constant_jacobian := constant_jacobian c |}.

(** The collaborators, none of them defined in this file: the spaces and the
    base class, the discrete problem [dp], the matrix solver, and the dense
    routines [ludcmp] and [lubksb] of hermes_common.
    [ludcmp(mat, n, perm, &d)] overwrites [mat] with its LU decomposition
    and fills [perm]; it answers [None] when it raises.
    [lubksb<Scalar>(mat, n, perm, rhs)] overwrites [rhs] with the solution. *)
Record externals (World Scalar : Type) : Type := {
  get_num_dofs : World -> Z;
  nonlinear_isOkay : World -> bool;                  (* NonlinearSolver::isOkay *)
  assemble : list Scalar -> bool -> World -> World;
  set_factorization_scheme : FactorizationScheme -> World -> World;
  matrix_solver_solve : World -> bool * World;
  matrix_solver_sln_vector : World -> list Scalar;   (* get_sln_vector() *)
  ludcmp : list (list double) -> nat -> option (list (list double) * list nat);
  lubksb : list (list double) -> nat -> list nat -> list Scalar -> list Scalar
}.

(** One entry of [previous_vectors]: a pointer to a buffer, and what the
    buffer holds. *)
Record slot (Scalar : Type) : Type := {
  slot_buf : nat;
  slot_data : list Scalar
}.

Section Solver.
Context {World Scalar : Type} `{ScalarOps Scalar}.
Variable ext : externals World Scalar.

Local Abbreviation M := (M World Scalar).

Definition null_slot : slot Scalar := {| slot_buf := 0; slot_data := [] |}.

(** [isOkay], lines 67-80. *)
Definition isOkay (cfg : config) : M bool :=
  w <- get_world ;;
  if negb (nonlinear_isOkay ext w) then ret false
  else if num_last_vectors_used cfg <? 1 then throw BadNumberOfLastIterations
  else ret true.

(** [check] belongs to the mixin [StateQueryable] of hermes_common: it
    raises when [isOkay] answers false. *)
Definition check (cfg : config) : M unit :=
  ok <- isOkay cfg ;;
  if ok then ret tt else throw NotOkay.

(** [calculate_anderson_coeffs], lines 88-158.  The array
    [anderson_coeffs] is updated in place: the function returns its new
    content. *)
Definition calculate_anderson_coeffs
    (previous_vectors : list (list Scalar)) (anderson_coeffs : list Scalar)
    (num_last_vectors_used : Z) (ndof : Z) : M (list Scalar) :=
  if num_last_vectors_used <=? 1 then throw AndersonNeedsTwoVectors
  else if num_last_vectors_used =? 2 then
    ret (store anderson_coeffs 0 (s_of_double Binary64.one))
  else
    let n := Z.to_nat (num_last_vectors_used - 2) in
    emit (New CoeffsMat) ;;
    emit (New CoeffsRhs) ;;
    let '(mat, rhs) := anderson_system previous_vectors n (Z.to_nat ndof) in
    emit (New CoeffsPerm) ;;
    emit Ludcmp ;;
    match ludcmp ext mat n with
    | None => throw LUException
    | Some (mat, perm) =>
        emit Lubksb ;;
        let rhs := lubksb ext mat n perm rhs in
        let anderson_coeffs := define_coeffs anderson_coeffs rhs n in
        emit (Delete CoeffsMat) ;;
        emit (Delete CoeffsRhs) ;;
        ret anderson_coeffs
    end.

(** The content of [this->sln_vector]. *)
Definition sln_array : M (list Scalar) :=
  v <- get_sln_vector ;;
  ret (match v with Some a => a | None => [] end).

(** [init_solving], lines 190-210. *)
Definition init_solving (cfg : config) (ndof : Z) (coeff_vec : option (list Scalar))
  : M unit :=
  check cfg ;;
  v <- get_sln_vector ;;
  match v with
  | Some _ => emit (Delete SlnVector) ;; set_sln_vector None
  | None => ret tt
  end ;;
  emit (New SlnVector) ;;
  set_sln_vector
    (Some match coeff_vec with
          | None => repeat s_zero (Z.to_nat ndof)                       (* memset *)
          | Some c => memcpy (new_array (Z.to_nat ndof)) c (Z.to_nat ndof)
          end).

(** [memcpy(previous_vectors[i], src, ndof * sizeof(Scalar))]. *)
Definition memcpy_into (previous_vectors : list (slot Scalar)) (i : nat)
    (src : list Scalar) (ndof : nat) : list (slot Scalar) :=
  let p := nth i previous_vectors null_slot in
  store previous_vectors i
    {| slot_buf := slot_buf p; slot_data := memcpy (slot_data p) src ndof |}.

(** Lines 293-298: the pointers move one place back and the oldest buffer
    becomes the last. *)
Definition shift_back (previous_vectors : list (slot Scalar)) (num_last_vectors_used : Z)
  : list (slot Scalar) :=
  let oldest_vec := nth 0 previous_vectors null_slot in
  let previous_vectors :=
    for_loop (Z.to_nat (num_last_vectors_used - 1))
      (fun i pv => store pv i (nth (i + 1) pv null_slot))
      previous_vectors in
  store previous_vectors (Z.to_nat (num_last_vectors_used - 1)) oldest_vec.

(** Lines 280-302, inside [if (anderson_is_on)]: the new vector enters the
    memory.  Returns [previous_vectors] and [vec_in_memory]. *)
Definition history_push (num_last_vectors_used : Z) (ndof : nat)
    (previous_vectors : list (slot Scalar)) (vec_in_memory : Z) (sln : list Scalar)
  : list (slot Scalar) * Z :=
  if vec_in_memory <? num_last_vectors_used then
    (memcpy_into previous_vectors (Z.to_nat vec_in_memory) sln ndof,
     vec_in_memory + 1)
  else
    let previous_vectors := shift_back previous_vectors num_last_vectors_used in
    (memcpy_into previous_vectors (Z.to_nat (num_last_vectors_used - 1)) sln ndof,
     vec_in_memory).

(** [a * v_j - (1.0 - beta) * a * (v_j - v_jm1)], the summand of line 316. *)
Definition mix_term (beta : double) (a v_j v_jm1 : Scalar) : Scalar :=
  s_sub (s_mul a v_j)
        (s_mul (d_mul_s (Binary64.sub Binary64.one beta) a) (s_sub v_j v_jm1)).

(** Lines 311-318: the new vector, stored in [this->sln_vector]. *)
Definition anderson_mix (beta : double) (anderson_coeffs : list Scalar)
    (previous_vectors : list (list Scalar)) (num_last_vectors_used : Z) (ndof : nat)
    (sln : list Scalar) : list Scalar :=
  for_loop ndof
    (fun i sln =>
       let sln := store sln i s_zero in
       for_loop (Z.to_nat (num_last_vectors_used - 1))
         (fun j' sln =>
            let j := S j' in
            store sln i
              (s_add (at1 sln i)
                 (mix_term beta (at1 anderson_coeffs (j - 1))
                    (at2 previous_vectors j i) (at2 previous_vectors (j - 1) i))))
         sln)
    sln.

(** Lines 324-334. *)
Definition last_iter_vec_norm (last_iter_vector : list Scalar) (ndof : nat) : double :=
  Binary64.sqrt
    (for_loop ndof
       (fun i norm =>
          Binary64.add norm
            (s_abs (s_mul (at1 last_iter_vector i) (at1 last_iter_vector i))))
       Binary64.zero).

Definition abs_error (sln last_iter_vector : list Scalar) (ndof : nat) : double :=
  Binary64.sqrt
    (for_loop ndof
       (fun i err =>
          Binary64.add err
            (s_abs (s_mul (s_sub (at1 sln i) (at1 last_iter_vector i))
                          (s_sub (at1 sln i) (at1 last_iter_vector i)))))
       Binary64.zero).

Definition rel_error (sln last_iter_vector : list Scalar) (ndof : nat) : double :=
  Binary64.div (abs_error sln last_iter_vector ndof)
               (last_iter_vec_norm last_iter_vector ndof).

(** Lines 345-357 and 364-377: what both exits release, and their
    messages. *)
Definition release (cfg : config) (previous_vectors : list (slot Scalar)) : M unit :=
  emit (Delete LastIterVector) ;;
  (if anderson_is_on cfg then
     emit_all
       (map (fun i => Delete (PreviousVector (slot_buf (nth i previous_vectors null_slot))))
            (seq 0 (Z.to_nat (num_last_vectors_used cfg)))) ;;
     emit (Delete PreviousVectors) ;;
     emit (Delete AndersonCoeffs)
   else ret tt) ;;
  emit (Info SolutionDuration).

(** The local variables of [solve] that live across iterations. *)
Record locals : Type := {
  last_iter_vector : list Scalar;
  previous_vectors : list (slot Scalar);
  anderson_coeffs : list Scalar;
  it : Z;
  vec_in_memory : Z
}.

(** Lines 248-267: assembling, and the factorization scheme. *)
Definition assemble_step (cfg : config) (last_iter_vector : list Scalar) : M unit :=
  reusable <- get_jacobian_reusable ;;
  if reusable then
    if constant_jacobian cfg then
      emit (Info ReusingJacobian) ;;
      w <- get_world ;;
      put_world (assemble ext last_iter_vector false w) ;;
      emit (Assemble false) ;;
      w <- get_world ;;
      put_world (set_factorization_scheme ext HERMES_REUSE_FACTORIZATION_COMPLETELY w) ;;
      emit (SetFactorizationScheme HERMES_REUSE_FACTORIZATION_COMPLETELY)
    else
      w <- get_world ;;
      put_world (set_factorization_scheme ext HERMES_REUSE_MATRIX_REORDERING_AND_SCALING w) ;;
      emit (SetFactorizationScheme HERMES_REUSE_MATRIX_REORDERING_AND_SCALING) ;;
      w <- get_world ;;
      put_world (assemble ext last_iter_vector true w) ;;
      emit (Assemble true)
  else
    w <- get_world ;;
    put_world (assemble ext last_iter_vector true w) ;;
    emit (Assemble true) ;;
    w <- get_world ;;
    put_world (set_factorization_scheme ext HERMES_FACTORIZE_FROM_SCRATCH w) ;;
    emit (SetFactorizationScheme HERMES_FACTORIZE_FROM_SCRATCH) ;;
    set_jacobian_reusable true.

(** Lines 274-278: the linear system, and the copy of its solution. *)
Definition linear_solve_step (ndof : Z) : M (list Scalar) :=
  w <- get_world ;;
  let '(ok, w) := matrix_solver_solve ext w in
  put_world w ;;
  emit MatrixSolve ;;
  if negb ok then throw LinearMatrixSolverException
  else
    sln <- sln_array ;;
    let sln := memcpy sln (matrix_solver_sln_vector ext w) (Z.to_nat ndof) in
    set_sln_vector (Some sln) ;;
    ret sln.

(** Lines 304-319. *)
Definition anderson_step (cfg : config) (ndof : Z)
    (previous_vectors : list (slot Scalar)) (anderson_coeffs sln : list Scalar)
  : M (list Scalar * list Scalar) :=
  let pv := map (@slot_data Scalar) previous_vectors in
  anderson_coeffs <-
    calculate_anderson_coeffs pv anderson_coeffs (num_last_vectors_used cfg) ndof ;;
  let sln :=
    anderson_mix (anderson_beta cfg) anderson_coeffs pv
      (num_last_vectors_used cfg) (Z.to_nat ndof) sln in
  set_sln_vector (Some sln) ;;
  ret (anderson_coeffs, sln).

(** What one pass through lines 246-340 leaves in the local variables
    and in [this->sln_vector], and the error it measured. *)
Record iterate : Type := {
  new_previous_vectors : list (slot Scalar);
  new_vec_in_memory : Z;
  new_anderson_coeffs : list Scalar;
  new_sln : list Scalar;
  new_rel_error : double
}.

(** Lines 246-340: from [on_step_begin] to the output for the user. *)
Definition iteration (cfg : config) (ndof : Z) (l : locals) : M iterate :=
  assemble_step cfg (last_iter_vector l) ;;
  sln <- linear_solve_step ndof ;;
  let '(pv, vec_in_memory) :=
    if anderson_is_on cfg then
      history_push (num_last_vectors_used cfg) (Z.to_nat ndof)
        (previous_vectors l) (vec_in_memory l) sln
    else (previous_vectors l, vec_in_memory l) in
  ' (coeffs, sln) <-
    (if anderson_is_on cfg && (num_last_vectors_used cfg <=? vec_in_memory)
     then anderson_step cfg ndof pv (anderson_coeffs l) sln
     else ret (anderson_coeffs l, sln)) ;;
  let norm := last_iter_vec_norm (last_iter_vector l) (Z.to_nat ndof) in
  let rel := rel_error sln (last_iter_vector l) (Z.to_nat ndof) in
  (if Binary64.ltb (Binary64.abs norm) (decimal 1 12)
   then emit (Info (StartingFromZeroVector (it l)))
   else emit (Info (RelativeError (it l) (Binary64.mul rel (of_Z 100))))) ;;
  ret {| new_previous_vectors := pv;
         new_vec_in_memory := vec_in_memory;
         new_anderson_coeffs := coeffs;
         new_sln := sln;
         new_rel_error := rel |}.

(** Lines 383-387: the counter, and the renewed last iteration vector. *)
Definition next_locals (ndof : Z) (l : locals) (r : iterate) : locals :=
  {| last_iter_vector := memcpy (last_iter_vector l) (new_sln r) (Z.to_nat ndof);
     previous_vectors := new_previous_vectors r;
     anderson_coeffs := new_anderson_coeffs r;
     it := it l + 1;
     vec_in_memory := new_vec_in_memory r |}.

(** [while (true)], lines 244-388.  One unit of fuel is one iteration. *)
Fixpoint picard_loop (fuel : nat) (cfg : config) (ndof : Z) (l : locals) : M unit :=
  match fuel with
  | O => fun st => (OutOfFuel, st)
  | S fuel' =>
      r <- iteration cfg ndof l ;;
      if Binary64.ltb (new_rel_error r) (tol cfg) then
        release cfg (new_previous_vectors r)
      else if max_iter cfg <=? it l then
        release cfg (new_previous_vectors r) ;;
        throw MaxIterationsExceeded
      else
        picard_loop fuel' cfg ndof (next_locals ndof l r)
  end.

(** Lines 232-233: [new Scalar*[m]] and one [new Scalar[ndof]] per entry,
    numbered in the order of allocation. *)
Definition allocate_previous_vectors (m ndof : nat) : list (slot Scalar) :=
  map (fun i => {| slot_buf := i; slot_data := new_array ndof |}) (seq 0 m).

(** As many iterations as the loop can make before [it >= max_iter]. *)
Definition iterations_bound (cfg : config) : nat := S (Z.to_nat (max_iter cfg - 1)).

(** [solve], lines 212-389. *)
Definition solve (cfg : config) (coeff_vec : option (list Scalar)) : M unit :=
  w <- get_world ;;
  let ndof := get_num_dofs ext w in
  init_solving cfg ndof coeff_vec ;;
  emit (New LastIterVector) ;;
  sln <- sln_array ;;
  let last_iter_vector := memcpy (new_array (Z.to_nat ndof)) sln (Z.to_nat ndof) in
  '(pv, coeffs) <-
    (if anderson_is_on cfg then
       let m := Z.to_nat (num_last_vectors_used cfg) in
       emit (New PreviousVectors) ;;
       emit_all (map (fun i => New (PreviousVector i)) (seq 0 m)) ;;
       emit (New AndersonCoeffs) ;;
       ret (allocate_previous_vectors m (Z.to_nat ndof),
            new_array (Z.to_nat (num_last_vectors_used cfg - 1)))
     else ret ([], [])) ;;
  let pv :=
    if anderson_is_on cfg then memcpy_into pv 0 sln (Z.to_nat ndof) else pv in
  picard_loop (iterations_bound cfg) cfg ndof
    {| last_iter_vector := last_iter_vector;
       previous_vectors := pv;
       anderson_coeffs := coeffs;
       it := 1;
       vec_in_memory := 1 |}.

End Solver.

(** ** The specification, in its own words *)

Section SpecWords.
Context {Scalar : Type} `{ScalarOps Scalar}.

Fixpoint zip_with (f : Scalar -> Scalar -> Scalar) (l1 l2 : list Scalar) : list Scalar :=
  match l1, l2 with
  | x :: l1', y :: l2' => f x y :: zip_with f l1' l2'
  | _, _ => []
  end.

(** A sum [Σ], accumulated from zero in the order of its index. *)
Definition s_sum (l : list Scalar) : Scalar := fold_left s_add l s_zero.

(** Section 4.2, the normal equations: [r_i = v_{i+1} - v_i],
    [rhs[i] = Σ_k r_n[k] (r_n[k] - r_i[k])] and
    [mat[i][j] = Σ_k (r_n[k] - r_i[k]) (r_n[k] - r_j[k])]. *)
Definition spec_r (v : list (list Scalar)) (i : nat) : list Scalar :=
  zip_with s_sub (nth (i + 1) v []) (nth i v []).

Definition spec_rhs (v : list (list Scalar)) (n i : nat) : Scalar :=
  s_sum (zip_with s_mul (spec_r v n) (zip_with s_sub (spec_r v n) (spec_r v i))).

Definition spec_mat (v : list (list Scalar)) (n i j : nat) : Scalar :=
  s_sum (zip_with s_mul (zip_with s_sub (spec_r v n) (spec_r v i))
                        (zip_with s_sub (spec_r v n) (spec_r v j))).

(** Section 4.2, the mixed vector:
    [mixed[k] = Σ_{j=1}^{M-1} c_j v_j[k] - (1 - beta) c_j (v_j[k] - v_{j-1}[k])],
    where [c_j] is the entry [j - 1] of the array of coefficients. *)
Definition spec_mixed (beta : double) (c : list Scalar) (v : list (list Scalar))
    (m : nat) (k : nat) : Scalar :=
  s_sum
    (map (fun j =>
            s_sub (s_mul (at1 c (j - 1)) (at2 v j k))
                  (s_mul (d_mul_s (Binary64.sub Binary64.one beta) (at1 c (j - 1)))
                         (s_sub (at2 v j k) (at2 v (j - 1) k))))
         (seq 1 (m - 1))).

(** The plain linear combination [Σ_{j=1}^{M-1} c_j v_j[k]]. *)
Definition spec_plain (c : list Scalar) (v : list (list Scalar)) (m : nat) (k : nat)
  : Scalar :=
  s_sum (map (fun j => s_mul (at1 c (j - 1)) (at2 v j k)) (seq 1 (m - 1))).

(** All the vectors of a memory have [ndof] entries. *)
Definition vectors_of_length (ndof : nat) (v : list (list Scalar)) : Prop :=
  Forall (fun x => length x = ndof) v.

(** Section 4.3: the vectors the buffer holds, oldest first. *)
Definition stored (previous_vectors : list (slot Scalar)) (vec_in_memory : Z)
  : list (list Scalar) :=
  firstn (Z.to_nat vec_in_memory) (map (@slot_data Scalar) previous_vectors).

(** The last [m] elements of a list. *)
Definition last_n {A : Type} (m : nat) (l : list A) : list A :=
  skipn (length l - m) l.

(** A memory of [m] buffers of [ndof] scalars, of which the first
    [vec_in_memory] are in use. *)
Definition history_ok (m : Z) (ndof : nat) (previous_vectors : list (slot Scalar))
    (vec_in_memory : Z) : Prop :=
  length previous_vectors = Z.to_nat m
  /\ 1 <= vec_in_memory <= m
  /\ vectors_of_length ndof (map (@slot_data Scalar) previous_vectors)
  /\ Permutation (map (@slot_buf Scalar) previous_vectors) (seq 0 (Z.to_nat m)).

(** Pushing the vectors [vs] one after the other. *)
Definition push_all (m : Z) (ndof : nat) (vs : list (list Scalar))
    (h : list (slot Scalar) * Z) : list (slot Scalar) * Z :=
  fold_left (fun h v => history_push m ndof (fst h) (snd h) v) vs h.

End SpecWords.

(** ** What a trace says *)

(** The factorization schemes handed to the matrix solver, in order. *)
Definition schemes (tr : list event) : list FactorizationScheme :=
  flat_map (fun e => match e with SetFactorizationScheme s => [s] | _ => [] end) tr.

(** For each call of [dp->assemble], whether the jacobian was assembled. *)
Definition assembles (tr : list event) : list bool :=
  flat_map (fun e => match e with Assemble j => [j] | _ => [] end) tr.

(** The number of linear systems handed to the matrix solver. *)
Definition solves (tr : list event) : nat :=
  length (flat_map (fun e => match e with MatrixSolve => [tt] | _ => [] end) tr).

(** The number of dense systems handed to [ludcmp]. *)
Definition lu_calls (tr : list event) : nat :=
  length (flat_map (fun e => match e with Ludcmp => [tt] | _ => [] end) tr).

(** The allocations one call of [solve] owns: the scratch vector, the
    memory of Anderson and the coefficients. *)
Definition per_solve (b : block) : bool :=
  match b with
  | LastIterVector | PreviousVectors | PreviousVector _ | AndersonCoeffs => true
  | SlnVector | CoeffsMat | CoeffsRhs | CoeffsPerm => false
  end.

Definition allocated (tr : list event) : list block :=
  flat_map (fun e => match e with New b => if per_solve b then [b] else [] | _ => [] end) tr.

Definition released (tr : list event) : list block :=
  flat_map (fun e => match e with Delete b => if per_solve b then [b] else [] | _ => [] end) tr.

(** What [solve] allocates for itself. *)
Definition per_solve_blocks (cfg : config) : list block :=
  LastIterVector ::
  (if anderson_is_on cfg
   then PreviousVectors ::
        map PreviousVector (seq 0 (Z.to_nat (num_last_vectors_used cfg)))
        ++ [AndersonCoeffs]
   else []).

(** The calls made between two states. *)
Definition new_events {World Scalar : Type} (before after : state World Scalar)
  : list event :=
  skipn (length (trace before)) (trace after).

(** Section 4.1, step 1, for [k] iterations of a solve entered with the flag
    [jacobian_reusable] equal to [reusable]. *)
Definition reuse_scheme (cfg : config) : FactorizationScheme :=
  if constant_jacobian cfg then HERMES_REUSE_FACTORIZATION_COMPLETELY
  else HERMES_REUSE_MATRIX_REORDERING_AND_SCALING.

Definition expected_schemes (cfg : config) (reusable : bool) (k : nat)
  : list FactorizationScheme :=
  match k with
  | O => []
  | S k' =>
      (if reusable then reuse_scheme cfg else HERMES_FACTORIZE_FROM_SCRATCH)
      :: repeat (reuse_scheme cfg) k'
  end.

Definition expected_assembles (cfg : config) (reusable : bool) (k : nat) : list bool :=
  match k with
  | O => []
  | S k' =>
      (if reusable then negb (constant_jacobian cfg) else true)
      :: repeat (negb (constant_jacobian cfg)) k'
  end.

(** ** Collaborators of the scenarios *)

(** Modelled from the spec: [ludcmp] of hermes_common, the "LU decomposition
    with partial pivoting" of section 4.2, for a system of one equation.
    There is no pivot to choose; the routine raises on a matrix that is zero
    (or not a number) and leaves any other as it is. *)
Definition ludcmp_1x1 (mat : list (list double)) (n : nat)
  : option (list (list double) * list nat) :=
  match mat, n with
  | [[a]], 1%nat =>
      if Binary64.ltb Binary64.zero (Binary64.abs a) then Some (mat, [0%nat]) else None
  | _, _ => None
  end.

(** Modelled from the spec: [lubksb] of hermes_common for a system of one
    equation, [x = rhs[0] / mat[0][0]]. *)
Definition lubksb_1x1 (mat : list (list double)) (n : nat) (perm : list nat)
    (rhs : list double) : list double :=
  match mat, rhs with
  | [[a]], [b] => [Binary64.div b a]
  | _, _ => rhs
  end.

(** Section 8: the scalar fixed-point map [x_{k+1} = 0.5 x_k + 3], one degree
    of freedom.  The world is the vector the assembler was given; the linear
    system that comes from it has the solution [0.5 x + 3]. *)
Definition affine_map : externals (list double) double := {|
  get_num_dofs := fun _ => 1;
  nonlinear_isOkay := fun _ => true;
  assemble := fun v _ _ => v;
  set_factorization_scheme := fun _ w => w;
  matrix_solver_solve := fun w => (true, w);
  matrix_solver_sln_vector :=
    fun w => map (fun x => Binary64.add (Binary64.mul (decimal 5 1) x) (of_Z 3)) w;
  ludcmp := ludcmp_1x1;
  lubksb := lubksb_1x1
|}.

(** The same problem with a matrix solver that cannot solve. *)
Definition failing_solver : externals (list double) double := {|
  get_num_dofs := fun _ => 1;
  nonlinear_isOkay := fun _ => true;
  assemble := fun v _ _ => v;
  set_factorization_scheme := fun _ w => w;
  matrix_solver_solve := fun w => (false, w);
  matrix_solver_sln_vector := fun w => w;
  ludcmp := ludcmp_1x1;
  lubksb := lubksb_1x1
|}.

(** A solver that has not solved yet: no solution vector, no jacobian to
    reuse, no call made. *)
Definition fresh_solver {World Scalar : Type} (w : World) : state World Scalar :=
  {| world := w; jacobian_reusable := false; sln_vector := None; trace := [] |}.

(** ** The calls of each part of [solve] *)

(** Lines 248-267, for a flag [jacobian_reusable] equal to [reusable]. *)
Definition assemble_events (cfg : config) (reusable : bool) : list event :=
  if reusable then
    if constant_jacobian cfg then
      [Info ReusingJacobian; Assemble false;
       SetFactorizationScheme HERMES_REUSE_FACTORIZATION_COMPLETELY]
    else
      [SetFactorizationScheme HERMES_REUSE_MATRIX_REORDERING_AND_SCALING; Assemble true]
  else
    [Assemble true; SetFactorizationScheme HERMES_FACTORIZE_FROM_SCRATCH].

(** Lines 345-356 and 364-375. *)
Definition release_events {Scalar : Type} (cfg : config)
    (previous_vectors : list (slot Scalar)) : list event :=
  [Delete LastIterVector]
  ++ (if anderson_is_on cfg then
        map (fun i => Delete (PreviousVector
                                (slot_buf (nth i previous_vectors
                                             {| slot_buf := 0; slot_data := [] |}))))
            (seq 0 (Z.to_nat (num_last_vectors_used cfg)))
        ++ [Delete PreviousVectors; Delete AndersonCoeffs]
      else [])
  ++ [Info SolutionDuration].

(** Lines 196-235: what [solve] allocates before the loop; [had_sln] tells
    whether an earlier solution vector was there to delete. *)
Definition setup_events (cfg : config) (had_sln : bool) : list event :=
  (if had_sln then [Delete SlnVector] else [])
  ++ [New SlnVector; New LastIterVector]
  ++ (if anderson_is_on cfg then
        [New PreviousVectors]
        ++ map (fun i => New (PreviousVector i))
               (seq 0 (Z.to_nat (num_last_vectors_used cfg)))
        ++ [New AndersonCoeffs]
      else []).

(** The buffers of the memory: when Anderson is on, each of them is behind
    exactly one pointer of [previous_vectors]. *)
Definition buffers_ok {Scalar : Type} (cfg : config) (pv : list (slot Scalar)) : Prop :=
  anderson_is_on cfg = true ->
  1 <= num_last_vectors_used cfg
  /\ Permutation (map (@slot_buf Scalar) pv)
                 (seq 0 (Z.to_nat (num_last_vectors_used cfg))).

(** The state [solve] enters its loop in: the solution vector holds the
    initial guess (zeros for a null guess) and the local variables are as
    lines 224-242 leave them. *)
Definition initial_sln {Scalar : Type} `{ScalarOps Scalar}
    (ndof : Z) (coeff_vec : option (list Scalar)) : list Scalar :=
  match coeff_vec with
  | None => repeat s_zero (Z.to_nat ndof)
  | Some c => memcpy (new_array (Z.to_nat ndof)) c (Z.to_nat ndof)
  end.

Definition initial_locals {Scalar : Type} `{ScalarOps Scalar}
    (cfg : config) (ndof : Z) (sln : list Scalar) : locals :=
  {| last_iter_vector := memcpy (new_array (Z.to_nat ndof)) sln (Z.to_nat ndof);
     previous_vectors :=
       if anderson_is_on cfg then
         memcpy_into
           (allocate_previous_vectors (Z.to_nat (num_last_vectors_used cfg))
              (Z.to_nat ndof))
           0 sln (Z.to_nat ndof)
       else [];
     anderson_coeffs :=
       if anderson_is_on cfg
       then new_array (Z.to_nat (num_last_vectors_used cfg - 1))
       else [];
     it := 1;
     vec_in_memory := 1 |}.

Definition initial_state {World Scalar : Type} `{ScalarOps Scalar}
    (cfg : config) (ndof : Z) (coeff_vec : option (list Scalar))
    (st : state World Scalar) : state World Scalar :=
  {| world := world st;
     jacobian_reusable := jacobian_reusable st;
     sln_vector := Some (initial_sln ndof coeff_vec);
     trace := trace st
              ++ setup_events cfg
                   (match sln_vector st with Some _ => true | None => false end) |}.

(** ** The shape of a trace *)

(** The calls of [calculate_anderson_coeffs] when it solves a system, and
    when [ludcmp] raises. *)
Definition coeffs_events_solved : list event :=
  [New CoeffsMat; New CoeffsRhs; New CoeffsPerm; Ludcmp; Lubksb;
   Delete CoeffsMat; Delete CoeffsRhs].

Definition coeffs_events_failed : list event :=
  [New CoeffsMat; New CoeffsRhs; New CoeffsPerm; Ludcmp].

(** The traces the loop of [solve] is made of. *)
Inductive loop_trace {Scalar : Type} (cfg : config) : list event -> Prop :=
| loop_trace_nil : loop_trace cfg []
| loop_trace_app (a b : list event) :
    loop_trace cfg a -> loop_trace cfg b -> loop_trace cfg (a ++ b)
| loop_trace_assemble (reusable : bool) :
    loop_trace cfg (assemble_events cfg reusable)
| loop_trace_solve : loop_trace cfg [MatrixSolve]
| loop_trace_coeffs_solved : loop_trace cfg coeffs_events_solved
| loop_trace_coeffs_failed : loop_trace cfg coeffs_events_failed
| loop_trace_info (m : message) : loop_trace cfg [Info m]
| loop_trace_release (pv : list (slot Scalar)) :
    loop_trace cfg (release_events cfg pv).

Definition block_eq_dec (a b : block) : {a = b} + {a <> b}.
Proof. decide equality. apply Nat.eq_dec. Defined.

(** How many times a trace allocates, and deletes, the block [b]. *)
Definition news (b : block) (tr : list event) : nat :=
  length (filter (fun e => match e with
                           | New b' => if block_eq_dec b b' then true else false
                           | _ => false
                           end) tr).

Definition deletes (b : block) (tr : list event) : nat :=
  length (filter (fun e => match e with
                           | Delete b' => if block_eq_dec b b' then true else false
                           | _ => false
                           end) tr).

(** ** [Scalar = std::complex<double>]

    The second instantiation of the class (line 392).  A
    [std::complex<double>] is its real part followed by its imaginary
    part; the operators are those of [<complex>]:
    [+], [-] and [double * complex] work part by part, [double - complex]
    subtracts the real part and negates the imaginary part, and [*] is
    [(ac - bd) + (ad + bc) i] (what every implementation computes as long
    as one part of the result is not a NaN).  [std::abs] is the [cabs] of
    the C library, which is not in this repository: it is a parameter. *)
Definition complex : Type := (double * double)%type.

Module Complex.

Definition of_double (d : double) : complex := (d, Binary64.zero).

Definition add (x y : complex) : complex :=
  (Binary64.add (fst x) (fst y), Binary64.add (snd x) (snd y)).

Definition sub (x y : complex) : complex :=
  (Binary64.sub (fst x) (fst y), Binary64.sub (snd x) (snd y)).

Definition mul (x y : complex) : complex :=
  let '(a, b) := x in
  let '(c, d) := y in
  (Binary64.sub (Binary64.mul a c) (Binary64.mul b d),
   Binary64.add (Binary64.mul a d) (Binary64.mul b c)).

Definition scale (d : double) (x : complex) : complex :=
  (Binary64.mul (fst x) d, Binary64.mul (snd x) d).

Definition double_minus (d : double) (x : complex) : complex :=
  (Binary64.sub d (fst x), SFopp (snd x)).

(** [*(double* )(&val)]: the first [double] of the object, its real part. *)
Definition first_double (x : complex) : double := fst x.

End Complex.

Definition complex_ScalarOps (cabs : complex -> double) : ScalarOps complex := {|
  s_zero := Complex.of_double Binary64.zero;
  s_of_double := Complex.of_double;
  s_add := Complex.add;
  s_sub := Complex.sub;
  s_mul := Complex.mul;
  d_mul_s := Complex.scale;
  d_sub_s := Complex.double_minus;
  s_abs := cabs;
  s_as_double := Complex.first_double
|}.

(** A [cabs] for the scenarios: the textbook [sqrt(re^2 + im^2)]. *)
Definition textbook_cabs (x : complex) : double :=
  Binary64.sqrt (Binary64.add (Binary64.mul (fst x) (fst x))
                              (Binary64.mul (snd x) (snd x))).

(** ** Two runs compared *)

(** What the two solvers show to their caller and to their collaborators
    is the same: the world, the flag, the solution vector, and the calls
    made to the assembler and to the matrix solver.  The allocations are
    left out. *)
Definition same_solver {World Scalar : Type} (st1 st2 : state World Scalar) : Prop :=
  world st1 = world st2
  /\ jacobian_reusable st1 = jacobian_reusable st2
  /\ sln_vector st1 = sln_vector st2
  /\ schemes (trace st1) = schemes (trace st2)
  /\ assembles (trace st1) = assembles (trace st2)
  /\ solves (trace st1) = solves (trace st2).

(** A problem of one degree of freedom whose linear systems all have the
    solution [6]. *)
Definition constant_map : externals unit double := {|
  get_num_dofs := fun _ => 1;
  nonlinear_isOkay := fun _ => true;
  assemble := fun _ _ w => w;
  set_factorization_scheme := fun _ w => w;
  matrix_solver_solve := fun w => (true, w);
  matrix_solver_sln_vector := fun _ => [of_Z 6];
  ludcmp := ludcmp_1x1;
  lubksb := lubksb_1x1
|}.

(** * Properties *)

Unset Implicit Arguments.

(** ** Loops and arrays *)

Lemma for_loop_S {A : Type} (n : nat) (body : nat -> A -> A) (init : A) :
  for_loop (S n) body init = body n (for_loop n body init).
Proof.
  unfold for_loop. rewrite seq_S, fold_left_app. reflexivity.
Qed.

(** A loop that only accumulates is a left fold over the summands. *)
Lemma for_loop_accumulate {A B : Type} (op : A -> B -> A) (f : nat -> B) (n : nat) (init : A) :
  for_loop n (fun k acc => op acc (f k)) init = fold_left op (map f (seq 0 n)) init.
Proof.
  unfold for_loop. generalize (seq 0 n) init.
  induction l as [|k l IH]; intro a; simpl; [reflexivity | apply IH].
Qed.

Lemma length_store {A : Type} (a : list A) (i : nat) (x : A) :
  length (store a i x) = length a.
Proof.
  revert i. induction a as [|h t IH]; intros [|i]; simpl; try reflexivity.
  now rewrite IH.
Qed.

Lemma nth_store_same {A : Type} (a : list A) (i : nat) (x d : A) :
  (i < length a)%nat -> nth i (store a i x) d = x.
Proof.
  revert i. induction a as [|h t IH]; intros [|i] Hi; simpl in *; try lia.
  - reflexivity.
  - apply IH. lia.
Qed.

Lemma store_app_r {A : Type} (l1 l2 : list A) (x : A) :
  store (l1 ++ l2) (length l1) x = l1 ++ store l2 0 x.
Proof.
  induction l1 as [|h t IH]; simpl.
  - reflexivity.
  - now rewrite IH.
Qed.

Lemma store_app_at {A : Type} (l1 l2 : list A) (i : nat) (x y : A) :
  length l1 = i -> store (l1 ++ y :: l2) i x = l1 ++ x :: l2.
Proof. intros <-. now rewrite store_app_r. Qed.

(** Filling the first [n] cells of an array, one per pass. *)
Lemma for_loop_store {A : Type} (f : nat -> A) (n : nat) (a : list A) :
  (n <= length a)%nat ->
  for_loop n (fun i a => store a i (f i)) a = map f (seq 0 n) ++ skipn n a.
Proof.
  induction n as [|n IH]; intro Hn.
  - reflexivity.
  - rewrite for_loop_S, IH by lia.
    rewrite seq_S, map_app. simpl.
    replace (store (map f (seq 0 n) ++ skipn n a) n (f n))
      with (store (map f (seq 0 n) ++ skipn n a) (length (map f (seq 0 n))) (f n))
      by (now rewrite length_map, length_seq).
    rewrite store_app_r, <- app_assoc. f_equal.
    destruct (skipn n a) as [|h t] eqn:E.
    + apply (f_equal (@length A)) in E. rewrite length_skipn in E. simpl in E. lia.
    + simpl. f_equal.
      change t with (skipn 1 (h :: t)). rewrite <- E, skipn_skipn.
      reflexivity.
Qed.

Lemma memcpy_whole {A : Type} (dst src : list A) (n : nat) :
  length src = n -> length dst = n -> memcpy dst src n = src.
Proof.
  intros Hs Hd. unfold memcpy.
  rewrite <- Hs at 1. rewrite firstn_all, <- Hd, skipn_all. apply app_nil_r.
Qed.

Lemma store_nth_self {A : Type} (a : list A) (i : nat) (d : A) :
  store a i (nth i a d) = a.
Proof.
  revert i. induction a as [|h t IH]; intros [|i]; simpl; try reflexivity.
  now rewrite IH.
Qed.

Lemma store_store {A : Type} (a : list A) (i : nat) (x y : A) :
  store (store a i x) i y = store a i y.
Proof.
  revert i. induction a as [|h t IH]; intros [|i]; simpl; try reflexivity.
  now rewrite IH.
Qed.

(** Filling row [i] of a matrix, one cell per pass. *)
Lemma for_loop_store2 {A : Type} (g : nat -> A) (n i : nat) (m : list (list A)) :
  (i < length m)%nat -> length (nth i m []) = n ->
  for_loop n (fun j m => store2 m i j (g j)) m = store m i (map g (seq 0 n)).
Proof.
  intros Hi Hrow.
  assert (G : forall c, (c <= n)%nat ->
            for_loop c (fun j m => store2 m i j (g j)) m
            = store m i (map g (seq 0 c) ++ skipn c (nth i m []))).
  { induction c as [|c IH]; intro Hc.
    - simpl. now rewrite store_nth_self.
    - rewrite for_loop_S, IH by lia. unfold store2.
      rewrite nth_store_same by assumption. rewrite store_store. f_equal.
      rewrite <- (for_loop_store g (S c) (nth i m [])) by lia.
      rewrite for_loop_S. f_equal.
      symmetry. apply for_loop_store. lia. }
  rewrite G by lia. f_equal.
  rewrite <- Hrow, skipn_all. apply app_nil_r.
Qed.

(** ** The normal equations *)

Section NormalEquations.
Context {Scalar : Type} `{ScalarOps Scalar}.

Lemma zip_with_map (f : Scalar -> Scalar -> Scalar) (g h : nat -> Scalar) (l : list nat) :
  zip_with f (map g l) (map h l) = map (fun k => f (g k) (h k)) l.
Proof. induction l as [|k l IH]; simpl; [reflexivity | now rewrite IH]. Qed.

Lemma map_at1 (v : list Scalar) :
  v = map (at1 v) (seq 0 (length v)).
Proof.
  unfold at1. induction v as [|x v IH]; simpl; [reflexivity|].
  f_equal. rewrite <- seq_shift, map_map. exact IH.
Qed.

Lemma vectors_of_length_nth (ndof : nat) (v : list (list Scalar)) (i : nat) :
  vectors_of_length ndof v -> (i < length v)%nat -> length (nth i v []) = ndof.
Proof.
  intros Hv Hi. unfold vectors_of_length in Hv. rewrite Forall_forall in Hv.
  apply Hv, nth_In, Hi.
Qed.

Lemma spec_r_residual (ndof : nat) (v : list (list Scalar)) (i : nat) :
  vectors_of_length ndof v -> (i + 1 < length v)%nat ->
  spec_r v i = map (residual v i) (seq 0 ndof).
Proof.
  intros Hv Hi. unfold spec_r.
  assert (H1 : length (nth (i + 1) v []) = ndof)
    by (apply vectors_of_length_nth; [assumption | lia]).
  assert (H0 : length (nth i v []) = ndof)
    by (apply vectors_of_length_nth; [assumption | lia]).
  rewrite (map_at1 (nth (i + 1) v [])) at 1.
  rewrite (map_at1 (nth i v [])) at 1.
  rewrite H1, H0, zip_with_map. reflexivity.
Qed.

Lemma rhs_entry_spec (ndof n i : nat) (v : list (list Scalar)) :
  vectors_of_length ndof v -> (n + 1 < length v)%nat -> (i <= n)%nat ->
  rhs_entry v n ndof i = spec_rhs v n i.
Proof.
  intros Hv Hn Hi. unfold rhs_entry, spec_rhs, s_sum.
  rewrite (spec_r_residual ndof v n) by (assumption || lia).
  rewrite (spec_r_residual ndof v i) by (assumption || lia).
  rewrite !zip_with_map.
  apply (for_loop_accumulate s_add
           (fun k => s_mul (residual v n k) (s_sub (residual v n k) (residual v i k)))).
Qed.

Lemma mat_entry_spec (ndof n i j : nat) (v : list (list Scalar)) :
  vectors_of_length ndof v -> (n + 1 < length v)%nat -> (i <= n)%nat -> (j <= n)%nat ->
  mat_entry v n ndof i j = s_as_double (spec_mat v n i j).
Proof.
  intros Hv Hn Hi Hj. unfold mat_entry, spec_mat, s_sum. f_equal.
  rewrite (spec_r_residual ndof v n) by (assumption || lia).
  rewrite (spec_r_residual ndof v i) by (assumption || lia).
  rewrite (spec_r_residual ndof v j) by (assumption || lia).
  rewrite !zip_with_map.
  apply (for_loop_accumulate s_add
           (fun k => s_mul (s_sub (residual v n k) (residual v i k))
                           (s_sub (residual v n k) (residual v j k)))).
Qed.

(** The two nested loops fill every cell of [mat] and [rhs]. *)
Lemma anderson_system_entries (v : list (list Scalar)) (n ndof : nat) :
  anderson_system v n ndof
  = (map (fun i => map (mat_entry v n ndof i) (seq 0 n)) (seq 0 n),
     map (rhs_entry v n ndof) (seq 0 n)).
Proof.
  unfold anderson_system.
  set (body := fun (i : nat) '(mat, rhs) =>
                 let rhs := store rhs i (rhs_entry v n ndof i) in
                 let mat := for_loop n
                   (fun j mat => store2 mat i j (mat_entry v n ndof i j)) mat in
                 (mat, rhs)).
  assert (G : forall m, (m <= n)%nat ->
            for_loop m body (new_matrix n n, new_array n)
            = (map (fun i => map (mat_entry v n ndof i) (seq 0 n)) (seq 0 m)
                 ++ repeat (repeat Binary64.zero n) (n - m),
               map (rhs_entry v n ndof) (seq 0 m) ++ repeat s_zero (n - m))).
  { induction m as [|m IH]; intro Hm.
    - simpl. now rewrite Nat.sub_0_r.
    - rewrite for_loop_S, IH by lia. unfold body at 1. cbv zeta.
      replace (n - m)%nat with (S (n - S m)) by lia.
      rewrite !seq_S, !map_app. simpl map. rewrite <- !app_assoc. simpl app.
      f_equal.
      + rewrite for_loop_store2.
        * apply store_app_at. now rewrite length_map, length_seq.
        * rewrite length_app, length_map, length_seq. simpl. lia.
        * rewrite app_nth2; rewrite length_map, length_seq; [|lia].
          rewrite Nat.sub_diag. simpl. apply repeat_length.
      + apply store_app_at. now rewrite length_map, length_seq. }
  rewrite G by lia. rewrite Nat.sub_diag. simpl. now rewrite !app_nil_r.
Qed.

End NormalEquations.

(** ** Running the monad *)

Section Running.
Context {World Scalar : Type}.
Implicit Types st : state World Scalar.

Lemma log_nil st : log [] st = st.
Proof. destruct st. unfold log. simpl. now rewrite app_nil_r. Qed.

Lemma log_log (es1 es2 : list event) st : log es2 (log es1 st) = log (es1 ++ es2) st.
Proof. unfold log. simpl. now rewrite app_assoc. Qed.

Lemma emit_all_run (es : list event) st : emit_all es st = (Return tt, log es st).
Proof.
  revert st. induction es as [|e es IH]; intro st.
  - simpl. unfold ret. now rewrite log_nil.
  - simpl. unfold bind, emit. rewrite IH, log_log. reflexivity.
Qed.

Lemma new_events_log (es : list event) st : new_events st (log es st) = es.
Proof.
  unfold new_events, log. simpl.
  rewrite skipn_app, skipn_all, Nat.sub_diag. reflexivity.
Qed.

End Running.

(** ** The coefficients *)

Section Coefficients.
Context {World Scalar : Type} `{ScalarOps Scalar}.
Variable ext : externals World Scalar.

(** The last loop copies the solution and leaves one minus its sum in the
    last cell. *)
Lemma define_coeffs_entries (coeffs rhs : list Scalar) (n : nat) :
  length coeffs = S n ->
  define_coeffs coeffs rhs n
  = map (at1 rhs) (seq 0 n)
      ++ [d_sub_s Binary64.one (s_sum (map (at1 rhs) (seq 0 n)))].
Proof.
  intro Hlen. unfold define_coeffs.
  set (body := fun (i : nat) '(c, sum) =>
                 (store c i (at1 rhs i), s_add sum (at1 rhs i))).
  assert (G : forall m, (m <= n)%nat ->
            for_loop m body (coeffs, s_zero)
            = (map (at1 rhs) (seq 0 m) ++ skipn m coeffs,
               fold_left s_add (map (at1 rhs) (seq 0 m)) s_zero)).
  { induction m as [|m IH]; intro Hm.
    - reflexivity.
    - rewrite for_loop_S, IH by lia. unfold body at 1.
      rewrite seq_S, map_app, fold_left_app. simpl. f_equal.
      rewrite <- app_assoc. simpl.
      destruct (skipn m coeffs) as [|h t] eqn:E.
      + apply (f_equal (@length Scalar)) in E. rewrite length_skipn in E.
        simpl in E. lia.
      + replace (match coeffs with [] => [] | _ :: l => skipn m l end)
          with (skipn 1 (skipn m coeffs)) by (now rewrite skipn_skipn).
        rewrite E. simpl. apply store_app_at. now rewrite length_map, length_seq. }
  rewrite G by lia.
  destruct (skipn n coeffs) as [|h t] eqn:E.
  - apply (f_equal (@length Scalar)) in E. rewrite length_skipn in E. simpl in E. lia.
  - assert (t = []) as ->.
    { apply (f_equal (@length Scalar)) in E. rewrite length_skipn in E.
      simpl in E. destruct t; [reflexivity | simpl in E; lia]. }
    apply store_app_at. now rewrite length_map, length_seq.
Qed.

(** With two vectors there is nothing to compute, and nothing is called. *)
Lemma calculate_anderson_coeffs_two (v : list (list Scalar)) (coeffs : list Scalar)
    (ndof : Z) (st : state World Scalar) :
  calculate_anderson_coeffs ext v coeffs 2 ndof st
  = (Return (store coeffs 0 (s_of_double Binary64.one)), st).
Proof. reflexivity. Qed.

(** With three vectors or more: the system, the two dense routines, the
    coefficients. *)
Lemma calculate_anderson_coeffs_general (v : list (list Scalar)) (coeffs : list Scalar)
    (m ndof : Z) (st : state World Scalar) :
  3 <= m ->
  calculate_anderson_coeffs ext v coeffs m ndof st
  = let n := Z.to_nat (m - 2) in
    let '(mat, rhs) := anderson_system v n (Z.to_nat ndof) in
    match ludcmp ext mat n with
    | None =>
        (Throw LUException,
         log [New CoeffsMat; New CoeffsRhs; New CoeffsPerm; Ludcmp] st)
    | Some (lu, perm) =>
        (Return (define_coeffs coeffs (lubksb ext lu n perm rhs) n),
         log [New CoeffsMat; New CoeffsRhs; New CoeffsPerm; Ludcmp; Lubksb;
              Delete CoeffsMat; Delete CoeffsRhs] st)
    end.
Proof.
  intro Hm. unfold calculate_anderson_coeffs.
  destruct (m <=? 1) eqn:E1; [apply Z.leb_le in E1; lia|].
  destruct (m =? 2) eqn:E2; [apply Z.eqb_eq in E2; lia|].
  cbv zeta.
  destruct (anderson_system v (Z.to_nat (m - 2)) (Z.to_nat ndof)) as [mat rhs].
  unfold bind, emit. rewrite !log_log. simpl app.
  destruct (ludcmp ext mat (Z.to_nat (m - 2))) as [[lu perm]|].
  - unfold ret. rewrite !log_log. reflexivity.
  - reflexivity.
Qed.

End Coefficients.

Section CoefficientsOfTheSystem.
Context {World Scalar : Type} `{ScalarOps Scalar}.
Variable ext : externals World Scalar.

(** The system handed to [ludcmp] is the one of section 4.2. *)
Lemma anderson_system_spec (v : list (list Scalar)) (n ndof : nat) :
  vectors_of_length ndof v -> length v = S (S n) ->
  anderson_system v n ndof
  = (map (fun i => map (fun j => s_as_double (spec_mat v n i j)) (seq 0 n)) (seq 0 n),
     map (spec_rhs v n) (seq 0 n)).
Proof.
  intros Hv Hlen. rewrite anderson_system_entries. f_equal.
  - apply map_ext_in. intros i Hi. apply in_seq in Hi.
    apply map_ext_in. intros j Hj. apply in_seq in Hj.
    apply mat_entry_spec; (assumption || lia).
  - apply map_ext_in. intros i Hi. apply in_seq in Hi.
    apply rhs_entry_spec; (assumption || lia).
Qed.

Lemma at1_map_seq (f : nat -> Scalar) (n i : nat) :
  (i < n)%nat -> at1 (map f (seq 0 n)) i = f i.
Proof.
  intro Hi. unfold at1.
  rewrite (nth_indep _ s_zero (f 0%nat)) by (now rewrite length_map, length_seq).
  rewrite (map_nth f), seq_nth by assumption. reflexivity.
Qed.

End CoefficientsOfTheSystem.

(** For every [Scalar] and a history depth [m >= 3], with [n = m - 2] and
    [r_i = v_{i+1} - v_i]: [calculate_anderson_coeffs] hands to [ludcmp] the
    [n x n] matrix of the sums [Σ_k (r_n[k] - r_i[k]) (r_n[k] - r_j[k])],
    each cast to [double]; it hands to [lubksb] the decomposition and
    [rhs[i] = Σ_k r_n[k] (r_n[k] - r_i[k])], and its coefficients
    [c_0 ... c_{n-1}] are the solution [x] that comes back.  For
    [Scalar = double] the cast changes nothing. *)
Theorem anderson_normal_equations
    {World Scalar : Type} `{ScalarOps Scalar} (ext : externals World Scalar)
    (v : list (list Scalar)) (coeffs : list Scalar) (m ndof : Z)
    (st : state World Scalar) :
  3 <= m ->
  length v = Z.to_nat m ->
  vectors_of_length (Z.to_nat ndof) v ->
  length coeffs = Z.to_nat (m - 1) ->
  let n := Z.to_nat (m - 2) in
  let mat := map (fun i => map (fun j => s_as_double (spec_mat v n i j)) (seq 0 n))
                 (seq 0 n) in
  let rhs := map (spec_rhs v n) (seq 0 n) in
  match ludcmp ext mat n with
  | Some (lu, perm) =>
      let x := lubksb ext lu n perm rhs in
      exists c,
        calculate_anderson_coeffs ext v coeffs m ndof st
        = (Return c,
           log [New CoeffsMat; New CoeffsRhs; New CoeffsPerm; Ludcmp; Lubksb;
                Delete CoeffsMat; Delete CoeffsRhs] st)
        /\ forall i, (i < n)%nat -> at1 c i = at1 x i
  | None =>
      calculate_anderson_coeffs ext v coeffs m ndof st
      = (Throw LUException,
         log [New CoeffsMat; New CoeffsRhs; New CoeffsPerm; Ludcmp] st)
  end.
Proof.
  intros Hm Hlen Hv Hc n mat rhs.
  rewrite calculate_anderson_coeffs_general by assumption. cbv zeta.
  rewrite (anderson_system_spec v (Z.to_nat (m - 2)) (Z.to_nat ndof))
    by (assumption || lia).
  fold n. fold mat. fold rhs.
  destruct (ludcmp ext mat n) as [[lu perm]|]; [|reflexivity].
  eexists. split; [reflexivity|].
  intros i Hi. rewrite define_coeffs_entries by (unfold n; lia).
  unfold at1 at 1. rewrite app_nth1 by (now rewrite length_map, length_seq).
  apply (at1_map_seq (at1 (lubksb ext lu n perm rhs)) n i Hi).
Qed.

Lemma anderson_normal_equations_witness :
  exists c,
    calculate_anderson_coeffs affine_map
      [[of_Z 0]; [of_Z 5]; [of_Z 7]] [Binary64.zero; Binary64.zero] 3 1
      (fresh_solver [])
    = (Return c,
       log [New CoeffsMat; New CoeffsRhs; New CoeffsPerm; Ludcmp; Lubksb;
            Delete CoeffsMat; Delete CoeffsRhs] (fresh_solver []))
    /\ forall i, (i < 1)%nat ->
         at1 c i
         = at1 (lubksb_1x1 [[of_Z 9]] 1 [0%nat] [Binary64.sub Binary64.zero (of_Z 6)]) i.
Proof.
  exact (anderson_normal_equations affine_map
           [[of_Z 0]; [of_Z 5]; [of_Z 7]] [Binary64.zero; Binary64.zero] 3 1
           (fresh_solver [])
           ltac:(lia) eq_refl
           ltac:(repeat constructor) eq_refl).
Defined.

Lemma nth_map_seq {A : Type} (f : nat -> A) (n i : nat) (d : A) :
  (i < n)%nat -> nth i (map f (seq 0 n)) d = f i.
Proof.
  intro Hi. rewrite (nth_indep _ d (f 0%nat)) by (now rewrite length_map, length_seq).
  rewrite (map_nth f), seq_nth by assumption. reflexivity.
Qed.

(** C8, for [Scalar = std::complex<double>].  Of the sum
    [Σ_k (r_n[k] - r_i[k]) (r_n[k] - r_j[k])] the entry [mat[i][j]] that
    line 133 stores, and line 140 hands to [ludcmp], is the real part
    only: the cast of line 132 reads the first [double] of [val].  The
    right-hand side keeps both parts. *)
Theorem anderson_matrix_keeps_real_part
    (cabs : complex -> double) (v : list (list complex)) (n ndof i j : nat) :
  @vectors_of_length complex ndof v ->
  length v = S (S n) ->
  (i < n)%nat -> (j < n)%nat ->
  let system := @anderson_system complex (complex_ScalarOps cabs) v n ndof in
  nth j (nth i (fst system) []) Binary64.zero
  = fst (@spec_mat complex (complex_ScalarOps cabs) v n i j)
  /\ nth i (snd system) (Binary64.zero, Binary64.zero)
     = @spec_rhs complex (complex_ScalarOps cabs) v n i
  /\ forall (World : Type) (ext : externals World complex) (coeffs : list complex)
            (st : state World complex),
       @calculate_anderson_coeffs World complex (complex_ScalarOps cabs) ext
         v coeffs (Z.of_nat n + 2) (Z.of_nat ndof) st
       = match ludcmp ext (fst system) n with
         | Some (lu, perm) =>
             (Return (@define_coeffs complex (complex_ScalarOps cabs) coeffs
                        (lubksb ext lu n perm (snd system)) n),
              log coeffs_events_solved st)
         | None => (Throw LUException, log coeffs_events_failed st)
         end.
Proof.
  intros Hv Hlen Hi Hj. cbv zeta.
  split; [|split].
  - rewrite (@anderson_system_spec complex (complex_ScalarOps cabs) v n ndof Hv Hlen).
    cbn [fst]. now rewrite !nth_map_seq by assumption.
  - rewrite (@anderson_system_spec complex (complex_ScalarOps cabs) v n ndof Hv Hlen).
    cbn [snd]. now rewrite nth_map_seq by assumption.
  - intros World ext coeffs st.
    rewrite calculate_anderson_coeffs_general by lia. cbv zeta.
    replace (Z.to_nat (Z.of_nat n + 2 - 2)) with n by lia.
    rewrite Nat2Z.id.
    destruct (anderson_system v n ndof) as [mat rhs]. cbn [fst snd].
    destruct (ludcmp ext mat n) as [[lu perm]|]; reflexivity.
Qed.

(** The history [0, 0, 1 + i] of one degree of freedom, three vectors
    remembered.  The sum of the claim is [(1 + i)^2 = 2i] for the matrix and
    for the right-hand side, a system with the solution [1]; the matrix of
    the code is the real [0.0]. *)
Lemma anderson_matrix_keeps_real_part_witness :
  let v := [[(of_Z 0, of_Z 0)]; [(of_Z 0, of_Z 0)]; [(of_Z 1, of_Z 1)]] in
  fst (@anderson_system complex (complex_ScalarOps textbook_cabs) v 1 1)
  = [[Binary64.zero]]
  /\ snd (@anderson_system complex (complex_ScalarOps textbook_cabs) v 1 1)
     = [(Binary64.zero, of_Z 2)]
  /\ @spec_mat complex (complex_ScalarOps textbook_cabs) v 1 0 0
     = (Binary64.zero, of_Z 2)
  /\ nth 0 (nth 0 (fst (@anderson_system complex (complex_ScalarOps textbook_cabs)
                          v 1 1)) []) Binary64.zero
     = fst (@spec_mat complex (complex_ScalarOps textbook_cabs) v 1 0 0).
Proof.
  cbv zeta.
  split; [vm_compute; reflexivity|].
  split; [vm_compute; reflexivity|].
  split; [vm_compute; reflexivity|].
  exact (proj1 (anderson_matrix_keeps_real_part textbook_cabs
                  [[(of_Z 0, of_Z 0)]; [(of_Z 0, of_Z 0)]; [(of_Z 1, of_Z 1)]]
                  1 1 0 0 ltac:(repeat constructor) eq_refl ltac:(lia) ltac:(lia))).
Defined.

(** C7, as the code has it.  With two vectors the single coefficient is
    [1.0] and nothing is called, so no linear system is solved.  With three
    or more, one system is solved and the last coefficient is [1.0 - s],
    where [s] is the sum of the others accumulated in order; the sum of all
    the coefficients is then [s + (1.0 - s)], in the arithmetic of
    [Scalar]. *)
Theorem anderson_coeffs_last_is_one_minus_sum
    {World Scalar : Type} `{ScalarOps Scalar} (ext : externals World Scalar)
    (v : list (list Scalar)) (coeffs c : list Scalar) (m ndof : Z)
    (st st' : state World Scalar) :
  2 <= m ->
  length coeffs = Z.to_nat (m - 1) ->
  calculate_anderson_coeffs ext v coeffs m ndof st = (Return c, st') ->
  length c = Z.to_nat (m - 1)
  /\ (m = 2 -> c = [s_of_double Binary64.one] /\ st' = st)
  /\ (3 <= m ->
      let others := firstn (Z.to_nat (m - 2)) c in
      c = others ++ [d_sub_s Binary64.one (s_sum others)]
      /\ s_sum c = s_add (s_sum others) (d_sub_s Binary64.one (s_sum others))
      /\ lu_calls (new_events st st') = 1%nat).
Proof.
  intros Hm Hlen Hrun.
  destruct (Z.eq_dec m 2) as [->|Hne].
  - rewrite calculate_anderson_coeffs_two in Hrun. inversion Hrun; subst.
    destruct coeffs as [|c0 [|c1 coeffs]]; try discriminate Hlen.
    split; [reflexivity|]. split; [intros _; split; reflexivity|]. intro; lia.
  - assert (H3 : 3 <= m) by lia.
    rewrite calculate_anderson_coeffs_general in Hrun by assumption.
    cbv zeta in Hrun.
    destruct (anderson_system v (Z.to_nat (m - 2)) (Z.to_nat ndof)) as [mat rhs].
    destruct (ludcmp ext mat (Z.to_nat (m - 2))) as [[lu perm]|]; [|discriminate].
    inversion Hrun; subst; clear Hrun.
    set (n := Z.to_nat (m - 2)).
    set (x := lubksb ext lu n perm rhs).
    assert (Hn : Z.to_nat (m - 1) = S n) by (unfold n; lia).
    rewrite define_coeffs_entries by (rewrite Hlen; exact Hn).
    set (xs := map (at1 x) (seq 0 n)).
    assert (Hxs : length xs = n) by (unfold xs; now rewrite length_map, length_seq).
    assert (Hfirst : firstn n (xs ++ [d_sub_s Binary64.one (s_sum xs)]) = xs).
    { rewrite <- Hxs at 1. rewrite firstn_app, firstn_all, Nat.sub_diag. simpl.
      apply app_nil_r. }
    split; [rewrite length_app, Hxs, Hn; simpl; lia|].
    split; [intro; lia|].
    intros _. cbv zeta. rewrite Hfirst. repeat split.
    + unfold s_sum. rewrite fold_left_app. reflexivity.
    + rewrite new_events_log. reflexivity.
Qed.

Lemma anderson_coeffs_last_is_one_minus_sum_witness :
  let c := [Binary64.div (Binary64.sub Binary64.zero (of_Z 6)) (of_Z 9);
            Binary64.sub Binary64.one
              (Binary64.add Binary64.zero
                 (Binary64.div (Binary64.sub Binary64.zero (of_Z 6)) (of_Z 9)))] in
  length c = 2%nat
  /\ c = firstn 1 c ++ [d_sub_s Binary64.one (s_sum (firstn 1 c))].
Proof.
  cbv zeta.
  assert (Hrun :
    calculate_anderson_coeffs affine_map
      [[of_Z 0]; [of_Z 5]; [of_Z 7]] [Binary64.zero; Binary64.zero] 3 1
      (fresh_solver [])
    = (Return [Binary64.div (Binary64.sub Binary64.zero (of_Z 6)) (of_Z 9);
               Binary64.sub Binary64.one
                 (Binary64.add Binary64.zero
                    (Binary64.div (Binary64.sub Binary64.zero (of_Z 6)) (of_Z 9)))],
       log [New CoeffsMat; New CoeffsRhs; New CoeffsPerm; Ludcmp; Lubksb;
            Delete CoeffsMat; Delete CoeffsRhs] (fresh_solver [])))
    by (vm_compute; reflexivity).
  destruct (anderson_coeffs_last_is_one_minus_sum affine_map
              [[of_Z 0]; [of_Z 5]; [of_Z 7]] [Binary64.zero; Binary64.zero]
              _ 3 1 _ _ ltac:(lia) eq_refl Hrun)
    as (Hl & _ & H3).
  split; [exact Hl|].
  exact (proj1 (H3 ltac:(lia))).
Defined.

(** The coefficients of the history 0, 5, 7 (one degree of freedom, three
    vectors) are -6/9 and 1 - (-6/9), rounded: their sum is not 1. *)
Lemma anderson_coeffs_sum_not_one :
  exists c st',
    calculate_anderson_coeffs affine_map
      [[of_Z 0]; [of_Z 5]; [of_Z 7]] [Binary64.zero; Binary64.zero] 3 1
      (fresh_solver [])
    = (Return c, st')
    /\ length c = 2%nat
    /\ s_sum c <> Binary64.one
    /\ Binary64.eqb (s_sum c) Binary64.one = false.
Proof.
  eexists. eexists. split; [vm_compute; reflexivity|].
  split; [reflexivity|]. split; [vm_compute; discriminate | vm_compute; reflexivity].
Qed.

(** ** The memory of the last vectors *)

Lemma firstn_S_nth {A : Type} (l : list A) (c : nat) (d : A) :
  (c < length l)%nat -> firstn (S c) l = firstn c l ++ [nth c l d].
Proof.
  revert c. induction l as [|x l IH]; intros c Hc; simpl in Hc; [lia|].
  destruct c as [|c]; [reflexivity|].
  change (firstn (S (S c)) (x :: l)) with (x :: firstn (S c) l).
  rewrite (IH c) by lia. reflexivity.
Qed.

Lemma skipn_nth_cons {A : Type} (l : list A) (c : nat) (d : A) :
  (c < length l)%nat -> skipn c l = nth c l d :: skipn (S c) l.
Proof.
  revert c. induction l as [|x l IH]; intros c Hc; simpl in Hc; [lia|].
  destruct c as [|c]; [reflexivity|].
  simpl. apply IH. lia.
Qed.

Lemma last_n_short {A : Type} (m : nat) (l : list A) :
  (length l <= m)%nat -> last_n m l = l.
Proof.
  intro Hl. unfold last_n. replace (length l - m)%nat with 0%nat by lia. reflexivity.
Qed.

Lemma length_last_n {A : Type} (m : nat) (l : list A) :
  (length (last_n m l) <= m)%nat.
Proof. unfold last_n. rewrite length_skipn. lia. Qed.

Lemma last_n_app_one {A : Type} (m : nat) (l : list A) (x : A) :
  (1 <= m)%nat -> last_n m (last_n m l ++ [x]) = last_n m (l ++ [x]).
Proof.
  intro Hm. unfold last_n.
  rewrite !length_app, length_skipn. simpl.
  destruct (Nat.le_gt_cases (length l) m) as [Hle|Hgt].
  - replace (length l - m)%nat with 0%nat by lia. simpl.
    f_equal. lia.
  - replace (length l - (length l - m) + 1 - m)%nat with 1%nat by lia.
    replace (length l + 1 - m)%nat with (S (length l - m)) by lia.
    rewrite !skipn_app.
    replace (S (length l - m) - length l)%nat with 0%nat by lia.
    replace (1 - length (skipn (length l - m) l))%nat with 0%nat
      by (rewrite length_skipn; lia).
    simpl (skipn 0 _). f_equal.
    rewrite skipn_skipn. reflexivity.
Qed.

Section History.
Context {Scalar : Type} `{ScalarOps Scalar}.
Implicit Types pv : list (slot Scalar).

(** The pointers move one place back, the oldest comes last. *)
Lemma shift_back_rotates pv (m : Z) :
  length pv = Z.to_nat m -> 1 <= m ->
  shift_back pv m = skipn 1 pv ++ firstn 1 pv.
Proof.
  intros Hlen Hm. unfold shift_back.
  destruct pv as [|x rest]; [simpl in Hlen; lia|].
  simpl in Hlen.
  assert (Hrest : length rest = Z.to_nat (m - 1)) by lia.
  assert (G : forall c, (c <= length rest)%nat ->
            for_loop c (fun i pv => store pv i (nth (i + 1) pv null_slot)) (x :: rest)
            = firstn c rest ++ skipn c (x :: rest)).
  { induction c as [|c IH]; intro Hc.
    - reflexivity.
    - rewrite for_loop_S, IH by lia.
      rewrite (skipn_nth_cons (x :: rest) c null_slot) by (simpl; lia).
      rewrite app_nth2 by (rewrite length_firstn; lia).
      rewrite length_firstn.
      replace (c + 1 - Nat.min c (length rest))%nat with 1%nat by lia.
      rewrite (store_app_at (firstn c rest)) by (rewrite length_firstn; lia).
      change (skipn (S c) (x :: rest)) with (skipn c rest).
      rewrite (firstn_S_nth rest c null_slot) by lia.
      rewrite <- app_assoc. simpl.
      rewrite (skipn_nth_cons rest c null_slot) by lia. reflexivity. }
  rewrite <- Hrest, G by lia.
  rewrite firstn_all. simpl (nth 0 _ _).
  rewrite (skipn_nth_cons (x :: rest) (length rest) null_slot) by (simpl; lia).
  change (skipn (S (length rest)) (x :: rest)) with (skipn (length rest) rest).
  rewrite skipn_all. simpl. apply store_app_at. reflexivity.
Qed.

Lemma map_store {A B : Type} (f : A -> B) (l : list A) (i : nat) (x : A) :
  map f (store l i x) = store (map f l) i (f x).
Proof.
  revert i. induction l as [|h t IH]; intros [|i]; simpl; try reflexivity.
  now rewrite IH.
Qed.

(** Copying into a buffer changes what it holds and not which buffer it
    is. *)
Lemma memcpy_into_bufs pv (i : nat) (src : list Scalar) (ndof : nat) :
  map (@slot_buf Scalar) (memcpy_into pv i src ndof) = map (@slot_buf Scalar) pv.
Proof.
  unfold memcpy_into. rewrite map_store. simpl.
  rewrite <- (map_nth (@slot_buf Scalar)). apply store_nth_self.
Qed.

Lemma memcpy_into_data pv (i : nat) (src : list Scalar) (ndof : nat) :
  vectors_of_length ndof (map (@slot_data Scalar) pv) ->
  length src = ndof -> (i < length pv)%nat ->
  map (@slot_data Scalar) (memcpy_into pv i src ndof)
  = store (map (@slot_data Scalar) pv) i src.
Proof.
  intros Hv Hs Hi. unfold memcpy_into. rewrite map_store. simpl. f_equal.
  apply memcpy_whole; [assumption|].
  change (slot_data (nth i pv null_slot))
    with ((fun s => slot_data s) (nth i pv null_slot)).
  rewrite <- (map_nth (fun s => slot_data s)).
  apply vectors_of_length_nth; [assumption | now rewrite length_map].
Qed.

Lemma vectors_of_length_store (ndof : nat) (v : list (list Scalar)) (i : nat)
    (x : list Scalar) :
  vectors_of_length ndof v -> length x = ndof -> vectors_of_length ndof (store v i x).
Proof.
  unfold vectors_of_length. intros Hv Hx. revert i.
  induction Hv as [|h t Hh Ht IH]; intros [|i]; simpl; constructor; auto.
Qed.

(** One push: the memory stays well formed and holds the last vectors. *)
Lemma history_push_ok (m : Z) (ndof : nat) pv (vim : Z) (v : list Scalar) :
  history_ok m ndof pv vim -> length v = ndof ->
  let h := history_push m ndof pv vim v in
  history_ok m ndof (fst h) (snd h)
  /\ stored (fst h) (snd h) = last_n (Z.to_nat m) (stored pv vim ++ [v]).
Proof.
  intros (Hlen & Hvim & Hdata & Hbufs) Hv. unfold history_push.
  destruct (vim <? m) eqn:E.
  - apply Z.ltb_lt in E. cbv zeta. simpl fst. simpl snd.
    assert (Hi : (Z.to_nat vim < length pv)%nat) by lia.
    split.
    + repeat split; try lia.
      * unfold memcpy_into. now rewrite length_store.
      * rewrite memcpy_into_data by assumption.
        now apply vectors_of_length_store.
      * now rewrite memcpy_into_bufs.
    + unfold stored. rewrite memcpy_into_data by assumption.
      rewrite last_n_short
        by (rewrite length_app, length_firstn, length_map; simpl; lia).
      replace (Z.to_nat (vim + 1)) with (S (Z.to_nat vim)) by lia.
      rewrite (firstn_S_nth _ _ []) by (now rewrite length_store, length_map).
      rewrite nth_store_same by (now rewrite length_map).
      f_equal.
      rewrite <- (firstn_skipn (Z.to_nat vim) (map (@slot_data Scalar) pv)) at 1.
      rewrite (skipn_nth_cons _ _ []) by (now rewrite length_map).
      rewrite store_app_at
        by (rewrite length_firstn, length_map; lia).
      rewrite firstn_app, length_firstn, length_map.
      replace (Z.to_nat vim - Nat.min (Z.to_nat vim) (length pv))%nat with 0%nat by lia.
      rewrite firstn_firstn, Nat.min_id. simpl. apply app_nil_r.
  - apply Z.ltb_ge in E. assert (vim = m) as -> by lia.
    cbv zeta. simpl fst. simpl snd.
    rewrite shift_back_rotates by (assumption || lia).
    destruct pv as [|x rest]; [simpl in Hlen; lia|].
    simpl in Hlen. simpl (skipn 1 _). simpl (firstn 1 _).
    assert (Hrest : length rest = Z.to_nat (m - 1)) by lia.
    assert (Hdata' : vectors_of_length ndof (map (@slot_data Scalar) (rest ++ [x]))).
    { unfold vectors_of_length in *. rewrite map_app. simpl in Hdata.
      inversion Hdata; subst. apply Forall_app. split; [assumption|].
      constructor; [assumption | constructor]. }
    assert (Hi : (Z.to_nat (m - 1) < length (rest ++ [x]))%nat)
      by (rewrite length_app; simpl; lia).
    split.
    + repeat split; try lia.
      * unfold memcpy_into. rewrite length_store, length_app. simpl. lia.
      * rewrite memcpy_into_data by assumption.
        now apply vectors_of_length_store.
      * rewrite memcpy_into_bufs, map_app. simpl.
        rewrite <- Hbufs. simpl.
        apply Permutation_sym, Permutation_cons_append.
    + unfold stored. rewrite memcpy_into_data by assumption.
      rewrite map_app. simpl map.
      rewrite store_app_at by (now rewrite length_map).
      rewrite !firstn_all2
        by (rewrite ?length_app, ?length_map; simpl; rewrite ?length_map; lia).
      unfold last_n. rewrite length_app. simpl length. rewrite length_map.
      replace (S (length rest) + 1 - Z.to_nat m)%nat with 1%nat by lia.
      reflexivity.
Qed.

(** Any number of pushes. *)
Lemma push_all_ok (m : Z) (ndof : nat) (vs : list (list Scalar)) pv (vim : Z) :
  history_ok m ndof pv vim -> vectors_of_length ndof vs ->
  let h := push_all m ndof vs (pv, vim) in
  history_ok m ndof (fst h) (snd h)
  /\ stored (fst h) (snd h) = last_n (Z.to_nat m) (stored pv vim ++ vs).
Proof.
  intros Hok Hvs. revert pv vim Hok.
  induction Hvs as [|v vs Hv Hvs IH]; intros pv vim Hok.
  - simpl. split; [assumption|].
    rewrite app_nil_r. symmetry. apply last_n_short.
    destruct Hok as (Hlen & Hvim & _).
    unfold stored. rewrite length_firstn, length_map. lia.
  - cbv zeta. unfold push_all. simpl fold_left.
    destruct (history_push_ok m ndof pv vim v Hok Hv) as [Hok' Hst].
    destruct (history_push m ndof pv vim v) as [pv' vim'] eqn:E.
    simpl fst in *. simpl snd in *.
    destruct (IH pv' vim' Hok') as [Hok'' Hst''].
    unfold push_all in Hok'', Hst''. cbv zeta in Hok'', Hst''.
    split; [exact Hok''|].
    rewrite Hst'', Hst.
    replace (stored pv vim ++ v :: vs) with ((stored pv vim ++ [v]) ++ vs)
      by (now rewrite <- app_assoc).
    generalize (stored pv vim ++ [v]). intro l.
    assert (Hm : (1 <= Z.to_nat m)%nat) by (destruct Hok as (_ & ? & _); lia).
    clear - Hm. revert l.
    induction vs as [|w vs IHvs]; intro l.
    + rewrite !app_nil_r. unfold last_n at 1.
      replace (length (last_n (Z.to_nat m) l) - Z.to_nat m)%nat with 0%nat
        by (pose proof (length_last_n (Z.to_nat m) l); lia).
      reflexivity.
    + replace (last_n (Z.to_nat m) l ++ w :: vs)
        with ((last_n (Z.to_nat m) l ++ [w]) ++ vs) by (now rewrite <- app_assoc).
      replace (l ++ w :: vs) with ((l ++ [w]) ++ vs) by (now rewrite <- app_assoc).
      rewrite <- (IHvs (l ++ [w])), <- (IHvs (last_n (Z.to_nat m) l ++ [w])).
      now rewrite last_n_app_one.
Qed.

(** The memory [solve] starts from: the buffers, and the initial vector
    in the first. *)
Lemma initial_history_ok (m : Z) (ndof : nat) (v0 : list Scalar) :
  1 <= m -> length v0 = ndof ->
  let pv := memcpy_into (allocate_previous_vectors (Z.to_nat m) ndof) 0 v0 ndof in
  history_ok m ndof pv 1 /\ stored pv 1 = [v0].
Proof.
  intros Hm Hv. cbv zeta.
  assert (Hdata : vectors_of_length ndof
            (map (@slot_data Scalar) (allocate_previous_vectors (Z.to_nat m) ndof))).
  { unfold vectors_of_length, allocate_previous_vectors.
    rewrite map_map. simpl. apply Forall_forall. intros x Hx.
    apply in_map_iff in Hx. destruct Hx as (i & <- & _). apply repeat_length. }
  assert (Hlen : length (allocate_previous_vectors (Z.to_nat m) ndof) = Z.to_nat m)
    by (unfold allocate_previous_vectors; now rewrite length_map, length_seq).
  split.
  - repeat split; try lia.
    + unfold memcpy_into. now rewrite length_store.
    + rewrite memcpy_into_data by (assumption || lia).
      now apply vectors_of_length_store.
    + rewrite memcpy_into_bufs. unfold allocate_previous_vectors.
      rewrite map_map. simpl. rewrite map_id. apply Permutation_refl.
  - unfold stored. rewrite memcpy_into_data by (assumption || lia).
    destruct (map (@slot_data Scalar) (allocate_previous_vectors (Z.to_nat m) ndof))
      as [|x l] eqn:E.
    + apply (f_equal (@length _)) in E. rewrite length_map, Hlen in E. simpl in E. lia.
    + reflexivity.
Qed.

End History.

(** C5. In a memory of depth [m >= 1] that starts with the initial vector
    [v0], after the vectors [vs] have been pushed one by one the memory
    holds the last [m] of [v0 :: vs], oldest first; so it never holds more
    than [m], and a push into a full memory drops the oldest vector only. *)
Theorem history_holds_last_vectors
    {Scalar : Type} `{ScalarOps Scalar} (m : Z) (ndof : nat)
    (v0 : list Scalar) (vs : list (list Scalar)) :
  1 <= m ->
  length v0 = ndof ->
  vectors_of_length ndof vs ->
  let h := push_all m ndof vs
             (memcpy_into (allocate_previous_vectors (Z.to_nat m) ndof) 0 v0 ndof, 1) in
  stored (fst h) (snd h) = last_n (Z.to_nat m) (v0 :: vs)
  /\ (length (stored (fst h) (snd h)) <= Z.to_nat m)%nat.
Proof.
  intros Hm Hv0 Hvs.
  destruct (initial_history_ok m ndof v0 Hm Hv0) as [Hok Hst].
  destruct (push_all_ok m ndof vs _ 1 Hok Hvs) as [_ Hall].
  cbv zeta in *. rewrite Hall, Hst. split; [reflexivity|].
  apply length_last_n.
Qed.

Lemma history_holds_last_vectors_witness :
  let h := push_all 2 1 [[of_Z 3]; [of_Z 5]; [of_Z 7]]
             (memcpy_into (allocate_previous_vectors 2 1) 0 [Binary64.zero] 1, 1) in
  stored (fst h) (snd h) = [[of_Z 5]; [of_Z 7]]
  /\ (length (stored (fst h) (snd h)) <= 2)%nat.
Proof.
  exact (history_holds_last_vectors 2 1 [Binary64.zero]
           [[of_Z 3]; [of_Z 5]; [of_Z 7]]
           ltac:(lia) eq_refl ltac:(repeat constructor)).
Defined.

(** ** Arithmetic of [double] around zero and one *)

Lemma same_refl (x : double) : same x x.
Proof. now left. Qed.

Lemma same_zeros (x y : double) : is_zero x = true -> is_zero y = true -> same x y.
Proof. intros Hx Hy. right. now split. Qed.

Lemma sub_one_one : Binary64.sub Binary64.one Binary64.one = Binary64.zero.
Proof. reflexivity. Qed.

(** Zero times a finite number is a zero. *)
Lemma mul_zero_l (z x : double) :
  is_zero z = true -> is_finite x = true -> is_zero (Binary64.mul z x) = true.
Proof. destruct z, x; simpl; intros; try discriminate; reflexivity. Qed.

(** Subtracting a zero changes at most the sign of a zero. *)
Lemma sub_zero_r (x z : double) : is_zero z = true -> same (Binary64.sub x z) x.
Proof.
  destruct z as [sz| | |]; try discriminate. intros _.
  destruct x as [sx|sx| |sx mx ex]; simpl.
  - apply same_zeros; [|reflexivity]. now destruct sx, sz.
  - now left.
  - now left.
  - now left.
Qed.

(** Addition does not tell the two zeros apart, up to the sign of a zero. *)
Lemma add_same (a a' t t' : double) :
  same a a' -> same t t' -> same (Binary64.add a t) (Binary64.add a' t').
Proof.
  intros [->|[Ha Ha']] [->|[Ht Ht']].
  - apply same_refl.
  - destruct t as [st| | |]; try discriminate.
    destruct t' as [st'| | |]; try discriminate.
    destruct a' as [sa|sa| |sa ma ea]; simpl.
    + apply same_zeros; [now destruct sa, st | now destruct sa, st'].
    + now left.
    + now left.
    + now left.
  - destruct a as [sa| | |]; try discriminate.
    destruct a' as [sa'| | |]; try discriminate.
    destruct t' as [st|st| |st mt et]; simpl.
    + apply same_zeros; [now destruct sa, st | now destruct sa', st].
    + now left.
    + now left.
    + now left.
  - destruct a as [sa| | |]; try discriminate.
    destruct a' as [sa'| | |]; try discriminate.
    destruct t as [st| | |]; try discriminate.
    destruct t' as [st'| | |]; try discriminate.
    apply same_zeros; [now destruct sa, st | now destruct sa', st'].
Qed.

Lemma fold_add_same (ts ts' : list double) (a a' : double) :
  Forall2 same ts ts' -> same a a' ->
  same (fold_left Binary64.add ts a) (fold_left Binary64.add ts' a').
Proof.
  intro Hts. revert a a'.
  induction Hts as [|t t' ts ts' Ht Hts IH]; intros a a' Ha; simpl.
  - exact Ha.
  - apply IH. now apply add_same.
Qed.

(** Adding to [+0.0] changes at most the sign of a zero. *)
Lemma add_zero_l (x : double) : same (Binary64.add Binary64.zero x) x.
Proof.
  destruct x as [sx|sx| |sx mx ex]; simpl.
  - apply same_zeros; [now destruct sx | reflexivity].
  - now left.
  - now left.
  - now left.
Qed.

Lemma same_trans (x y z : double) : same x y -> same y z -> same x z.
Proof.
  intros [->|[Hx Hy]] [->|[Hy' Hz]].
  - apply same_refl.
  - now right.
  - now right.
  - now right.
Qed.

(** Multiplying by [1.0] leaves a [double] as it is. *)
Lemma one_eq : Binary64.one = S754_finite false 4503599627370496 (-52).
Proof. reflexivity. Qed.

Lemma digits2_shift52 (m : positive) :
  Z.pos (digits2_pos (Pos.iter xO m 52)) = Z.pos (digits2_pos m) + 52.
Proof. cbn [Pos.iter digits2_pos]. lia. Qed.

Lemma shr_shift52 (m : positive) :
  iter_pos shr_1 52 (shr_record_of_loc (Z.pos (Pos.iter xO m 52)) loc_Exact)
  = {| shr_m := Z.pos m; shr_r := false; shr_s := false |}.
Proof. reflexivity. Qed.

Lemma shr_fexp_shift52 (m : positive) (e : Z) :
  fexp prec emax (Z.pos (digits2_pos m) + e) = e ->
  shr_fexp prec emax (Z.pos (Pos.iter xO m 52)) (-52 + e) loc_Exact
  = ({| shr_m := Z.pos m; shr_r := false; shr_s := false |}, e).
Proof.
  intro Hc. unfold shr_fexp. unfold Zdigits2. rewrite digits2_shift52.
  replace (Z.pos (digits2_pos m) + 52 + (-52 + e)) with (Z.pos (digits2_pos m) + e) by lia.
  rewrite Hc. replace (e - (-52 + e)) with 52 by lia.
  unfold shr. rewrite shr_shift52. f_equal. lia.
Qed.

Lemma shr_fexp_canonical (m : positive) (e : Z) :
  fexp prec emax (Z.pos (digits2_pos m) + e) = e ->
  shr_fexp prec emax (Z.pos m) e loc_Exact
  = ({| shr_m := Z.pos m; shr_r := false; shr_s := false |}, e).
Proof.
  intro Hc. unfold shr_fexp, Zdigits2. rewrite Hc, Z.sub_diag. reflexivity.
Qed.

Lemma mul_one_l (x : double) : valid x = true -> Binary64.mul Binary64.one x = x.
Proof.
  destruct x as [s|s| |s m e]; intro Hv; try reflexivity.
  unfold valid, valid_binary, bounded, canonical_mantissa in Hv.
  apply andb_prop in Hv. destruct Hv as [Hc He].
  apply Z.eqb_eq in Hc.
  rewrite one_eq. unfold Binary64.mul, SFmul.
  change (xorb false s) with s.
  change (Pos.mul 4503599627370496 m) with (Pos.iter xO m 52).
  unfold binary_round_aux.
  rewrite shr_fexp_shift52 by exact Hc.
  cbn [shr_m loc_of_shr_record round_nearest_even].
  rewrite shr_fexp_canonical by exact Hc.
  cbn [shr_m]. now rewrite He.
Qed.

(** ** The mixed vector *)

(** A loop whose pass [i] writes cell [i] only. *)
Lemma for_loop_fill {A : Type} (f : nat -> A) (body : nat -> list A -> list A)
    (n : nat) (a : list A) :
  (forall i b, (i < n)%nat -> length b = length a -> body i b = store b i (f i)) ->
  (n <= length a)%nat ->
  for_loop n body a = map f (seq 0 n) ++ skipn n a.
Proof.
  induction n as [|n IH]; intros Hbody Hn.
  - reflexivity.
  - rewrite for_loop_S, IH by (intros; try apply Hbody; lia).
    rewrite Hbody
      by (try rewrite length_app, length_map, length_seq, length_skipn; lia).
    rewrite (skipn_nth_cons a n (f n)) by lia.
    rewrite store_app_at by (now rewrite length_map, length_seq).
    rewrite seq_S, map_app, <- app_assoc. reflexivity.
Qed.

Section Mixing.
Context {Scalar : Type} `{ScalarOps Scalar}.

(** The loop over [j] accumulates in cell [i]. *)
Lemma for_loop_accumulate_cell (t : nat -> Scalar) (i c : nat) (a : list Scalar) :
  (i < length a)%nat ->
  for_loop c (fun j sln => store sln i (s_add (at1 sln i) (t j))) a
  = store a i (fold_left s_add (map t (seq 0 c)) (at1 a i)).
Proof.
  intro Hi. induction c as [|c IH].
  - simpl. unfold at1. now rewrite store_nth_self.
  - rewrite for_loop_S, IH. cbv beta.
    replace (at1 (store a i (fold_left s_add (map t (seq 0 c)) (at1 a i))) i)
      with (fold_left s_add (map t (seq 0 c)) (at1 a i))
      by (unfold at1; now rewrite nth_store_same).
    rewrite store_store.
    rewrite seq_S, map_app, fold_left_app. reflexivity.
Qed.

(** Entry [k] of the mixed vector: the sum over the memory, from zero. *)
Lemma anderson_mix_entries (beta : double) (c : list Scalar)
    (v : list (list Scalar)) (m : Z) (ndof : nat) (sln : list Scalar) :
  (ndof <= length sln)%nat ->
  anderson_mix beta c v m ndof sln
  = map (fun k =>
           fold_left s_add
             (map (fun j' => mix_term beta (at1 c j') (at2 v (S j') k) (at2 v j' k))
                  (seq 0 (Z.to_nat (m - 1))))
             s_zero)
        (seq 0 ndof)
    ++ skipn ndof sln.
Proof.
  intro Hn. unfold anderson_mix. apply for_loop_fill; [|assumption].
  intros i b Hi Hb.
  rewrite (for_loop_accumulate_cell
             (fun j' => mix_term beta (at1 c (S j' - 1)) (at2 v (S j') i)
                          (at2 v (S j' - 1) i)))
    by (rewrite length_store; lia).
  rewrite store_store. f_equal.
  replace (at1 (store b i s_zero) i) with (@s_zero Scalar _)
    by (unfold at1; rewrite nth_store_same by lia; reflexivity).
  f_equal. apply map_ext. intro j'.
  now replace (S j' - 1)%nat with j' by lia.
Qed.

Lemma spec_mixed_terms (beta : double) (c : list Scalar) (v : list (list Scalar))
    (m k : nat) :
  spec_mixed beta c v m k
  = fold_left s_add
      (map (fun j' => mix_term beta (at1 c j') (at2 v (S j') k) (at2 v j' k))
           (seq 0 (m - 1)))
      s_zero.
Proof.
  unfold spec_mixed, s_sum. rewrite <- seq_shift, map_map. f_equal.
  apply map_ext. intro j'. unfold mix_term.
  now replace (S j' - 1)%nat with j' by lia.
Qed.

Lemma spec_plain_terms (c : list Scalar) (v : list (list Scalar)) (m k : nat) :
  spec_plain c v m k
  = fold_left s_add
      (map (fun j' => s_mul (at1 c j') (at2 v (S j') k)) (seq 0 (m - 1)))
      s_zero.
Proof.
  unfold spec_plain, s_sum. rewrite <- seq_shift, map_map. f_equal.
  apply map_ext. intro j'.
  now replace (S j' - 1)%nat with j' by lia.
Qed.

Lemma anderson_mix_entry (beta : double) (c : list Scalar)
    (v : list (list Scalar)) (m : Z) (ndof : nat) (sln : list Scalar) (k : nat) :
  (ndof <= length sln)%nat -> (k < ndof)%nat ->
  at1 (anderson_mix beta c v m ndof sln) k = spec_mixed beta c v (Z.to_nat m) k.
Proof.
  intros Hn Hk. rewrite anderson_mix_entries by assumption.
  unfold at1. rewrite app_nth1 by (now rewrite length_map, length_seq).
  rewrite spec_mixed_terms.
  replace (Z.to_nat m - 1)%nat with (Z.to_nat (m - 1)) by lia.
  exact (at1_map_seq _ ndof k Hk).
Qed.

End Mixing.

(** With [beta = 1.0] the relaxation term of a summand is a zero, as long as
    the coefficient and the difference are finite. *)
Lemma mix_term_beta_one (a v_j v_jm1 : double) :
  is_finite a = true ->
  is_finite (Binary64.sub v_j v_jm1) = true ->
  same (mix_term Binary64.one a v_j v_jm1) (Binary64.mul a v_j).
Proof.
  intros Ha Hd.
  change (mix_term Binary64.one a v_j v_jm1)
    with (Binary64.sub (Binary64.mul a v_j)
            (Binary64.mul (Binary64.mul (Binary64.sub Binary64.one Binary64.one) a)
                          (Binary64.sub v_j v_jm1))).
  rewrite sub_one_one.
  apply sub_zero_r.
  apply mul_zero_l; [|assumption].
  apply mul_zero_l; [reflexivity | assumption].
Qed.

(** C9, as the code has it.  For every [Scalar], entry [k] of the mixed
    vector is
    [Σ_{j=1}^{m-1} c_j v_j[k] - (1 - beta) c_j (v_j[k] - v_{j-1}[k])].
    For [Scalar = double] and [beta = 1.0], if every coefficient and every
    difference [v_j[k] - v_{j-1}[k]] is finite, it is the plain combination
    [Σ c_j v_j[k]], up to the sign of a zero. *)
Theorem anderson_mix_formula :
  (forall (Scalar : Type) (ops : ScalarOps Scalar) (beta : double) (c : list Scalar)
          (v : list (list Scalar)) (m : Z) (ndof : nat) (sln : list Scalar) (k : nat),
      (ndof <= length sln)%nat -> (k < ndof)%nat ->
      at1 (anderson_mix beta c v m ndof sln) k = spec_mixed beta c v (Z.to_nat m) k)
  /\ (forall (c : list double) (v : list (list double)) (m : Z) (ndof : nat)
             (sln : list double) (k : nat),
         (ndof <= length sln)%nat -> (k < ndof)%nat ->
         (forall j, (1 <= j < Z.to_nat m)%nat ->
            is_finite (at1 c (j - 1)) = true
            /\ is_finite (Binary64.sub (at2 v j k) (at2 v (j - 1) k)) = true) ->
         same (at1 (anderson_mix Binary64.one c v m ndof sln) k)
              (spec_plain c v (Z.to_nat m) k)).
Proof.
  split.
  - intros. now apply anderson_mix_entry.
  - intros c v m ndof sln k Hn Hk Hfin.
    rewrite anderson_mix_entry by assumption.
    rewrite spec_mixed_terms, spec_plain_terms.
    apply fold_add_same; [|apply same_refl].
    assert (G : forall l, (forall j', In j' l -> (S j' < Z.to_nat m)%nat) ->
              Forall2 same
                (map (fun j' => mix_term Binary64.one (at1 c j') (at2 v (S j') k)
                                  (at2 v j' k)) l)
                (map (fun j' => s_mul (at1 c j') (at2 v (S j') k)) l)).
    { induction l as [|j' l IH]; intro Hl; simpl; constructor.
      - destruct (Hfin (S j')) as [Hc Hd]; [pose proof (Hl j' (or_introl eq_refl)); lia|].
        replace (S j' - 1)%nat with j' in * by lia.
        now apply mix_term_beta_one.
      - apply IH. intros. apply Hl. now right. }
    apply G. intros j' Hj'. apply in_seq in Hj'. lia.
Qed.

Lemma anderson_mix_formula_witness :
  same (at1 (anderson_mix Binary64.one [Binary64.one] [[of_Z 3]; [of_Z 5]] 2 1
               [Binary64.zero]) 0)
       (spec_plain [Binary64.one] [[of_Z 3]; [of_Z 5]] 2 0).
Proof.
  apply (proj2 anderson_mix_formula [Binary64.one] [[of_Z 3]; [of_Z 5]] 2 1%nat
           [Binary64.zero] 0%nat).
  - simpl. lia.
  - lia.
  - intros j Hj. assert (j = 1%nat) as -> by (simpl in Hj; lia).
    split; reflexivity.
Defined.

(** With the memory [-DBL_MAX], [DBL_MAX] (the largest finite [double]), the
    coefficient [1.0] and [beta = 1.0], the difference of the two vectors
    overflows: the mixed entry is NaN, the plain combination is [DBL_MAX]. *)
Lemma anderson_mix_overflow :
  let DBL_MAX := S754_finite false 9007199254740991 971 in
  let v := [[SFopp DBL_MAX]; [DBL_MAX]] in
  at1 (anderson_mix Binary64.one [Binary64.one] v 2 1 [Binary64.zero]) 0 = S754_nan
  /\ spec_plain [Binary64.one] v 2 0 = DBL_MAX
  /\ ~ same (at1 (anderson_mix Binary64.one [Binary64.one] v 2 1 [Binary64.zero]) 0)
            (spec_plain [Binary64.one] v 2 0).
Proof.
  cbv zeta. split; [vm_compute; reflexivity|]. split; [vm_compute; reflexivity|].
  intros [Heq|[Hz _]]; vm_compute in Heq || vm_compute in Hz; discriminate.
Qed.

(** ** Two vectors and no relaxation *)

Section NewestVector.
Context {Scalar : Type} `{ScalarOps Scalar}.

(** After a push the newest vector is the last one in use. *)
Lemma history_push_newest (m : Z) (ndof : nat) (pv : list (slot Scalar)) (vim : Z)
    (v : list Scalar) :
  history_ok m ndof pv vim -> length v = ndof ->
  let h := history_push m ndof pv vim v in
  nth (Z.to_nat (snd h - 1)) (map (@slot_data Scalar) (fst h)) [] = v
  /\ snd h = Z.min (vim + 1) m.
Proof.
  intros (Hlen & Hvim & Hdata & Hbufs) Hv. unfold history_push.
  destruct (vim <? m) eqn:E; cbv zeta; simpl fst; simpl snd.
  - apply Z.ltb_lt in E. split; [|lia].
    rewrite memcpy_into_data by (assumption || lia).
    replace (Z.to_nat (vim + 1 - 1)) with (Z.to_nat vim) by lia.
    apply nth_store_same. rewrite length_map. lia.
  - apply Z.ltb_ge in E. split; [|lia].
    assert (vim = m) as -> by lia.
    rewrite shift_back_rotates by (assumption || lia).
    destruct pv as [|x rest]; [simpl in Hlen; lia|].
    simpl in Hlen. simpl (skipn 1 _). simpl (firstn 1 _).
    rewrite memcpy_into_data.
    + apply nth_store_same. rewrite length_map, length_app. simpl. lia.
    + unfold vectors_of_length in *. rewrite map_app. simpl in Hdata.
      inversion Hdata; subst. apply Forall_app. split; [assumption|].
      constructor; [assumption | constructor].
    + assumption.
    + rewrite length_app. simpl. lia.
Qed.

End NewestVector.

(** One mixing step with two vectors in the memory and [beta = 1.0], for
    [Scalar = double]: the single coefficient is [1.0], nothing is called;
    and wherever the new vector minus the older one is finite, the entry of
    the mixed vector is the entry of the new vector, up to the sign of a
    zero. *)
Lemma anderson_step_two_vectors
    {World : Type} (ext : externals World double) (cfg : config) (ndof : Z)
    (pv : list (slot double)) (vim : Z) (coeffs sln : list double)
    (st : state World double) :
  num_last_vectors_used cfg = 2 ->
  anderson_beta cfg = Binary64.one ->
  history_ok 2 (Z.to_nat ndof) pv vim ->
  length coeffs = 1%nat ->
  length sln = Z.to_nat ndof ->
  let h := history_push 2 (Z.to_nat ndof) pv vim sln in
  let older := nth 0 (map (@slot_data double) (fst h)) [] in
  exists mixed st',
    anderson_step ext cfg ndof (fst h) coeffs sln st
    = (Return ([Binary64.one], mixed), st')
    /\ sln_vector st' = Some mixed
    /\ trace st' = trace st
    /\ forall k, (k < Z.to_nat ndof)%nat ->
         valid (at1 sln k) = true ->
         is_finite (Binary64.sub (at1 sln k) (at1 older k)) = true ->
         same (at1 mixed k) (at1 sln k).
Proof.
  intros Hm Hbeta Hok Hc Hs h older.
  destruct (history_push_newest 2 (Z.to_nat ndof) pv vim sln Hok Hs) as [Hnew Hvim'].
  fold h in Hnew, Hvim'.
  assert (Hsnd : snd h = 2) by (destruct Hok as (_ & ? & _); lia).
  rewrite Hsnd in Hnew. change (Z.to_nat (2 - 1)) with 1%nat in Hnew.
  unfold anderson_step. rewrite Hm, Hbeta.
  unfold bind. rewrite calculate_anderson_coeffs_two.
  destruct coeffs as [|c0 [|c1 coeffs]]; try discriminate Hc.
  simpl store. unfold set_sln_vector, ret.
  eexists. eexists. split; [reflexivity|].
  split; [reflexivity|]. split; [reflexivity|].
  intros k Hk Hvalid Hfin.
  rewrite anderson_mix_entry by lia.
  rewrite spec_mixed_terms.
  change (seq 0 (Z.to_nat 2 - 1)) with [0%nat]. cbn [map fold_left].
  change (@at1 double double_ScalarOps [Binary64.one] 0) with Binary64.one.
  change (@s_add double double_ScalarOps) with Binary64.add.
  change (@s_zero double double_ScalarOps) with Binary64.zero.
  replace (at2 (map (@slot_data double) (fst h)) 1 k) with (at1 sln k)
    by (unfold at2, at1; now rewrite Hnew).
  change (at2 (map (@slot_data double) (fst h)) 0 k) with (at1 older k).
  eapply same_trans; [apply add_zero_l|].
  eapply same_trans; [apply mix_term_beta_one; [reflexivity | assumption]|].
  rewrite mul_one_l by assumption. apply same_refl.
Qed.

(** From the initial vector [-DBL_MAX], the candidate [DBL_MAX]: the mixed
    vector is not the candidate, it is NaN.  From the initial vector [0.0],
    the candidate [-0.0]: the mixed vector is [+0.0]. *)
Lemma anderson_two_vectors_overflow :
  let DBL_MAX := S754_finite false 9007199254740991 971 in
  let cfg := set_num_last_vector_used 2
               (use_Anderson_acceleration true (init_picard false)) in
  let h := history_push 2 1
             (memcpy_into (allocate_previous_vectors 2 1) 0 [SFopp DBL_MAX] 1) 1
             [DBL_MAX] in
  let h0 := history_push 2 1
              (memcpy_into (allocate_previous_vectors 2 1) 0 [Binary64.zero] 1) 1
              [S754_zero true] in
  anderson_beta cfg = Binary64.one
  /\ (exists st',
        anderson_step affine_map cfg 1 (fst h) [Binary64.zero] [DBL_MAX]
          (fresh_solver [])
        = (Return ([Binary64.one], [S754_nan]), st')
        /\ ~ same S754_nan DBL_MAX)
  /\ (exists st',
        anderson_step affine_map cfg 1 (fst h0) [Binary64.zero] [S754_zero true]
          (fresh_solver [])
        = (Return ([Binary64.one], [S754_zero false]), st')
        /\ S754_zero false <> S754_zero true).
Proof.
  cbv zeta. split; [reflexivity|]. split.
  - eexists. split; [vm_compute; reflexivity|].
    intros [Heq|[Hz _]]; discriminate.
  - eexists. split; [vm_compute; reflexivity | discriminate].
Qed.

(** ** The trace of [solve] *)

Lemma schemes_app (a b : list event) : schemes (a ++ b) = schemes a ++ schemes b.
Proof. apply flat_map_app. Qed.

Lemma assembles_app (a b : list event) : assembles (a ++ b) = assembles a ++ assembles b.
Proof. apply flat_map_app. Qed.

Lemma allocated_app (a b : list event) : allocated (a ++ b) = allocated a ++ allocated b.
Proof. apply flat_map_app. Qed.

Lemma released_app (a b : list event) : released (a ++ b) = released a ++ released b.
Proof. apply flat_map_app. Qed.

Lemma solves_app (a b : list event) : solves (a ++ b) = (solves a + solves b)%nat.
Proof. unfold solves. now rewrite flat_map_app, length_app. Qed.

Lemma expected_schemes_reusable (cfg : config) (k : nat) :
  expected_schemes cfg true k = repeat (reuse_scheme cfg) k.
Proof. destruct k; reflexivity. Qed.

Lemma expected_assembles_reusable (cfg : config) (k : nat) :
  expected_assembles cfg true k = repeat (negb (constant_jacobian cfg)) k.
Proof. destruct k; reflexivity. Qed.

Lemma assemble_events_schemes (cfg : config) (reusable : bool) :
  schemes (assemble_events cfg reusable)
  = [if reusable then reuse_scheme cfg else HERMES_FACTORIZE_FROM_SCRATCH].
Proof.
  unfold assemble_events, reuse_scheme.
  destruct reusable, (constant_jacobian cfg); reflexivity.
Qed.

Lemma assemble_events_assembles (cfg : config) (reusable : bool) :
  assembles (assemble_events cfg reusable)
  = [if reusable then negb (constant_jacobian cfg) else true].
Proof.
  unfold assemble_events.
  destruct reusable, (constant_jacobian cfg); reflexivity.
Qed.

Lemma assemble_events_quiet (cfg : config) (reusable : bool) :
  allocated (assemble_events cfg reusable) = []
  /\ released (assemble_events cfg reusable) = []
  /\ solves (assemble_events cfg reusable) = 0%nat.
Proof.
  unfold assemble_events.
  destruct reusable, (constant_jacobian cfg); repeat split.
Qed.

Lemma released_deletes (bs : list nat) :
  released (map (fun b => Delete (PreviousVector b)) bs) = map PreviousVector bs.
Proof. induction bs as [|b bs IH]; simpl; [reflexivity | now rewrite IH]. Qed.

Lemma allocated_news (bs : list nat) :
  allocated (map (fun b => New (PreviousVector b)) bs) = map PreviousVector bs.
Proof. induction bs as [|b bs IH]; simpl; [reflexivity | now rewrite IH]. Qed.

Lemma quiet_deletes {A : Type} (g : A -> nat) (l : list A) :
  allocated (map (fun i => Delete (PreviousVector (g i))) l) = []
  /\ schemes (map (fun i => Delete (PreviousVector (g i))) l) = []
  /\ assembles (map (fun i => Delete (PreviousVector (g i))) l) = []
  /\ solves (map (fun i => Delete (PreviousVector (g i))) l) = 0%nat.
Proof.
  induction l as [|i l (IH1 & IH2 & IH3 & IH4)]; simpl; repeat split; assumption.
Qed.

Lemma quiet_news (l : list nat) :
  released (map (fun i => New (PreviousVector i)) l) = []
  /\ schemes (map (fun i => New (PreviousVector i)) l) = []
  /\ assembles (map (fun i => New (PreviousVector i)) l) = []
  /\ solves (map (fun i => New (PreviousVector i)) l) = 0%nat.
Proof.
  induction l as [|i l (IH1 & IH2 & IH3 & IH4)]; simpl; repeat split; assumption.
Qed.

Section TraceOfRelease.
Context {Scalar : Type}.

Lemma release_events_quiet (cfg : config) (pv : list (slot Scalar)) :
  allocated (release_events cfg pv) = []
  /\ schemes (release_events cfg pv) = []
  /\ assembles (release_events cfg pv) = []
  /\ solves (release_events cfg pv) = 0%nat.
Proof.
  unfold release_events.
  rewrite !allocated_app, !schemes_app, !assembles_app, !solves_app.
  destruct (anderson_is_on cfg).
  - rewrite !allocated_app, !schemes_app, !assembles_app, !solves_app.
    destruct (quiet_deletes
                (fun i => slot_buf (nth i pv {| slot_buf := 0%nat; slot_data := [] |}))
                (seq 0 (Z.to_nat (num_last_vectors_used cfg))))
      as (-> & -> & -> & ->).
    repeat split.
  - repeat split.
Qed.

(** Every buffer of the memory is deleted once, whatever the order the
    pointers are in. *)
Lemma release_events_released (cfg : config) (pv : list (slot Scalar)) :
  (anderson_is_on cfg = true ->
     Permutation (map (@slot_buf Scalar) pv)
                 (seq 0 (Z.to_nat (num_last_vectors_used cfg)))) ->
  Permutation (released (release_events cfg pv)) (per_solve_blocks cfg).
Proof.
  intro Hbufs. unfold release_events, per_solve_blocks.
  rewrite !released_app.
  destruct (anderson_is_on cfg).
  - specialize (Hbufs eq_refl).
    assert (Hlen : length pv = Z.to_nat (num_last_vectors_used cfg)).
    { apply Permutation_length in Hbufs. now rewrite length_map, length_seq in Hbufs. }
    set (null := {| slot_buf := 0%nat; slot_data := [] |}).
    assert (Hmap : map (fun i => Delete (PreviousVector (slot_buf (nth i pv null))))
                     (seq 0 (Z.to_nat (num_last_vectors_used cfg)))
                   = map (fun b => Delete (PreviousVector b)) (map (@slot_buf Scalar) pv)).
    { rewrite <- Hlen. clear. induction pv as [|x pv IH]; [reflexivity|].
      simpl. f_equal. rewrite <- seq_shift, map_map. exact IH. }
    rewrite released_app, Hmap, released_deletes.
    change (released [Delete LastIterVector]) with [LastIterVector].
    change (released [Delete PreviousVectors; Delete AndersonCoeffs])
      with ([PreviousVectors] ++ [AndersonCoeffs]).
    change (released [Info SolutionDuration]) with (@nil block).
    rewrite app_nil_r. simpl app at 1. apply perm_skip.
    apply Permutation_trans
      with ((map PreviousVector (seq 0 (Z.to_nat (num_last_vectors_used cfg)))
             ++ [PreviousVectors]) ++ [AndersonCoeffs]).
    + rewrite <- app_assoc. apply Permutation_app_tail. now apply Permutation_map.
    + change (PreviousVectors
                :: map PreviousVector (seq 0 (Z.to_nat (num_last_vectors_used cfg)))
                ++ [AndersonCoeffs])
        with (([PreviousVectors]
                 ++ map PreviousVector (seq 0 (Z.to_nat (num_last_vectors_used cfg))))
              ++ [AndersonCoeffs]).
      apply Permutation_app_tail. apply Permutation_app_comm.
  - simpl. apply Permutation_refl.
Qed.

End TraceOfRelease.

Lemma setup_events_allocated (cfg : config) (had_sln : bool) :
  allocated (setup_events cfg had_sln) = per_solve_blocks cfg
  /\ released (setup_events cfg had_sln) = []
  /\ schemes (setup_events cfg had_sln) = []
  /\ assembles (setup_events cfg had_sln) = []
  /\ solves (setup_events cfg had_sln) = 0%nat.
Proof.
  unfold setup_events, per_solve_blocks.
  rewrite !allocated_app, !released_app, !schemes_app, !assembles_app, !solves_app.
  destruct (quiet_news (seq 0 (Z.to_nat (num_last_vectors_used cfg))))
    as (G1 & G2 & G3 & G4).
  destruct had_sln, (anderson_is_on cfg);
    rewrite ?allocated_app, ?released_app, ?schemes_app, ?assembles_app, ?solves_app,
            ?allocated_news, ?G1, ?G2, ?G3, ?G4; repeat split.
Qed.

Lemma per_solve_blocks_NoDup (cfg : config) : NoDup (per_solve_blocks cfg).
Proof.
  unfold per_solve_blocks. destruct (anderson_is_on cfg).
  - set (l := seq 0 (Z.to_nat (num_last_vectors_used cfg))).
    assert (Hl : NoDup (map PreviousVector l)).
    { assert (G : NoDup l) by apply seq_NoDup.
      induction G as [|i l' Hi Hl' IH]; simpl; constructor; [|assumption].
      intro Hin. apply in_map_iff in Hin. destruct Hin as (j & Hj & Hjl).
      inversion Hj; subst. contradiction. }
    assert (HnotIn : forall b, (forall i, b <> PreviousVector i) ->
                       ~ In b (map PreviousVector l)).
    { intros b Hb Hin. apply in_map_iff in Hin. destruct Hin as (i & Hi & _).
      now apply (Hb i). }
    constructor.
    + simpl. intros [Hc|Hc]; [discriminate|].
      apply in_app_or in Hc. destruct Hc as [Hc|[Hc|[]]]; [|discriminate].
      revert Hc. apply HnotIn. discriminate.
    + constructor.
      * intro Hc. apply in_app_or in Hc. destruct Hc as [Hc|[Hc|[]]]; [|discriminate].
        revert Hc. apply HnotIn. discriminate.
      * apply NoDup_app; [assumption | repeat constructor; intros [] |].
        intros b Hb [<-|[]]. revert Hb. apply HnotIn. discriminate.
  - repeat constructor. intros [].
Qed.

(** ** The parts of [solve], run *)

Section SolveRuns.
Context {World Scalar : Type} `{ScalarOps Scalar}.
Variable ext : externals World Scalar.
Variable cfg : config.
Implicit Types st : state World Scalar.

Lemma bind_Return {A B : Type} (c : M World Scalar A) (k : A -> M World Scalar B)
    st (a : A) st1 :
  c st = (Return a, st1) -> bind c k st = k a st1.
Proof. intro Hc. unfold bind. now rewrite Hc. Qed.

Lemma bind_Throw {A B : Type} (c : M World Scalar A) (k : A -> M World Scalar B)
    st (e : exn) st1 :
  c st = (Throw e, st1) -> bind c k st = (Throw e, st1).
Proof. intro Hc. unfold bind. now rewrite Hc. Qed.

Lemma assemble_step_run (v : list Scalar) st :
  exists w,
    assemble_step ext cfg v st
    = (Return tt,
       {| world := w; jacobian_reusable := true; sln_vector := sln_vector st;
          trace := trace st ++ assemble_events cfg (jacobian_reusable st) |}).
Proof.
  unfold assemble_step, assemble_events, bind, get_jacobian_reusable, get_world,
    put_world, emit, set_jacobian_reusable, log.
  destruct (jacobian_reusable st) eqn:Ej; [destruct (constant_jacobian cfg)|];
    simpl; rewrite <- ?app_assoc, ?Ej; simpl; eexists; reflexivity.
Qed.

Lemma linear_solve_step_run (ndof : Z) st :
  exists w,
    linear_solve_step ext ndof st
    = (Throw LinearMatrixSolverException,
       {| world := w; jacobian_reusable := jacobian_reusable st;
          sln_vector := sln_vector st; trace := trace st ++ [MatrixSolve] |})
    \/ exists sln,
         linear_solve_step ext ndof st
         = (Return sln,
            {| world := w; jacobian_reusable := jacobian_reusable st;
               sln_vector := Some sln; trace := trace st ++ [MatrixSolve] |}).
Proof.
  unfold linear_solve_step, bind, get_world, put_world, emit, sln_array,
    get_sln_vector, set_sln_vector, ret, throw, log.
  destruct (matrix_solver_solve ext (world st)) as [ok w]. exists w.
  destruct ok; simpl; [right; eexists; reflexivity | left; reflexivity].
Qed.

Lemma release_run (pv : list (slot Scalar)) st :
  release cfg pv st = (Return tt, log (release_events cfg pv) st).
Proof.
  unfold release, release_events, bind, emit.
  destruct (anderson_is_on cfg).
  - unfold bind. rewrite emit_all_run. unfold emit. rewrite !log_log.
    rewrite <- !app_assoc. reflexivity.
  - unfold ret. rewrite !log_log. reflexivity.
Qed.

Lemma anderson_step_run (ndof : Z) (pv : list (slot Scalar))
    (coeffs sln : list Scalar) st :
  exists tr,
    allocated tr = [] /\ released tr = [] /\ schemes tr = []
    /\ assembles tr = [] /\ solves tr = 0%nat
    /\ ((anderson_step ext cfg ndof pv coeffs sln st
         = (Throw AndersonNeedsTwoVectors, log tr st)
         /\ num_last_vectors_used cfg <= 1)
        \/ anderson_step ext cfg ndof pv coeffs sln st
           = (Throw LUException, log tr st)
        \/ exists c mixed,
             anderson_step ext cfg ndof pv coeffs sln st
             = (Return (c, mixed),
                {| world := world st; jacobian_reusable := jacobian_reusable st;
                   sln_vector := Some mixed; trace := trace st ++ tr |})).
Proof.
  unfold anderson_step.
  destruct (Z.le_gt_cases (num_last_vectors_used cfg) 1) as [H1|H1].
  - exists []. repeat split.
    left. split; [|assumption].
    unfold bind, calculate_anderson_coeffs.
    apply Z.leb_le in H1. rewrite H1. unfold throw. now rewrite log_nil.
  - destruct (Z.eq_dec (num_last_vectors_used cfg) 2) as [H2|H2].
    + exists []. repeat split. right. right.
      rewrite H2. unfold bind. rewrite calculate_anderson_coeffs_two.
      unfold set_sln_vector, ret. rewrite app_nil_r.
      eexists. eexists. reflexivity.
    + unfold bind.
      rewrite calculate_anderson_coeffs_general by lia. cbv zeta.
      destruct (anderson_system _ _ _) as [mat rhs].
      destruct (ludcmp ext mat _) as [[lu perm]|].
      * eexists. repeat split; [..|right; right; eexists; eexists; reflexivity];
          reflexivity.
      * eexists. repeat split; [..|right; left; reflexivity]; reflexivity.
Qed.

End SolveRuns.

Section IterationRuns.
Context {World Scalar : Type} `{ScalarOps Scalar}.
Variable ext : externals World Scalar.
Variable cfg : config.
Implicit Types st : state World Scalar.

Lemma history_push_bufs (ndof : nat) (pv : list (slot Scalar)) (vim : Z)
    (v : list Scalar) :
  1 <= num_last_vectors_used cfg ->
  Permutation (map (@slot_buf Scalar) pv)
              (seq 0 (Z.to_nat (num_last_vectors_used cfg))) ->
  Permutation
    (map (@slot_buf Scalar)
         (fst (history_push (num_last_vectors_used cfg) ndof pv vim v)))
    (seq 0 (Z.to_nat (num_last_vectors_used cfg))).
Proof.
  intros Hm Hbufs. unfold history_push.
  destruct (vim <? num_last_vectors_used cfg); simpl fst;
    rewrite memcpy_into_bufs; [assumption|].
  assert (Hlen : length pv = Z.to_nat (num_last_vectors_used cfg)).
  { apply Permutation_length in Hbufs. now rewrite length_map, length_seq in Hbufs. }
  rewrite shift_back_rotates by assumption.
  destruct pv as [|x rest]; [simpl in Hlen; lia|].
  simpl skipn. simpl firstn. rewrite map_app. simpl.
  rewrite <- Hbufs. simpl. apply Permutation_sym, Permutation_cons_append.
Qed.

Lemma info_run (b : bool) (m1 m2 : message) st :
  exists m,
    (if b then emit (Info m1) else emit (Info m2)) st = (Return tt, log [Info m] st).
Proof. destruct b; eexists; reflexivity. Qed.

Lemma iteration_run (ndof : Z) (l : locals) st (r : result iterate) st' :
  iteration ext cfg ndof l st = (r, st') ->
  exists tr,
    trace st' = trace st ++ tr
    /\ allocated tr = [] /\ released tr = []
    /\ schemes tr
       = [if jacobian_reusable st then reuse_scheme cfg
          else HERMES_FACTORIZE_FROM_SCRATCH]
    /\ assembles tr
       = [if jacobian_reusable st then negb (constant_jacobian cfg) else true]
    /\ solves tr = 1%nat
    /\ jacobian_reusable st' = true
    /\ match r with
       | Return res =>
           sln_vector st' = Some (new_sln res)
           /\ (buffers_ok cfg (previous_vectors l) ->
               buffers_ok cfg (new_previous_vectors res))
       | Throw e =>
           e = LinearMatrixSolverException
           \/ (e = AndersonNeedsTwoVectors
               /\ anderson_is_on cfg = true /\ num_last_vectors_used cfg <= 1)
           \/ e = LUException
       | OutOfFuel => False
       end.
Proof.
  intro Hrun. unfold iteration in Hrun.
  destruct (assemble_step_run ext cfg (last_iter_vector l) st) as [w Ha].
  rewrite (bind_Return _ _ _ _ _ Ha) in Hrun. clear Ha.
  destruct (assemble_events_quiet cfg (jacobian_reusable st)) as (Qa & Qr & Qs).
  pose proof (assemble_events_schemes cfg (jacobian_reusable st)) as Qsch.
  pose proof (assemble_events_assembles cfg (jacobian_reusable st)) as Qasm.
  set (ea := assemble_events cfg (jacobian_reusable st)) in *.
  match type of Hrun with bind _ _ ?s = _ => set (st1 := s) in * end.
  destruct (linear_solve_step_run ext ndof st1) as [w' [Hl|[sln Hl]]].
  - rewrite (bind_Throw _ _ _ _ _ Hl) in Hrun. inversion Hrun; subst; clear Hrun.
    exists (ea ++ [MatrixSolve]).
    rewrite allocated_app, released_app, schemes_app, assembles_app, solves_app.
    rewrite Qa, Qr, Qs, Qsch, Qasm. cbn [trace st1]. rewrite app_assoc.
    repeat (split; [reflexivity|]). now left.
  - rewrite (bind_Return _ _ _ _ _ Hl) in Hrun. clear Hl.
    match type of Hrun with _ ?s = _ => set (st2 := s) in * end.
    destruct (if anderson_is_on cfg
              then history_push (num_last_vectors_used cfg) (Z.to_nat ndof)
                     (previous_vectors l) (vec_in_memory l) sln
              else (previous_vectors l, vec_in_memory l)) as [pv vim] eqn:Eh.
    assert (Hpv : buffers_ok cfg (previous_vectors l) -> buffers_ok cfg pv).
    { intros Hbufs Hon. destruct (Hbufs Hon) as [Hm Hp]. split; [assumption|].
      rewrite Hon in Eh.
      replace pv with (fst (history_push (num_last_vectors_used cfg) (Z.to_nat ndof)
                              (previous_vectors l) (vec_in_memory l) sln))
        by (now rewrite Eh).
      now apply history_push_bufs. }
    destruct (anderson_is_on cfg && (num_last_vectors_used cfg <=? vim)) eqn:Ec.
    + apply andb_prop in Ec. destruct Ec as [Hon _].
      destruct (anderson_step_run ext cfg ndof pv (anderson_coeffs l) sln st2)
        as (tr & Ta & Tr & Tsch & Tasm & Ts & [[Hs Hm]|[Hs|(c & mixed & Hs)]]).
      * rewrite (bind_Throw _ _ _ _ _ Hs) in Hrun. inversion Hrun; subst; clear Hrun.
        exists (ea ++ [MatrixSolve] ++ tr).
        rewrite !allocated_app, !released_app, !schemes_app, !assembles_app,
          !solves_app.
        rewrite Qa, Qr, Qs, Qsch, Qasm, Ta, Tr, Tsch, Tasm, Ts.
        cbn [trace log st2 st1 jacobian_reusable sln_vector new_sln
             new_previous_vectors].
        rewrite <- !app_assoc.
        repeat (split; [reflexivity|]). right. left. repeat split; assumption.
      * rewrite (bind_Throw _ _ _ _ _ Hs) in Hrun. inversion Hrun; subst; clear Hrun.
        exists (ea ++ [MatrixSolve] ++ tr).
        rewrite !allocated_app, !released_app, !schemes_app, !assembles_app,
          !solves_app.
        rewrite Qa, Qr, Qs, Qsch, Qasm, Ta, Tr, Tsch, Tasm, Ts.
        cbn [trace log st2 st1 jacobian_reusable sln_vector new_sln
             new_previous_vectors].
        rewrite <- !app_assoc.
        repeat (split; [reflexivity|]). right. now right.
      * rewrite (bind_Return _ _ _ _ _ Hs) in Hrun. clear Hs.
        match type of Hrun with
        | bind (if ?b then emit (Info ?m1) else emit (Info ?m2)) _ ?s = _ =>
            destruct (info_run b m1 m2 s) as [m Hm]
        end.
        rewrite (bind_Return _ _ _ _ _ Hm) in Hrun. unfold ret in Hrun.
        inversion Hrun; subst; clear Hrun.
        exists (ea ++ [MatrixSolve] ++ tr ++ [Info m]).
        rewrite !allocated_app, !released_app, !schemes_app, !assembles_app,
          !solves_app.
        rewrite Qa, Qr, Qs, Qsch, Qasm, Ta, Tr, Tsch, Tasm, Ts.
        cbn [trace log st2 st1 jacobian_reusable sln_vector new_sln
             new_previous_vectors].
        rewrite <- !app_assoc.
        repeat (split; [reflexivity|]). exact Hpv.
    + unfold ret at 1 in Hrun. unfold bind at 1 in Hrun.
      match type of Hrun with
      | bind (if ?b then emit (Info ?m1) else emit (Info ?m2)) _ ?s = _ =>
          destruct (info_run b m1 m2 s) as [m Hm]
      end.
      rewrite (bind_Return _ _ _ _ _ Hm) in Hrun. unfold ret in Hrun.
      inversion Hrun; subst; clear Hrun.
      exists (ea ++ [MatrixSolve] ++ [Info m]).
      rewrite !allocated_app, !released_app, !schemes_app, !assembles_app,
        !solves_app.
      rewrite Qa, Qr, Qs, Qsch, Qasm.
      cbn [trace log st2 st1 jacobian_reusable sln_vector new_sln
           new_previous_vectors].
      rewrite <- !app_assoc.
      repeat (split; [reflexivity|]). exact Hpv.
Qed.

End IterationRuns.

Section LoopRuns.
Context {World Scalar : Type} `{ScalarOps Scalar}.
Variable ext : externals World Scalar.
Variable cfg : config.
Implicit Types st : state World Scalar.

Lemma expected_schemes_S (reusable : bool) (k : nat) :
  expected_schemes cfg reusable (S k)
  = [if reusable then reuse_scheme cfg else HERMES_FACTORIZE_FROM_SCRATCH]
    ++ expected_schemes cfg true k.
Proof. now rewrite expected_schemes_reusable. Qed.

Lemma expected_assembles_S (reusable : bool) (k : nat) :
  expected_assembles cfg reusable (S k)
  = [if reusable then negb (constant_jacobian cfg) else true]
    ++ expected_assembles cfg true k.
Proof. now rewrite expected_assembles_reusable. Qed.

(** The loop: it ends, it hands one scheme per iteration to the matrix
    solver, and it releases on its two exits and on no other. *)
Lemma picard_loop_run (ndof : Z) (fuel : nat) :
  forall (l : locals) st (r : result unit) st',
    picard_loop ext fuel cfg ndof l st = (r, st') ->
    buffers_ok cfg (previous_vectors l) ->
    (Z.to_nat (max_iter cfg - it l) < fuel)%nat ->
    exists tr,
      trace st' = trace st ++ tr
      /\ allocated tr = []
      /\ schemes tr = expected_schemes cfg (jacobian_reusable st) (solves tr)
      /\ assembles tr = expected_assembles cfg (jacobian_reusable st) (solves tr)
      /\ (1 <= solves tr)%nat
      /\ match r with
         | Return _ =>
             Permutation (released tr) (per_solve_blocks cfg)
             /\ sln_vector st' <> None
         | Throw MaxIterationsExceeded =>
             Permutation (released tr) (per_solve_blocks cfg)
             /\ sln_vector st' <> None
             /\ Z.of_nat (solves tr) = Z.max (it l) (max_iter cfg) - it l + 1
         | Throw e =>
             released tr = []
             /\ (e = AndersonNeedsTwoVectors ->
                 anderson_is_on cfg = true /\ num_last_vectors_used cfg <= 1)
             /\ e <> NotOkay /\ e <> BadNumberOfLastIterations
         | OutOfFuel => False
         end.
Proof.
  induction fuel as [|fuel IH]; intros l st r st' Hrun Hbufs Hfuel; [lia|].
  simpl in Hrun.
  destruct (iteration ext cfg ndof l st) as [ri st1] eqn:Ei.
  destruct (iteration_run ext cfg ndof l st ri st1 Ei)
    as (tr1 & Et1 & A1 & R1 & Sch1 & Asm1 & S1 & J1 & Hri).
  destruct ri as [res|e|].
  - rewrite (bind_Return _ _ _ _ _ Ei) in Hrun. destruct Hri as [Hsln Hbufs'].
    specialize (Hbufs' Hbufs).
    destruct (release_events_quiet cfg (new_previous_vectors res))
      as (Qa & Qsch & Qasm & Qs).
    pose proof (release_events_released cfg (new_previous_vectors res)
                  (fun Hon => proj2 (Hbufs' Hon))) as Qr.
    destruct (Binary64.ltb (new_rel_error res) (tol cfg)).
    + rewrite release_run in Hrun. inversion Hrun; subst; clear Hrun.
      exists (tr1 ++ release_events cfg (new_previous_vectors res)).
      rewrite allocated_app, schemes_app, assembles_app, solves_app, released_app.
      rewrite A1, R1, Sch1, Asm1, S1, Qa, Qsch, Qasm, Qs.
      cbn [trace log sln_vector]. rewrite Et1, <- app_assoc.
      repeat (split; [reflexivity || lia|]).
      split; [exact Qr | now rewrite Hsln].
    + destruct (max_iter cfg <=? it l) eqn:Emax.
      * apply Z.leb_le in Emax.
        rewrite (bind_Return _ _ _ _ _ (release_run cfg (new_previous_vectors res) st1))
          in Hrun.
        unfold throw in Hrun. inversion Hrun; subst; clear Hrun.
        exists (tr1 ++ release_events cfg (new_previous_vectors res)).
        rewrite allocated_app, schemes_app, assembles_app, solves_app, released_app.
        rewrite A1, R1, Sch1, Asm1, S1, Qa, Qsch, Qasm, Qs.
        cbn [trace log sln_vector]. rewrite Et1, <- app_assoc.
        repeat (split; [reflexivity || lia|]).
        split; [exact Qr|]. split; [now rewrite Hsln | simpl; lia].
      * apply Z.leb_gt in Emax.
        destruct (IH (next_locals ndof l res) st1 r st' Hrun Hbufs')
          as (tr2 & Et2 & A2 & Sch2 & Asm2 & S2 & Hr);
          [simpl; lia|].
        rewrite J1 in Sch2, Asm2.
        exists (tr1 ++ tr2).
        rewrite allocated_app, schemes_app, assembles_app, solves_app, released_app.
        rewrite A1, A2, R1, Sch1, Asm1, S1, Sch2, Asm2, Et2, Et1, <- app_assoc.
        change (1 + solves tr2)%nat with (S (solves tr2)).
        rewrite expected_schemes_S, expected_assembles_S.
        repeat (split; [reflexivity || lia|]).
        destruct r as [u|e|]; [exact Hr | | exact Hr].
        destruct e; try exact Hr.
        destruct Hr as (Hr1 & Hr2 & Hr3). repeat split; try assumption.
        simpl in Hr3. simpl app. lia.
  - rewrite (bind_Throw _ _ _ _ _ Ei) in Hrun. inversion Hrun; subst; clear Hrun.
    exists tr1. rewrite S1.
    repeat (split; [assumption || reflexivity || lia|]).
    destruct Hri as [He|[[He [Hon Hm]]|He]]; subst e; repeat split;
      try reflexivity; try assumption; try discriminate.
  - contradiction.
Qed.

End LoopRuns.

Section SolveRun.
Context {World Scalar : Type} `{ScalarOps Scalar}.
Variable ext : externals World Scalar.
Variable cfg : config.
Implicit Types st : state World Scalar.

(** Before the loop: the validation, then the allocations. *)
Lemma solve_unfold (coeff_vec : option (list Scalar)) st :
  solve ext cfg coeff_vec st
  = if negb (nonlinear_isOkay ext (world st)) then (Throw NotOkay, st)
    else if num_last_vectors_used cfg <? 1 then (Throw BadNumberOfLastIterations, st)
    else
      let ndof := get_num_dofs ext (world st) in
      picard_loop ext (iterations_bound cfg) cfg ndof
        (initial_locals cfg ndof (initial_sln ndof coeff_vec))
        (initial_state cfg ndof coeff_vec st).
Proof.
  unfold solve, init_solving, check, isOkay, bind, get_world.
  destruct (negb (nonlinear_isOkay ext (world st))); [reflexivity|].
  destruct (num_last_vectors_used cfg <? 1); [reflexivity|].
  unfold ret, get_sln_vector, sln_array, get_sln_vector, set_sln_vector, emit, bind,
    ret, initial_state, initial_locals, setup_events.
  cbv zeta.
  destruct (sln_vector st) as [old|]; cbn [log trace world jacobian_reusable sln_vector];
    destruct (anderson_is_on cfg); unfold bind, emit, ret;
    rewrite ?emit_all_run; unfold log;
    cbn [log trace world jacobian_reusable sln_vector];
    rewrite <- ?app_assoc; reflexivity.
Qed.

Lemma initial_buffers_ok (ndof : Z) (sln : list Scalar) :
  1 <= num_last_vectors_used cfg ->
  buffers_ok cfg (previous_vectors (initial_locals cfg ndof sln)).
Proof.
  intros Hm Hon. split; [assumption|].
  unfold initial_locals. cbn [previous_vectors]. rewrite Hon.
  rewrite memcpy_into_bufs. unfold allocate_previous_vectors.
  rewrite map_map. simpl. rewrite map_id. apply Permutation_refl.
Qed.

(** Every way [solve] can end, and what its calls were. *)
Lemma solve_run (coeff_vec : option (list Scalar)) st (r : result unit) st' :
  solve ext cfg coeff_vec st = (r, st') ->
  exists tr,
    trace st' = trace st ++ tr
    /\ schemes tr = expected_schemes cfg (jacobian_reusable st) (solves tr)
    /\ assembles tr = expected_assembles cfg (jacobian_reusable st) (solves tr)
    /\ match r with
       | Return _ =>
           allocated tr = per_solve_blocks cfg
           /\ Permutation (released tr) (per_solve_blocks cfg)
           /\ sln_vector st' <> None
           /\ (1 <= solves tr)%nat
       | Throw MaxIterationsExceeded =>
           allocated tr = per_solve_blocks cfg
           /\ Permutation (released tr) (per_solve_blocks cfg)
           /\ sln_vector st' <> None
           /\ Z.of_nat (solves tr) = Z.max 1 (max_iter cfg)
       | Throw NotOkay =>
           st' = st /\ tr = [] /\ nonlinear_isOkay ext (world st) = false
       | Throw BadNumberOfLastIterations =>
           st' = st /\ tr = [] /\ num_last_vectors_used cfg < 1
       | Throw e =>
           allocated tr = per_solve_blocks cfg
           /\ released tr = []
           /\ (1 <= solves tr)%nat
           /\ (e = AndersonNeedsTwoVectors ->
               anderson_is_on cfg = true /\ num_last_vectors_used cfg = 1)
       | OutOfFuel => False
       end.
Proof.
  rewrite solve_unfold.
  destruct (negb (nonlinear_isOkay ext (world st))) eqn:Eok.
  { intro Hrun. inversion Hrun; subst. exists []. rewrite app_nil_r.
    repeat split. now apply negb_true_iff in Eok. }
  destruct (num_last_vectors_used cfg <? 1) eqn:Em.
  { intro Hrun. inversion Hrun; subst. exists []. rewrite app_nil_r.
    repeat split. now apply Z.ltb_lt in Em. }
  apply Z.ltb_ge in Em. cbv zeta. intro Hrun.
  set (ndof := get_num_dofs ext (world st)) in *.
  destruct (picard_loop_run ext cfg ndof (iterations_bound cfg) _ _ _ _ Hrun)
    as (tr & Et & A & Sch & Asm & S1 & Hr).
  { now apply initial_buffers_ok. }
  { unfold iterations_bound, initial_locals. cbn [it]. lia. }
  set (had := match sln_vector st with Some _ => true | None => false end) in *.
  destruct (setup_events_allocated cfg had) as (Qa & Qr & Qsch & Qasm & Qs).
  exists (setup_events cfg had ++ tr).
  rewrite schemes_app, assembles_app, solves_app, allocated_app, released_app.
  rewrite Qa, Qr, Qsch, Qasm, Qs, A, app_nil_r. simpl app. simpl Nat.add.
  split; [rewrite Et; unfold initial_state; cbn [trace]; now rewrite app_assoc|].
  split; [exact Sch|]. split; [exact Asm|].
  destruct r as [u|e|]; [| |exact Hr].
  - destruct Hr as [Hr1 Hr2]. repeat split; assumption.
  - destruct e.
    + destruct Hr as (_ & _ & Hc & _). exfalso. now apply Hc.
    + destruct Hr as (_ & _ & _ & Hc). exfalso. now apply Hc.
    + destruct Hr as (Hr1 & Hr2 & _).
      repeat split; try assumption; try (destruct (Hr2 eq_refl); (assumption || lia)).
    + destruct Hr as (Hr1 & _). repeat split; try assumption; discriminate.
    + destruct Hr as (Hr1 & _). repeat split; try assumption; discriminate.
    + destruct Hr as (Hr1 & Hr2 & Hr3). repeat split; try assumption.
      unfold initial_locals in Hr3. cbn [it] in Hr3. lia.
Qed.

End SolveRun.

Section NewEvents.
Context {World Scalar : Type}.

Lemma new_events_app (st st' : state World Scalar) (tr : list event) :
  trace st' = trace st ++ tr -> new_events st st' = tr.
Proof.
  intro Ht. unfold new_events. rewrite Ht, skipn_app, skipn_all, Nat.sub_diag.
  reflexivity.
Qed.

End NewEvents.

(** C6, as the code has it.  The schemes handed to the matrix solver during
    one call of [solve], one per iteration: the first is
    [HERMES_FACTORIZE_FROM_SCRATCH], with matrix and residual assembled,
    when [solve] is entered with [jacobian_reusable] unset; with the flag
    set, the first iteration reuses like the later ones.  Every later
    iteration reuses the factorization completely and assembles the residual
    only when the jacobian is constant, and reuses the reordering and
    scaling and assembles both otherwise. *)
Theorem factorization_schemes
    {World Scalar : Type} `{ScalarOps Scalar} (ext : externals World Scalar)
    (cfg : config) (coeff_vec : option (list Scalar)) (st : state World Scalar) :
  let tr := new_events st (snd (solve ext cfg coeff_vec st)) in
  schemes tr = expected_schemes cfg (jacobian_reusable st) (solves tr)
  /\ assembles tr = expected_assembles cfg (jacobian_reusable st) (solves tr).
Proof.
  destruct (solve ext cfg coeff_vec st) as [r st'] eqn:Hrun.
  destruct (solve_run ext cfg coeff_vec st r st' Hrun) as (tr & Et & Sch & Asm & _).
  cbv zeta. simpl snd. rewrite (new_events_app st st' tr Et). now split.
Qed.

(** A second [solve] on the same solver: the first one converges and leaves
    [jacobian_reusable] set, and the first scheme of the second one is not
    [HERMES_FACTORIZE_FROM_SCRATCH]. *)
Lemma second_solve_reuses :
  let cfg := init_picard false in
  let first := solve affine_map cfg None (fresh_solver []) in
  let second := solve affine_map cfg None (snd first) in
  fst first = Return tt
  /\ jacobian_reusable (snd first) = true
  /\ hd_error (schemes (new_events (snd first) (snd second)))
     = Some HERMES_REUSE_MATRIX_REORDERING_AND_SCALING.
Proof. vm_compute. repeat split. Qed.

(** C4. When the iteration that reaches [max_iter] does not meet [tol], the
    loop raises [MaxIterationsExceeded] after the release of lines 364-375
    and leaves the iterate just computed in [sln_vector].  A [solve] that
    ends so has released each of its own allocations exactly once, has kept
    its solution vector, and has made [max (1, max_iter)] iterations: one
    when [max_iter = 1].  And [solve] always ends. *)
Theorem max_iterations_exceeded
    {World Scalar : Type} `{ScalarOps Scalar} (ext : externals World Scalar)
    (cfg : config) :
  (forall (ndof : Z) (fuel : nat) (l : locals) (st st1 : state World Scalar)
          (res : iterate),
      iteration ext cfg ndof l st = (Return res, st1) ->
      Binary64.ltb (new_rel_error res) (tol cfg) = false ->
      max_iter cfg <= it l ->
      picard_loop ext (S fuel) cfg ndof l st
      = (Throw MaxIterationsExceeded,
         log (release_events cfg (new_previous_vectors res)) st1)
      /\ sln_vector (log (release_events cfg (new_previous_vectors res)) st1)
         = Some (new_sln res))
  /\ (forall (coeff_vec : option (list Scalar)) (st st' : state World Scalar),
         solve ext cfg coeff_vec st = (Throw MaxIterationsExceeded, st') ->
         let tr := new_events st st' in
         allocated tr = per_solve_blocks cfg
         /\ NoDup (allocated tr)
         /\ Permutation (released tr) (allocated tr)
         /\ (exists sln, sln_vector st' = Some sln)
         /\ Z.of_nat (solves tr) = Z.max 1 (max_iter cfg)
         /\ (max_iter cfg = 1 -> solves tr = 1%nat))
  /\ (forall (coeff_vec : option (list Scalar)) (st : state World Scalar),
         fst (solve ext cfg coeff_vec st) <> OutOfFuel).
Proof.
  split; [|split].
  - intros ndof fuel l st st1 res Hit Hrel Hmax.
    destruct (iteration_run ext cfg ndof l st _ _ Hit) as (tr & _ & _ & _ & _ & _ & _ & _ & Hsln & _).
    split; [|exact Hsln].
    simpl. rewrite (bind_Return _ _ _ _ _ Hit), Hrel.
    apply Z.leb_le in Hmax. rewrite Hmax.
    now rewrite (bind_Return _ _ _ _ _ (release_run cfg (new_previous_vectors res) st1)).
  - intros coeff_vec st st' Hrun.
    destruct (solve_run ext cfg coeff_vec st _ st' Hrun)
      as (tr & Et & _ & _ & Ha & Hr & Hs & Hn).
    cbv zeta. rewrite (new_events_app st st' tr Et), Ha.
    split; [reflexivity|]. split; [apply per_solve_blocks_NoDup|].
    split; [assumption|]. split.
    + destruct (sln_vector st') as [sln|]; [now exists sln | congruence].
    + split; [assumption | lia].
  - intros coeff_vec st Hfuel.
    destruct (solve ext cfg coeff_vec st) as [r st'] eqn:Hrun.
    simpl in Hfuel. subst r.
    destruct (solve_run ext cfg coeff_vec st _ st' Hrun) as (tr & _ & _ & _ & []).
Qed.

(** Section 8: the scalar map, [tol = 1e-9] and [max_iter = 1].  [solve]
    raises [MaxIterationsExceeded] after one iteration, and the iterate 3.0
    is in [sln_vector]. *)
Lemma max_iterations_exceeded_witness :
  let cfg := set_picard_max_iter 1 (set_picard_tol (decimal 1 9) (init_picard false)) in
  let st' := {| world := [Binary64.zero];
                jacobian_reusable := true;
                sln_vector := Some [of_Z 3];
                trace := [New SlnVector; New LastIterVector; Assemble true;
                          SetFactorizationScheme HERMES_FACTORIZE_FROM_SCRATCH;
                          MatrixSolve; Info (StartingFromZeroVector 1);
                          Delete LastIterVector; Info SolutionDuration] |} in
  solve affine_map cfg None (fresh_solver []) = (Throw MaxIterationsExceeded, st')
  /\ solves (new_events (fresh_solver []) st') = 1%nat
  /\ Permutation (released (new_events (fresh_solver []) st'))
                 (allocated (new_events (fresh_solver []) st')).
Proof.
  cbv zeta.
  match goal with
  | |- ?run /\ _ => assert (Hrun : run) by (vm_compute; reflexivity)
  end.
  split; [exact Hrun|].
  destruct (proj1 (proj2 (max_iterations_exceeded affine_map _)) None _ _ Hrun)
    as (_ & _ & Hperm & _ & _ & Hone).
  split; [apply Hone; reflexivity | exact Hperm].
Defined.

(** C2, where the code departs from it.  When the matrix solver fails,
    [solve] raises [LinearMatrixSolverException] at line 276 with nothing
    released: every allocation it made for itself is still there. *)
Theorem linear_solve_failure_leaks
    {World Scalar : Type} `{ScalarOps Scalar} (ext : externals World Scalar)
    (cfg : config) (coeff_vec : option (list Scalar)) (st st' : state World Scalar) :
  solve ext cfg coeff_vec st = (Throw LinearMatrixSolverException, st') ->
  let tr := new_events st st' in
  allocated tr = per_solve_blocks cfg
  /\ released tr = []
  /\ In LastIterVector (allocated tr).
Proof.
  intro Hrun.
  destruct (solve_run ext cfg coeff_vec st _ st' Hrun) as (tr & Et & _ & _ & Ha & Hr & _).
  cbv zeta. rewrite (new_events_app st st' tr Et), Ha.
  split; [reflexivity|]. split; [assumption|]. now left.
Qed.

Lemma linear_solve_failure_leaks_witness :
  let cfg := use_Anderson_acceleration true (init_picard false) in
  let run := solve failing_solver cfg None (fresh_solver []) in
  fst run = Throw LinearMatrixSolverException
  /\ allocated (new_events (fresh_solver []) (snd run))
     = [LastIterVector; PreviousVectors; PreviousVector 0; PreviousVector 1;
        PreviousVector 2; AndersonCoeffs]
  /\ released (new_events (fresh_solver []) (snd run)) = [].
Proof.
  cbv zeta.
  set (cfg := use_Anderson_acceleration true (init_picard false)).
  destruct (solve failing_solver cfg None (fresh_solver [])) as [r st'] eqn:Hrun.
  assert (Hr : r = Throw LinearMatrixSolverException)
    by (apply (f_equal fst) in Hrun; vm_compute in Hrun; now symmetry).
  subst r.
  destruct (linear_solve_failure_leaks failing_solver cfg None _ _ Hrun)
    as (Ha & Hrel & _).
  simpl fst. simpl snd. split; [reflexivity|]. split; [exact Ha | exact Hrel].
Defined.

Section OneVector.
Context {World Scalar : Type} `{ScalarOps Scalar}.
Variable ext : externals World Scalar.
Variable cfg : config.

(** With Anderson on and one vector to use, the first iteration cannot
    come to its end. *)
Lemma iteration_one_vector (ndof : Z) (l : locals) (st st' : state World Scalar)
    (r : result iterate) :
  anderson_is_on cfg = true ->
  num_last_vectors_used cfg = 1 ->
  vec_in_memory l = 1 ->
  iteration ext cfg ndof l st = (r, st') ->
  r = Throw LinearMatrixSolverException \/ r = Throw AndersonNeedsTwoVectors.
Proof.
  intros Hon Hm Hvim Hrun. unfold iteration in Hrun.
  destruct (assemble_step_run ext cfg (last_iter_vector l) st) as [w Ha].
  rewrite (bind_Return _ _ _ _ _ Ha) in Hrun. clear Ha.
  match type of Hrun with bind _ _ ?s = _ => set (st1 := s) in * end.
  destruct (linear_solve_step_run ext ndof st1) as [w' [Hl|[sln Hl]]].
  - rewrite (bind_Throw _ _ _ _ _ Hl) in Hrun. inversion Hrun. now left.
  - rewrite (bind_Return _ _ _ _ _ Hl) in Hrun. clear Hl.
    rewrite Hon, Hm, Hvim in Hrun. unfold history_push in Hrun.
    change (1 <? 1) with false in Hrun. cbv iota zeta beta in Hrun.
    change (true && (1 <=? 1)) with true in Hrun. cbv iota in Hrun.
    unfold anderson_step, calculate_anderson_coeffs in Hrun.
    rewrite Hm in Hrun. change (1 <=? 1) with true in Hrun. cbv iota in Hrun.
    unfold bind, throw in Hrun. inversion Hrun. now right.
Qed.

End OneVector.

(** C3, as the code has it.  A history depth below one is refused when
    [solve] validates the solver, before anything is allocated, assembled or
    solved, and is never refused later.  A depth of one with Anderson on
    passes the validation: it is refused by [calculate_anderson_coeffs] in
    the first iteration, after the first linear system has been handed to
    the matrix solver; and this is the only way that refusal is raised. *)
Theorem configuration_errors
    {World Scalar : Type} `{ScalarOps Scalar} (ext : externals World Scalar)
    (cfg : config) (coeff_vec : option (list Scalar)) (st : state World Scalar) :
  (nonlinear_isOkay ext (world st) = true ->
   num_last_vectors_used cfg < 1 ->
   solve ext cfg coeff_vec st = (Throw BadNumberOfLastIterations, st))
  /\ (forall st',
        solve ext cfg coeff_vec st = (Throw BadNumberOfLastIterations, st') ->
        st' = st /\ num_last_vectors_used cfg < 1)
  /\ (forall st',
        solve ext cfg coeff_vec st = (Throw AndersonNeedsTwoVectors, st') ->
        anderson_is_on cfg = true /\ num_last_vectors_used cfg = 1
        /\ (1 <= solves (new_events st st'))%nat)
  /\ (nonlinear_isOkay ext (world st) = true ->
      anderson_is_on cfg = true ->
      num_last_vectors_used cfg = 1 ->
      (fst (solve ext cfg coeff_vec st) = Throw AndersonNeedsTwoVectors
       \/ fst (solve ext cfg coeff_vec st) = Throw LinearMatrixSolverException)
      /\ solves (new_events st (snd (solve ext cfg coeff_vec st))) = 1%nat).
Proof.
  split; [|split; [|split]].
  - intros Hok Hm. rewrite solve_unfold, Hok. simpl.
    apply Z.ltb_lt in Hm. now rewrite Hm.
  - intros st' Hrun.
    destruct (solve_run ext cfg coeff_vec st _ st' Hrun) as (tr & _ & _ & _ & Hst & _ & Hm).
    now split.
  - intros st' Hrun.
    destruct (solve_run ext cfg coeff_vec st _ st' Hrun)
      as (tr & Et & _ & _ & _ & _ & Hs & Hc).
    rewrite (new_events_app st st' tr Et).
    destruct (Hc eq_refl) as [Hon Hm]. repeat split; assumption.
  - intros Hok Hon Hm. rewrite solve_unfold, Hok. simpl negb. cbv iota.
    rewrite Hm. change (1 <? 1) with false. cbv iota zeta.
    set (ndof := get_num_dofs ext (world st)).
    unfold iterations_bound. simpl picard_loop.
    destruct (iteration ext cfg ndof
                (initial_locals cfg ndof (initial_sln ndof coeff_vec))
                (initial_state cfg ndof coeff_vec st)) as [ri st1] eqn:Ei.
    destruct (iteration_run ext cfg ndof _ _ _ _ Ei)
      as (tr1 & Et1 & _ & _ & _ & _ & S1 & _).
    assert (Hsolves : solves (new_events st st1) = 1%nat).
    { rewrite (new_events_app st st1
                 (setup_events cfg
                    match sln_vector st with Some _ => true | None => false end
                  ++ tr1)).
      - rewrite solves_app, S1.
        now destruct (setup_events_allocated cfg
                        match sln_vector st with Some _ => true | None => false end)
          as (_ & _ & _ & _ & ->).
      - rewrite Et1. unfold initial_state. cbn [trace]. now rewrite app_assoc. }
    destruct (iteration_one_vector ext cfg ndof
                (initial_locals cfg ndof (initial_sln ndof coeff_vec)) _ _ _
                Hon Hm eq_refl Ei) as [->| ->];
      rewrite (bind_Throw _ _ _ _ _ Ei); simpl fst; simpl snd;
      (split; [|exact Hsolves]); [now right | now left].
Qed.

Lemma configuration_errors_witness :
  let bad := set_num_last_vector_used 0 (init_picard false) in
  let one := set_num_last_vector_used 1
               (use_Anderson_acceleration true (init_picard false)) in
  solve affine_map bad None (fresh_solver [])
  = (Throw BadNumberOfLastIterations, fresh_solver [])
  /\ fst (solve affine_map one None (fresh_solver [])) = Throw AndersonNeedsTwoVectors
  /\ solves (new_events (fresh_solver []) (snd (solve affine_map one None (fresh_solver []))))
     = 1%nat.
Proof.
  cbv zeta. split.
  - apply (proj1 (configuration_errors affine_map
                    (set_num_last_vector_used 0 (init_picard false))
                    None (fresh_solver [])));
      [reflexivity | simpl; lia].
  - destruct (proj2 (proj2 (proj2
                (configuration_errors affine_map
                   (set_num_last_vector_used 1
                      (use_Anderson_acceleration true (init_picard false)))
                   None (fresh_solver []))))
                eq_refl eq_refl eq_refl) as [_ Hs].
    split; [vm_compute; reflexivity | exact Hs].
Defined.

(** Anderson on with one vector to use: the validation lets the solver
    through, and the refusal comes in the middle of [solve], after the
    matrix solver has solved one system. *)
Lemma anderson_refused_mid_solve :
  let cfg := set_num_last_vector_used 1
               (use_Anderson_acceleration true (init_picard false)) in
  let run := solve affine_map cfg None (fresh_solver []) in
  fst (check affine_map cfg (fresh_solver [])) = Return tt
  /\ fst run = Throw AndersonNeedsTwoVectors
  /\ In MatrixSolve (trace (snd run))
  /\ solves (trace (snd run)) = 1%nat.
Proof.
  cbv zeta. split; [reflexivity|]. split; [vm_compute; reflexivity|].
  split; [|vm_compute; reflexivity].
  vm_compute. repeat (first [left; reflexivity | right]).
Qed.

(** ** The relative error from a vector of norm zero *)

(** Not negative: the sign bit is clear, or the value is a NaN. *)
Lemma binary_round_aux_nonneg (m e : Z) (l : location) :
  match binary_round_aux prec emax false m e l with
  | S754_zero s | S754_infinity s | S754_finite s _ _ => s = false
  | S754_nan => True
  end.
Proof.
  unfold binary_round_aux.
  destruct (shr_fexp prec emax m e l) as [mrs' e'].
  destruct (shr_fexp prec emax _ e' loc_Exact) as [mrs'' e''].
  destruct (shr_m mrs''); [reflexivity | | exact I].
  destruct (e'' <=? emax - prec); reflexivity.
Qed.

Lemma add_nonneg (x y : double) :
  match x with
  | S754_zero s | S754_infinity s | S754_finite s _ _ => s = false
  | S754_nan => True
  end ->
  match y with
  | S754_zero s | S754_infinity s | S754_finite s _ _ => s = false
  | S754_nan => True
  end ->
  match Binary64.add x y with
  | S754_zero s | S754_infinity s | S754_finite s _ _ => s = false
  | S754_nan => True
  end.
Proof.
  destruct x as [sx|sx| |sx mx ex], y as [sy|sy| |sy my ey]; simpl;
    intros Hx Hy; subst; try reflexivity; try exact I.
  unfold binary_normalize, binary_round.
  destruct (shl_align mx ex (Z.min ex ey)) as [a ea].
  destruct (shl_align my ey (Z.min ex ey)) as [b eb]. simpl.
  destruct (shl_align (a + b) (Z.min ex ey) _) as [mz ez].
  apply binary_round_aux_nonneg.
Qed.

Lemma sqrt_nonneg (x : double) :
  match x with
  | S754_zero s | S754_infinity s | S754_finite s _ _ => s = false
  | S754_nan => True
  end ->
  match Binary64.sqrt x with
  | S754_zero s | S754_infinity s | S754_finite s _ _ => s = false
  | S754_nan => True
  end.
Proof.
  destruct x as [sx|sx| |sx mx ex]; simpl; intro Hx; subst; try reflexivity;
    try exact I.
  destruct (SFsqrt_core_binary prec emax (Z.pos mx) ex) as [[mz ez] lz].
  apply binary_round_aux_nonneg.
Qed.

Lemma sum_abs_nonneg (f : nat -> double) (n : nat) :
  match for_loop n (fun i acc => Binary64.add acc (Binary64.abs (f i))) Binary64.zero with
  | S754_zero s | S754_infinity s | S754_finite s _ _ => s = false
  | S754_nan => True
  end.
Proof.
  induction n as [|n IH]; [reflexivity|].
  rewrite for_loop_S. apply add_nonneg; [exact IH|].
  destruct (f n); simpl; trivial.
Qed.

Lemma ltb_infinity (y : double) : Binary64.ltb (S754_infinity false) y = false.
Proof. destruct y as [s|[|]| |s m e]; reflexivity. Qed.

(** C1, where the code departs from it.  When the norm of the previous
    iterate is zero, the relative error that line 343 compares with [tol] is
    a NaN or [+Infinity], and the comparison fails whatever [tol] is: the
    iteration is not taken as converged, also when the absolute error is
    zero. *)
Theorem relative_error_of_zero_norm
    (sln last_iter_vector : list double) (ndof : nat) (tol : double) :
  is_zero (last_iter_vec_norm last_iter_vector ndof) = true ->
  (rel_error sln last_iter_vector ndof = S754_nan
   \/ rel_error sln last_iter_vector ndof = S754_infinity false)
  /\ is_finite (rel_error sln last_iter_vector ndof) = false
  /\ Binary64.ltb (rel_error sln last_iter_vector ndof) tol = false.
Proof.
  intro Hzero.
  assert (Hn : last_iter_vec_norm last_iter_vector ndof = S754_zero false).
  { pose proof (sqrt_nonneg _
        (sum_abs_nonneg
           (fun i => s_mul (at1 last_iter_vector i) (at1 last_iter_vector i)) ndof))
      as Hs.
    unfold last_iter_vec_norm in *.
    destruct (Binary64.sqrt _) as [s| | |]; try discriminate Hzero. now subst s. }
  pose proof (sqrt_nonneg _
      (sum_abs_nonneg
         (fun i => s_mul (s_sub (at1 sln i) (at1 last_iter_vector i))
                         (s_sub (at1 sln i) (at1 last_iter_vector i))) ndof))
    as Ha.
  assert (Hrel : rel_error sln last_iter_vector ndof = S754_nan
                 \/ rel_error sln last_iter_vector ndof = S754_infinity false).
  { unfold rel_error. rewrite Hn. unfold abs_error in *.
    destruct (Binary64.sqrt _) as [s|s| |s m e]; simpl in *; subst; auto. }
  split; [exact Hrel|].
  destruct Hrel as [-> | ->]; split; try reflexivity.
  apply ltb_infinity.
Qed.

(** The default start: from the zero vector the candidate 3.0 has the
    relative error [+Infinity], and the candidate 0.0 has the relative error
    NaN. *)
Lemma relative_error_of_zero_norm_witness :
  rel_error [of_Z 3] [Binary64.zero] 1 = S754_infinity false
  /\ rel_error [Binary64.zero] [Binary64.zero] 1 = S754_nan
  /\ Binary64.ltb (rel_error [Binary64.zero] [Binary64.zero] 1) (decimal 1 4) = false.
Proof.
  split; [vm_compute; reflexivity|]. split; [vm_compute; reflexivity|].
  exact (proj2 (proj2 (relative_error_of_zero_norm
                         [Binary64.zero] [Binary64.zero] 1 (decimal 1 4) eq_refl))).
Defined.

(** * More of [solve] *)

(** ** The exits of [solve] *)

(** When an iteration meets [tol], the loop returns after the release of
    lines 345-353 and leaves the iterate in [sln_vector]; a [solve] that
    returns has released each of its own allocations exactly once, has kept
    its solution vector and has made at least one iteration. *)
Theorem converged_solve_releases
    {World Scalar : Type} `{ScalarOps Scalar} (ext : externals World Scalar)
    (cfg : config) :
  (forall (ndof : Z) (fuel : nat) (l : locals) (st st1 : state World Scalar)
          (res : iterate),
      iteration ext cfg ndof l st = (Return res, st1) ->
      Binary64.ltb (new_rel_error res) (tol cfg) = true ->
      picard_loop ext (S fuel) cfg ndof l st
      = (Return tt, log (release_events cfg (new_previous_vectors res)) st1)
      /\ sln_vector (log (release_events cfg (new_previous_vectors res)) st1)
         = Some (new_sln res))
  /\ (forall (coeff_vec : option (list Scalar)) (st st' : state World Scalar),
         solve ext cfg coeff_vec st = (Return tt, st') ->
         let tr := new_events st st' in
         allocated tr = per_solve_blocks cfg
         /\ NoDup (allocated tr)
         /\ Permutation (released tr) (allocated tr)
         /\ (exists sln, sln_vector st' = Some sln)
         /\ (1 <= solves tr)%nat).
Proof.
  split.
  - intros ndof fuel l st st1 res Hit Hrel.
    destruct (iteration_run ext cfg ndof l st _ _ Hit)
      as (tr & _ & _ & _ & _ & _ & _ & _ & Hsln & _).
    split; [|exact Hsln].
    simpl. rewrite (bind_Return _ _ _ _ _ Hit), Hrel.
    apply release_run.
  - intros coeff_vec st st' Hrun.
    destruct (solve_run ext cfg coeff_vec st _ st' Hrun)
      as (tr & Et & _ & _ & Ha & Hr & Hs & Hn).
    cbv zeta. rewrite (new_events_app st st' tr Et), Ha.
    split; [reflexivity|]. split; [apply per_solve_blocks_NoDup|].
    split; [assumption|]. split; [|assumption].
    destruct (sln_vector st') as [sln|]; [now exists sln | congruence].
Qed.

Lemma converged_solve_releases_witness :
  let cfg := use_Anderson_acceleration true (init_picard false) in
  let run := solve affine_map cfg (Some [of_Z 6]) (fresh_solver []) in
  fst run = Return tt
  /\ Permutation (released (new_events (fresh_solver []) (snd run)))
                 (allocated (new_events (fresh_solver []) (snd run)))
  /\ solves (new_events (fresh_solver []) (snd run)) = 1%nat.
Proof.
  cbv zeta.
  set (cfg := use_Anderson_acceleration true (init_picard false)).
  destruct (solve affine_map cfg (Some [of_Z 6]) (fresh_solver [])) as [r st'] eqn:Hrun.
  assert (Hr : r = Return tt)
    by (apply (f_equal fst) in Hrun; vm_compute in Hrun; now symmetry).
  subst r.
  assert (Hs : solves (new_events (fresh_solver []) st') = 1%nat)
    by (apply (f_equal snd) in Hrun; cbn [snd] in Hrun; rewrite <- Hrun;
        vm_compute; reflexivity).
  destruct (proj2 (converged_solve_releases affine_map cfg) _ _ _ Hrun)
    as (_ & _ & Hperm & _).
  cbn [fst snd]. split; [reflexivity|]. split; [exact Hperm | exact Hs].
Defined.

(** The two exceptions that come out of [calculate_anderson_coeffs] (its
    own at line 91, and the one of [ludcmp]) cross [solve] with nothing
    released, like the exception of the matrix solver. *)
Theorem coefficient_failure_leaks
    {World Scalar : Type} `{ScalarOps Scalar} (ext : externals World Scalar)
    (cfg : config) (coeff_vec : option (list Scalar)) (st st' : state World Scalar)
    (e : exn) :
  solve ext cfg coeff_vec st = (Throw e, st') ->
  e = AndersonNeedsTwoVectors \/ e = LUException ->
  let tr := new_events st st' in
  allocated tr = per_solve_blocks cfg
  /\ released tr = []
  /\ In LastIterVector (allocated tr)
  /\ (1 <= solves tr)%nat.
Proof.
  intros Hrun He.
  destruct (solve_run ext cfg coeff_vec st _ st' Hrun) as (tr & Et & _ & _ & Hr).
  cbv zeta. rewrite (new_events_app st st' tr Et).
  destruct He as [->| ->]; destruct Hr as (Ha & Hrel & Hs & _); rewrite Ha;
    repeat split; try assumption; now left.
Qed.

(** The history 3, 4.5, 6 of the scalar map has equal differences: the
    system of one equation is zero, [ludcmp] raises, and the arrays stay. *)
Lemma coefficient_failure_leaks_witness :
  let cfg := set_picard_tol (decimal 1 9)
               (use_Anderson_acceleration true (init_picard false)) in
  let run := solve affine_map cfg None (fresh_solver []) in
  fst run = Throw LUException
  /\ released (new_events (fresh_solver []) (snd run)) = []
  /\ allocated (new_events (fresh_solver []) (snd run))
     = [LastIterVector; PreviousVectors; PreviousVector 0; PreviousVector 1;
        PreviousVector 2; AndersonCoeffs].
Proof.
  cbv zeta.
  set (cfg := set_picard_tol (decimal 1 9)
                (use_Anderson_acceleration true (init_picard false))).
  destruct (solve affine_map cfg None (fresh_solver [])) as [r st'] eqn:Hrun.
  assert (Hr : r = Throw LUException)
    by (apply (f_equal fst) in Hrun; vm_compute in Hrun; now symmetry).
  subst r.
  destruct (coefficient_failure_leaks affine_map cfg None _ _ _ Hrun
              (or_intror eq_refl)) as (Ha & Hrel & _).
  cbn [fst snd]. split; [reflexivity|]. split; [exact Hrel | exact Ha].
Defined.

(** ** How many iterations, and the flag they leave *)

Section LoopCounts.
Context {World Scalar : Type} `{ScalarOps Scalar}.
Variable ext : externals World Scalar.
Variable cfg : config.
Implicit Types st : state World Scalar.

Lemma picard_loop_solves (ndof : Z) (fuel : nat) :
  forall (l : locals) st (r : result unit) st',
    picard_loop ext fuel cfg ndof l st = (r, st') ->
    exists tr,
      trace st' = trace st ++ tr
      /\ Z.of_nat (solves tr) <= Z.max (it l) (max_iter cfg) - it l + 1
      /\ (r <> OutOfFuel -> jacobian_reusable st' = true).
Proof.
  induction fuel as [|fuel IH]; intros l st r st' Hrun.
  - simpl in Hrun. inversion Hrun; subst. exists []. rewrite app_nil_r.
    split; [reflexivity|]. split; [simpl; lia | congruence].
  - simpl in Hrun.
    destruct (iteration ext cfg ndof l st) as [ri st1] eqn:Ei.
    destruct (iteration_run ext cfg ndof l st ri st1 Ei)
      as (tr1 & Et1 & _ & _ & _ & _ & S1 & J1 & Hri).
    destruct ri as [res|e|]; [| |contradiction].
    + rewrite (bind_Return _ _ _ _ _ Ei) in Hrun.
      destruct (release_events_quiet cfg (new_previous_vectors res))
        as (_ & _ & _ & Qs).
      destruct (Binary64.ltb (new_rel_error res) (tol cfg)).
      * rewrite release_run in Hrun. inversion Hrun; subst; clear Hrun.
        exists (tr1 ++ release_events cfg (new_previous_vectors res)).
        rewrite solves_app, S1, Qs. cbn [trace log jacobian_reusable].
        rewrite Et1, <- app_assoc. split; [reflexivity|]. split; [simpl; lia | auto].
      * destruct (max_iter cfg <=? it l) eqn:Emax.
        -- rewrite (bind_Return _ _ _ _ _
                      (release_run cfg (new_previous_vectors res) st1)) in Hrun.
           unfold throw in Hrun. inversion Hrun; subst; clear Hrun.
           exists (tr1 ++ release_events cfg (new_previous_vectors res)).
           rewrite solves_app, S1, Qs. cbn [trace log jacobian_reusable].
           rewrite Et1, <- app_assoc. split; [reflexivity|].
           split; [simpl; lia | auto].
        -- apply Z.leb_gt in Emax.
           destruct (IH (next_locals ndof l res) st1 r st' Hrun)
             as (tr2 & Et2 & S2 & J2).
           exists (tr1 ++ tr2). rewrite solves_app, S1, Et2, Et1, <- app_assoc.
           split; [reflexivity|]. split; [|exact J2].
           simpl in S2. lia.
    + rewrite (bind_Throw _ _ _ _ _ Ei) in Hrun. inversion Hrun; subst; clear Hrun.
      exists tr1. rewrite S1. split; [assumption|]. split; [simpl; lia | auto].
Qed.

End LoopCounts.

(** [solve] hands at most [max (1, max_iter)] linear systems to the matrix
    solver, and at least one as soon as the validation passes: also when
    [max_iter] is zero or negative. *)
Theorem solve_iterations_bounded
    {World Scalar : Type} `{ScalarOps Scalar} (ext : externals World Scalar)
    (cfg : config) (coeff_vec : option (list Scalar)) (st : state World Scalar) :
  let tr := new_events st (snd (solve ext cfg coeff_vec st)) in
  Z.of_nat (solves tr) <= Z.max 1 (max_iter cfg)
  /\ (nonlinear_isOkay ext (world st) = true ->
      1 <= num_last_vectors_used cfg ->
      (1 <= solves tr)%nat).
Proof.
  cbv zeta. split.
  - rewrite solve_unfold.
    destruct (negb _); [cbn [snd]; unfold new_events;
                        rewrite skipn_all; simpl; lia|].
    destruct (_ <? 1); [cbn [snd]; unfold new_events;
                        rewrite skipn_all; simpl; lia|].
    cbv zeta.
    set (ndof := get_num_dofs ext (world st)).
    destruct (picard_loop ext (iterations_bound cfg) cfg ndof _ _) as [r st'] eqn:Hrun.
    destruct (picard_loop_solves ext cfg ndof _ _ _ _ _ Hrun) as (tr & Et & Hs & _).
    cbn [snd].
    rewrite (new_events_app st st'
               (setup_events cfg
                  match sln_vector st with Some _ => true | None => false end ++ tr)).
    + rewrite solves_app.
      destruct (setup_events_allocated cfg
                  match sln_vector st with Some _ => true | None => false end)
        as (_ & _ & _ & _ & ->).
      unfold initial_locals in Hs. cbn [it] in Hs. simpl Nat.add. lia.
    + rewrite Et. unfold initial_state. cbn [trace]. now rewrite app_assoc.
  - intros Hok Hm.
    destruct (solve ext cfg coeff_vec st) as [r st'] eqn:Hrun.
    destruct (solve_run ext cfg coeff_vec st r st' Hrun) as (tr & Et & _ & _ & Hr).
    cbn [snd]. rewrite (new_events_app st st' tr Et).
    destruct r as [u|e|]; [now destruct Hr as (_ & _ & _ & ?) | | contradiction].
    destruct e.
    + destruct Hr as (_ & _ & Hc). congruence.
    + destruct Hr as (_ & _ & Hc). lia.
    + now destruct Hr as (_ & _ & ? & _).
    + now destruct Hr as (_ & _ & ? & _).
    + now destruct Hr as (_ & _ & ? & _).
    + destruct Hr as (_ & _ & _ & Hs). lia.
Qed.

Lemma solve_iterations_bounded_witness :
  let cfg := set_picard_max_iter 0 (init_picard false) in
  let tr := new_events (fresh_solver []) (snd (solve affine_map cfg None (fresh_solver []))) in
  solves tr = 1%nat.
Proof.
  cbv zeta.
  destruct (solve_iterations_bounded affine_map
              (set_picard_max_iter 0 (init_picard false)) None (fresh_solver []))
    as [Hle Hge].
  specialize (Hge eq_refl ltac:(simpl; lia)).
  simpl max_iter in Hle. lia.
Defined.

(** A [solve] that passes the validation leaves [jacobian_reusable] set,
    however it ends; so the next [solve] on the same solver never asks for
    a factorization from scratch.  A [solve] that fails the validation
    leaves the solver as it was. *)
Theorem solve_sets_jacobian_reusable
    {World Scalar : Type} `{ScalarOps Scalar} (ext : externals World Scalar)
    (cfg cfg' : config) (coeff_vec coeff_vec' : option (list Scalar))
    (st : state World Scalar) :
  let st1 := snd (solve ext cfg coeff_vec st) in
  (nonlinear_isOkay ext (world st) = true -> 1 <= num_last_vectors_used cfg ->
   jacobian_reusable st1 = true
   /\ let tr := new_events st1 (snd (solve ext cfg' coeff_vec' st1)) in
      schemes tr = repeat (reuse_scheme cfg') (solves tr))
  /\ (nonlinear_isOkay ext (world st) = false \/ num_last_vectors_used cfg < 1 ->
      st1 = st).
Proof.
  cbv zeta. split.
  - intros Hok Hm.
    assert (Hj : jacobian_reusable (snd (solve ext cfg coeff_vec st)) = true).
    { rewrite solve_unfold, Hok. cbn [negb].
      destruct (_ <? 1) eqn:E; [apply Z.ltb_lt in E; lia|]. cbv zeta.
      destruct (picard_loop ext _ cfg _ _ _) as [r st'] eqn:Hrun.
      destruct (picard_loop_solves ext cfg _ _ _ _ _ _ Hrun) as (tr & _ & _ & J).
      cbn [snd]. apply J. intros ->.
      destruct (picard_loop_run ext cfg _ _ _ _ _ _ Hrun) as (? & _ & _ & _ & _ & _ & []).
      - now apply initial_buffers_ok.
      - unfold iterations_bound, initial_locals. cbn [it]. lia. }
    split; [exact Hj|].
    set (st1 := snd (solve ext cfg coeff_vec st)) in *.
    destruct (solve ext cfg' coeff_vec' st1) as [r2 st2] eqn:Hrun2.
    destruct (solve_run ext cfg' coeff_vec' st1 r2 st2 Hrun2) as (tr & Et & Sch & _).
    cbn [snd]. rewrite (new_events_app st1 st2 tr Et), Sch, Hj.
    apply expected_schemes_reusable.
  - intros [Hok|Hm]; rewrite solve_unfold.
    + now rewrite Hok.
    + destruct (negb _); [reflexivity|].
      apply Z.ltb_lt in Hm. now rewrite Hm.
Qed.

Lemma solve_sets_jacobian_reusable_witness :
  let cfg := init_picard false in
  let st1 := snd (solve affine_map cfg None (fresh_solver [])) in
  jacobian_reusable st1 = true
  /\ schemes (new_events st1 (snd (solve affine_map cfg None st1)))
     = repeat HERMES_REUSE_MATRIX_REORDERING_AND_SCALING
         (solves (new_events st1 (snd (solve affine_map cfg None st1)))).
Proof.
  exact (proj1 (solve_sets_jacobian_reusable affine_map (init_picard false)
                  (init_picard false) None None (fresh_solver []))
           eq_refl ltac:(simpl; lia)).
Defined.

(** ** The shift of the pointers *)

(** The loop of lines 293-298 on a full memory of depth [m >= 1]: every
    pointer moves one place back and the oldest comes last, so no buffer is
    lost or doubled; and [m] shifts bring the memory back to where it
    was. *)
Theorem shift_back_is_rotation
    {Scalar : Type} `{ScalarOps Scalar} (pv : list (slot Scalar)) (m : Z) :
  length pv = Z.to_nat m ->
  1 <= m ->
  shift_back pv m = skipn 1 pv ++ firstn 1 pv
  /\ Permutation (shift_back pv m) pv
  /\ Nat.iter (Z.to_nat m) (fun p => shift_back p m) pv = pv.
Proof.
  intros Hlen Hm.
  split; [now apply shift_back_rotates|].
  split.
  - rewrite shift_back_rotates by assumption.
    rewrite <- (firstn_skipn 1 pv) at 3. apply Permutation_app_comm.
  - assert (G : forall k, (k <= length pv)%nat ->
              Nat.iter k (fun p => shift_back p m) pv = skipn k pv ++ firstn k pv).
    { induction k as [|k IH]; intro Hk.
      - simpl. now rewrite app_nil_r.
      - simpl Nat.iter. rewrite IH by lia.
        rewrite shift_back_rotates;
          [|rewrite length_app, length_skipn, length_firstn; lia | assumption].
        rewrite (skipn_nth_cons pv k null_slot) by lia.
        simpl skipn at 1. simpl firstn at 1.
        rewrite (firstn_S_nth pv k null_slot) by lia.
        now rewrite <- app_assoc. }
    rewrite <- Hlen, G by lia.
    now rewrite skipn_all, firstn_all.
Qed.

Lemma shift_back_is_rotation_witness :
  let pv := [ {| slot_buf := 0; slot_data := [of_Z 1] |};
              {| slot_buf := 1; slot_data := [of_Z 2] |};
              {| slot_buf := 2; slot_data := [of_Z 3] |} ] in
  shift_back pv 3
  = [ {| slot_buf := 1; slot_data := [of_Z 2] |};
      {| slot_buf := 2; slot_data := [of_Z 3] |};
      {| slot_buf := 0; slot_data := [of_Z 1] |} ]
  /\ Nat.iter 3 (fun p => shift_back p 3) pv = pv.
Proof.
  cbv zeta.
  destruct (shift_back_is_rotation
              [ {| slot_buf := 0%nat; slot_data := [of_Z 1] |};
                {| slot_buf := 1%nat; slot_data := [of_Z 2] |};
                {| slot_buf := 2%nat; slot_data := [of_Z 3] |} ] 3
              eq_refl ltac:(lia)) as (Hrot & _ & Hiter).
  split; [exact Hrot | exact Hiter].
Defined.

(** ** The matrix of the normal equations is symmetric *)

Lemma mul_comm (x y : double) : Binary64.mul x y = Binary64.mul y x.
Proof.
  destruct x as [sx|sx| |sx mx ex], y as [sy|sy| |sy my ey]; simpl;
    rewrite ?(xorb_comm sx sy); try reflexivity.
  now rewrite (Pos.mul_comm mx my), (Z.add_comm ex ey).
Qed.

(** The two entries of the matrix of [calculate_anderson_coeffs] across
    the diagonal, for [Scalar = double], in the model: the same sums of the
    same products, the factors of each product swapped. *)
Lemma mat_entry_swap (v : list (list double)) (n ndof i j : nat) :
  mat_entry v n ndof i j = mat_entry v n ndof j i.
Proof.
  unfold mat_entry. f_equal. unfold for_loop.
  generalize (@s_zero double _). generalize (seq 0 ndof).
  induction l as [|k l IH]; intro acc; [reflexivity|].
  simpl fold_left. rewrite IH. f_equal. f_equal. apply mul_comm.
Qed.

(** For [Scalar = double] the matrix that [calculate_anderson_coeffs]
    builds is symmetric, rounding included: [mat[i][j]] is a NaN exactly
    when [mat[j][i]] is one, and when they are no NaN they are the same
    [double]. *)
Theorem anderson_matrix_symmetric
    (v : list (list double)) (n ndof i j : nat) :
  (i < n)%nat -> (j < n)%nat ->
  let mat := fst (anderson_system v n ndof) in
  let a := nth j (nth i mat []) Binary64.zero in
  let b := nth i (nth j mat []) Binary64.zero in
  (a = S754_nan <-> b = S754_nan)
  /\ (a <> S754_nan -> a = b).
Proof.
  intros Hi Hj. cbv zeta. rewrite anderson_system_entries. cbn [fst].
  rewrite !(nth_map_seq (fun i => map (mat_entry v n ndof i) (seq 0 n))) by assumption.
  rewrite !nth_map_seq by assumption.
  rewrite (mat_entry_swap v n ndof j i).
  split; [reflexivity | intros _; reflexivity].
Qed.

Lemma anderson_matrix_symmetric_witness :
  let mat := fst (anderson_system
                    [[of_Z 0]; [of_Z 5]; [of_Z 7]; [of_Z 8]] 2 1) in
  nth 1 (nth 0 mat []) Binary64.zero <> S754_nan
  /\ nth 1 (nth 0 mat []) Binary64.zero = nth 0 (nth 1 mat []) Binary64.zero.
Proof.
  cbv zeta.
  assert (Hn : nth 1 (nth 0 (fst (anderson_system
                                    [[of_Z 0]; [of_Z 5]; [of_Z 7]; [of_Z 8]] 2 1)) [])
                 Binary64.zero <> S754_nan)
    by (vm_compute; discriminate).
  split; [exact Hn|].
  exact (proj2 (anderson_matrix_symmetric [[of_Z 0]; [of_Z 5]; [of_Z 7]; [of_Z 8]]
                  2 1 0 1 ltac:(lia) ltac:(lia)) Hn).
Defined.

(** ** The relative error, and the tolerance *)

Lemma sub_diag (x : double) : is_finite x = true -> Binary64.sub x x = Binary64.zero.
Proof.
  destruct x as [s|s| |s m e]; try discriminate; intros _.
  - now destruct s.
  - unfold Binary64.sub, SFsub. rewrite Z.sub_diag. reflexivity.
Qed.

Lemma div_nonneg (x y : double) :
  match x with
  | S754_zero s | S754_infinity s | S754_finite s _ _ => s = false
  | S754_nan => True
  end ->
  match y with
  | S754_zero s | S754_infinity s | S754_finite s _ _ => s = false
  | S754_nan => True
  end ->
  match Binary64.div x y with
  | S754_zero s | S754_infinity s | S754_finite s _ _ => s = false
  | S754_nan => True
  end.
Proof.
  destruct x as [sx|sx| |sx mx ex], y as [sy|sy| |sy my ey]; simpl;
    intros Hx Hy; subst; try reflexivity; try exact I.
  destruct (SFdiv_core_binary prec emax (Z.pos mx) ex (Z.pos my) ey) as [[mz ez] lz].
  apply binary_round_aux_nonneg.
Qed.

(** The relative error is never negative. *)
Lemma rel_error_nonneg (sln last_iter_vector : list double) (ndof : nat) :
  match rel_error sln last_iter_vector ndof with
  | S754_zero s | S754_infinity s | S754_finite s _ _ => s = false
  | S754_nan => True
  end.
Proof.
  unfold rel_error, abs_error, last_iter_vec_norm.
  apply div_nonneg; apply sqrt_nonneg.
  - apply (sum_abs_nonneg
             (fun i => s_mul (s_sub (at1 sln i) (at1 last_iter_vector i))
                             (s_sub (at1 sln i) (at1 last_iter_vector i)))).
  - apply (sum_abs_nonneg
             (fun i => s_mul (at1 last_iter_vector i) (at1 last_iter_vector i))).
Qed.

(** Nothing that is not negative is below a tolerance that is not
    positive. *)
Lemma ltb_nonneg_nonpositive (x tol : double) :
  match x with
  | S754_zero s | S754_infinity s | S754_finite s _ _ => s = false
  | S754_nan => True
  end ->
  Binary64.ltb Binary64.zero tol = false ->
  Binary64.ltb x tol = false.
Proof.
  destruct x as [sx|sx| |sx mx ex], tol as [st|st| |st mt et];
    intros Hx Ht; subst; try reflexivity;
    destruct st; try reflexivity; try discriminate Ht.
Qed.

(** When the new vector is the previous one, entry by entry, and the
    entries are finite, the absolute error is [+0.0]; the relative error is
    then [+0.0] too unless the norm of the previous vector is zero or a NaN,
    and the iteration meets every positive tolerance. *)
Theorem unchanged_iterate_converges
    (sln last_iter_vector : list double) (ndof : nat) (tol : double) :
  (forall i, (i < ndof)%nat ->
     at1 sln i = at1 last_iter_vector i
     /\ is_finite (at1 last_iter_vector i) = true) ->
  is_zero (last_iter_vec_norm last_iter_vector ndof) = false ->
  last_iter_vec_norm last_iter_vector ndof <> S754_nan ->
  abs_error sln last_iter_vector ndof = Binary64.zero
  /\ rel_error sln last_iter_vector ndof = Binary64.zero
  /\ (Binary64.ltb Binary64.zero tol = true ->
      Binary64.ltb (rel_error sln last_iter_vector ndof) tol = true).
Proof.
  intros Hsame Hnz Hnn.
  assert (Ha : abs_error sln last_iter_vector ndof = Binary64.zero).
  { unfold abs_error.
    assert (G : forall k, (k <= ndof)%nat ->
              for_loop k
                (fun i err =>
                   Binary64.add err
                     (s_abs (s_mul (s_sub (at1 sln i) (at1 last_iter_vector i))
                                   (s_sub (at1 sln i) (at1 last_iter_vector i)))))
                Binary64.zero = Binary64.zero).
    { induction k as [|k IH]; intro Hk; [reflexivity|].
      rewrite for_loop_S, IH by lia.
      destruct (Hsame k ltac:(lia)) as [-> Hfin].
      change (@s_sub double double_ScalarOps) with Binary64.sub.
      rewrite sub_diag by assumption. reflexivity. }
    rewrite G by lia. reflexivity. }
  assert (Hr : rel_error sln last_iter_vector ndof = Binary64.zero).
  { unfold rel_error. rewrite Ha.
    pose proof (sqrt_nonneg _
        (sum_abs_nonneg
           (fun i => s_mul (at1 last_iter_vector i) (at1 last_iter_vector i)) ndof))
      as Hs.
    unfold last_iter_vec_norm in *.
    destruct (Binary64.sqrt _) as [s|s| |s m e]; simpl in *; subst;
      try discriminate; try congruence; reflexivity. }
  split; [exact Ha|]. split; [exact Hr|].
  intro Htol. now rewrite Hr.
Qed.

Lemma unchanged_iterate_converges_witness :
  rel_error [of_Z 6] [of_Z 6] 1 = Binary64.zero
  /\ Binary64.ltb (rel_error [of_Z 6] [of_Z 6] 1) (decimal 1 4) = true.
Proof.
  destruct (unchanged_iterate_converges [of_Z 6] [of_Z 6] 1 (decimal 1 4))
    as (_ & Hr & Ht).
  - intros i Hi. assert (i = 0%nat) as -> by lia. split; reflexivity.
  - reflexivity.
  - discriminate.
  - split; [exact Hr | apply Ht; reflexivity].
Defined.

Section ErrorOfAnIteration.
Context {World Scalar : Type} `{ScalarOps Scalar}.
Variable ext : externals World Scalar.
Variable cfg : config.

(** The error an iteration reports is the one between the vector it
    leaves in [sln_vector] and the previous iterate. *)
Lemma iteration_rel_error (ndof : Z) (l : locals) (st st' : state World Scalar)
    (res : iterate) :
  iteration ext cfg ndof l st = (Return res, st') ->
  new_rel_error res
  = rel_error (new_sln res) (last_iter_vector l) (Z.to_nat ndof).
Proof.
  intro Hrun. unfold iteration in Hrun.
  destruct (assemble_step_run ext cfg (last_iter_vector l) st) as [w Ha].
  rewrite (bind_Return _ _ _ _ _ Ha) in Hrun. clear Ha.
  match type of Hrun with bind _ _ ?s = _ => set (st1 := s) in * end.
  destruct (linear_solve_step_run ext ndof st1) as [w' [Hl|[sln Hl]]].
  - rewrite (bind_Throw _ _ _ _ _ Hl) in Hrun. discriminate.
  - rewrite (bind_Return _ _ _ _ _ Hl) in Hrun. clear Hl.
    match type of Hrun with _ ?s = _ => set (st2 := s) in * end.
    destruct (if anderson_is_on cfg
              then history_push (num_last_vectors_used cfg) (Z.to_nat ndof)
                     (previous_vectors l) (vec_in_memory l) sln
              else (previous_vectors l, vec_in_memory l)) as [pv vim].
    destruct (anderson_is_on cfg && (num_last_vectors_used cfg <=? vim)).
    + destruct (anderson_step_run ext cfg ndof pv (anderson_coeffs l) sln st2)
        as (tr & _ & _ & _ & _ & _ & [[Hs _]|[Hs|(c & mixed & Hs)]]).
      * rewrite (bind_Throw _ _ _ _ _ Hs) in Hrun. discriminate.
      * rewrite (bind_Throw _ _ _ _ _ Hs) in Hrun. discriminate.
      * rewrite (bind_Return _ _ _ _ _ Hs) in Hrun. clear Hs.
        match type of Hrun with
        | bind (if ?b then emit (Info ?m1) else emit (Info ?m2)) _ ?s = _ =>
            destruct (info_run b m1 m2 s) as [m Hm]
        end.
        rewrite (bind_Return _ _ _ _ _ Hm) in Hrun. unfold ret in Hrun.
        inversion Hrun; subst. reflexivity.
    + unfold ret at 1 in Hrun. unfold bind at 1 in Hrun.
      match type of Hrun with
      | bind (if ?b then emit (Info ?m1) else emit (Info ?m2)) _ ?s = _ =>
          destruct (info_run b m1 m2 s) as [m Hm]
      end.
      rewrite (bind_Return _ _ _ _ _ Hm) in Hrun. unfold ret in Hrun.
      inversion Hrun; subst. reflexivity.
Qed.

End ErrorOfAnIteration.

(** [set_picard_tol] takes any [double].  With a tolerance that is not
    positive (zero, negative or a NaN) no iteration is ever taken as
    converged: [solve] cannot return and ends with an exception. *)
Theorem nonpositive_tolerance_never_converges
    {World : Type} (ext : externals World double) (cfg : config)
    (coeff_vec : option (list double)) (st : state World double) :
  Binary64.ltb Binary64.zero (tol cfg) = false ->
  exists e, fst (solve ext cfg coeff_vec st) = Throw e.
Proof.
  intro Htol.
  assert (G : forall ndof fuel l s r s',
            picard_loop ext fuel cfg ndof l s = (r, s') -> r <> Return tt).
  { intros ndof. induction fuel as [|fuel IH]; intros l s r s' Hrun.
    - simpl in Hrun. inversion Hrun. discriminate.
    - simpl in Hrun.
      destruct (iteration ext cfg ndof l s) as [ri s1] eqn:Ei.
      destruct ri as [res|e|].
      + rewrite (bind_Return _ _ _ _ _ Ei) in Hrun.
        rewrite (iteration_rel_error ext cfg ndof l s s1 res Ei) in Hrun.
        rewrite (ltb_nonneg_nonpositive _ _ (rel_error_nonneg _ _ _) Htol) in Hrun.
        destruct (max_iter cfg <=? it l).
        * rewrite (bind_Return _ _ _ _ _
                     (release_run cfg (new_previous_vectors res) s1)) in Hrun.
          inversion Hrun. discriminate.
        * eapply IH. exact Hrun.
      + rewrite (bind_Throw _ _ _ _ _ Ei) in Hrun. inversion Hrun. discriminate.
      + unfold bind in Hrun. rewrite Ei in Hrun. inversion Hrun. discriminate. }
  destruct (solve ext cfg coeff_vec st) as [r st'] eqn:Hrun.
  destruct (solve_run ext cfg coeff_vec st r st' Hrun) as (tr & _ & _ & _ & Hr).
  destruct r as [[]|e|]; [|now exists e|contradiction].
  exfalso. rewrite solve_unfold in Hrun.
  destruct (negb _); [discriminate|]. destruct (_ <? 1); [discriminate|].
  now apply (G _ _ _ _ _ _ Hrun).
Qed.

Lemma nonpositive_tolerance_never_converges_witness :
  exists e,
    fst (solve affine_map (set_picard_tol Binary64.zero (init_picard false))
           (Some [of_Z 6]) (fresh_solver []))
    = Throw e.
Proof.
  exact (nonpositive_tolerance_never_converges affine_map
           (set_picard_tol Binary64.zero (init_picard false))
           (Some [of_Z 6]) (fresh_solver []) eq_refl).
Defined.

(** ** What the trace of [solve] is made of *)

Lemma news_app (b : block) (a c : list event) :
  news b (a ++ c) = (news b a + news b c)%nat.
Proof. unfold news. now rewrite filter_app, length_app. Qed.

Lemma deletes_app (b : block) (a c : list event) :
  deletes b (a ++ c) = (deletes b a + deletes b c)%nat.
Proof. unfold deletes. now rewrite filter_app, length_app. Qed.

Lemma lu_calls_app (a c : list event) :
  lu_calls (a ++ c) = (lu_calls a + lu_calls c)%nat.
Proof. unfold lu_calls. now rewrite flat_map_app, length_app. Qed.

Section TraceShape.
Context {World Scalar : Type} `{ScalarOps Scalar}.
Variable ext : externals World Scalar.
Variable cfg : config.
Implicit Types st : state World Scalar.

Lemma anderson_step_trace (ndof : Z) (pv : list (slot Scalar))
    (coeffs sln : list Scalar) st (r : result (list Scalar * list Scalar)) st' :
  anderson_step ext cfg ndof pv coeffs sln st = (r, st') ->
  (exists tr,
     trace st' = trace st ++ tr
     /\ (tr = [] \/ tr = coeffs_events_solved \/ tr = coeffs_events_failed))
  /\ (sln_vector st <> None -> sln_vector st' <> None).
Proof.
  unfold anderson_step. intro Hrun.
  destruct (Z.le_gt_cases (num_last_vectors_used cfg) 1) as [H1|H1].
  - unfold bind, calculate_anderson_coeffs in Hrun.
    apply Z.leb_le in H1. rewrite H1 in Hrun. unfold throw in Hrun.
    inversion Hrun; subst. split; [|auto].
    exists []. rewrite app_nil_r. auto.
  - destruct (Z.eq_dec (num_last_vectors_used cfg) 2) as [H2|H2].
    + rewrite H2 in Hrun. unfold bind in Hrun.
      rewrite calculate_anderson_coeffs_two in Hrun.
      unfold set_sln_vector, ret in Hrun. inversion Hrun; subst. cbn.
      split; [|discriminate].
      exists []. rewrite app_nil_r. auto.
    + unfold bind in Hrun.
      rewrite calculate_anderson_coeffs_general in Hrun by lia. cbv zeta in Hrun.
      destruct (anderson_system _ _ _) as [mat rhs].
      destruct (ludcmp ext mat _) as [[lu perm]|].
      * unfold set_sln_vector, ret in Hrun. inversion Hrun; subst. cbn.
        split; [|discriminate]. exists coeffs_events_solved. auto.
      * inversion Hrun; subst. cbn. split; [|auto].
        exists coeffs_events_failed. auto.
Qed.

Lemma iteration_trace (ndof : Z) (l : locals) st (r : result iterate) st' :
  iteration ext cfg ndof l st = (r, st') ->
  (exists tr, trace st' = trace st ++ tr /\ @loop_trace Scalar cfg tr)
  /\ (sln_vector st <> None -> sln_vector st' <> None).
Proof.
  intro Hrun. unfold iteration in Hrun.
  destruct (assemble_step_run ext cfg (last_iter_vector l) st) as [w Ha].
  rewrite (bind_Return _ _ _ _ _ Ha) in Hrun. clear Ha.
  match type of Hrun with bind _ _ ?s = _ => set (st1 := s) in * end.
  assert (L1 : @loop_trace Scalar cfg
                 (assemble_events cfg (jacobian_reusable st) ++ [MatrixSolve]))
    by (apply loop_trace_app; [apply loop_trace_assemble | apply loop_trace_solve]).
  destruct (linear_solve_step_run ext ndof st1) as [w' [Hl|[sln Hl]]].
  - rewrite (bind_Throw _ _ _ _ _ Hl) in Hrun. inversion Hrun; subst; clear Hrun.
    cbn [trace sln_vector st1]. split; [|auto].
    eexists. rewrite <- app_assoc. split; [reflexivity | exact L1].
  - rewrite (bind_Return _ _ _ _ _ Hl) in Hrun. clear Hl.
    match type of Hrun with _ ?s = _ => set (st2 := s) in * end.
    destruct (if anderson_is_on cfg
              then history_push (num_last_vectors_used cfg) (Z.to_nat ndof)
                     (previous_vectors l) (vec_in_memory l) sln
              else (previous_vectors l, vec_in_memory l)) as [pv vim].
    destruct (anderson_is_on cfg && (num_last_vectors_used cfg <=? vim)).
    + destruct (anderson_step ext cfg ndof pv (anderson_coeffs l) sln st2)
        as [ra st3] eqn:Hs.
      destruct (anderson_step_trace ndof pv (anderson_coeffs l) sln st2 ra st3 Hs)
        as [(tr & Et & Htr) Hsln].
      assert (L2 : @loop_trace Scalar cfg tr)
        by (destruct Htr as [->|[->| ->]];
            [apply loop_trace_nil | apply loop_trace_coeffs_solved
            | apply loop_trace_coeffs_failed]).
      assert (Hsome : sln_vector st3 <> None) by (apply Hsln; discriminate).
      destruct ra as [[c mixed]|e|].
      * rewrite (bind_Return _ _ _ _ _ Hs) in Hrun.
        match type of Hrun with
        | bind (if ?b then emit (Info ?m1) else emit (Info ?m2)) _ ?s = _ =>
            destruct (info_run b m1 m2 s) as [m Hm]
        end.
        rewrite (bind_Return _ _ _ _ _ Hm) in Hrun. unfold ret in Hrun.
        inversion Hrun; subst; clear Hrun.
        cbn [trace log sln_vector]. split; [|auto].
        exists ((assemble_events cfg (jacobian_reusable st) ++ [MatrixSolve])
                ++ tr ++ [Info m]).
        split; [rewrite Et; cbn [trace st2 st1]; now rewrite <- !app_assoc|].
        apply loop_trace_app; [exact L1|].
        apply loop_trace_app; [exact L2 | apply loop_trace_info].
      * rewrite (bind_Throw _ _ _ _ _ Hs) in Hrun. inversion Hrun; subst; clear Hrun.
        split; [|auto].
        exists ((assemble_events cfg (jacobian_reusable st) ++ [MatrixSolve]) ++ tr).
        split; [rewrite Et; cbn [trace st2 st1]; now rewrite <- !app_assoc|].
        now apply loop_trace_app.
      * unfold bind in Hrun. rewrite Hs in Hrun. inversion Hrun; subst; clear Hrun.
        split; [|auto].
        exists ((assemble_events cfg (jacobian_reusable st) ++ [MatrixSolve]) ++ tr).
        split; [rewrite Et; cbn [trace st2 st1]; now rewrite <- !app_assoc|].
        now apply loop_trace_app.
    + unfold ret at 1 in Hrun. unfold bind at 1 in Hrun.
      match type of Hrun with
      | bind (if ?b then emit (Info ?m1) else emit (Info ?m2)) _ ?s = _ =>
          destruct (info_run b m1 m2 s) as [m Hm]
      end.
      rewrite (bind_Return _ _ _ _ _ Hm) in Hrun. unfold ret in Hrun.
      inversion Hrun; subst; clear Hrun.
      cbn [trace log sln_vector st2]. split; [|discriminate].
      exists ((assemble_events cfg (jacobian_reusable st) ++ [MatrixSolve])
              ++ [Info m]).
      split; [cbn [trace st1]; now rewrite <- !app_assoc|].
      apply loop_trace_app; [exact L1 | apply loop_trace_info].
Qed.

Lemma picard_loop_trace (ndof : Z) (fuel : nat) :
  forall (l : locals) st (r : result unit) st',
    picard_loop ext fuel cfg ndof l st = (r, st') ->
    (exists tr, trace st' = trace st ++ tr /\ @loop_trace Scalar cfg tr)
    /\ (sln_vector st <> None -> sln_vector st' <> None).
Proof.
  induction fuel as [|fuel IH]; intros l st r st' Hrun.
  - simpl in Hrun. inversion Hrun; subst. split; [|auto].
    exists []. rewrite app_nil_r. split; [reflexivity | apply loop_trace_nil].
  - simpl in Hrun.
    destruct (iteration ext cfg ndof l st) as [ri st1] eqn:Ei.
    destruct (iteration_trace ndof l st ri st1 Ei) as [(tr1 & Et1 & L1) Hs1].
    destruct ri as [res|e|].
    + rewrite (bind_Return _ _ _ _ _ Ei) in Hrun.
      destruct (Binary64.ltb (new_rel_error res) (tol cfg)).
      * rewrite release_run in Hrun. inversion Hrun; subst; clear Hrun.
        cbn [trace log sln_vector]. split; [|exact Hs1].
        exists (tr1 ++ release_events cfg (new_previous_vectors res)).
        split; [rewrite Et1; now rewrite <- app_assoc|].
        apply loop_trace_app; [exact L1 | apply loop_trace_release].
      * destruct (max_iter cfg <=? it l).
        -- rewrite (bind_Return _ _ _ _ _
                      (release_run cfg (new_previous_vectors res) st1)) in Hrun.
           unfold throw in Hrun. inversion Hrun; subst; clear Hrun.
           cbn [trace log sln_vector]. split; [|exact Hs1].
           exists (tr1 ++ release_events cfg (new_previous_vectors res)).
           split; [rewrite Et1; now rewrite <- app_assoc|].
           apply loop_trace_app; [exact L1 | apply loop_trace_release].
        -- destruct (IH (next_locals ndof l res) st1 r st' Hrun)
             as [(tr2 & Et2 & L2) Hs2].
           split; [|auto].
           exists (tr1 ++ tr2).
           split; [rewrite Et2, Et1; now rewrite <- app_assoc|].
           now apply loop_trace_app.
    + rewrite (bind_Throw _ _ _ _ _ Ei) in Hrun. inversion Hrun; subst; clear Hrun.
      split; [|exact Hs1]. now exists tr1.
    + unfold bind in Hrun. rewrite Ei in Hrun. inversion Hrun; subst; clear Hrun.
      split; [|exact Hs1]. now exists tr1.
Qed.

(** A [solve] that passes the validation: the allocations of lines
    196-235, then the loop. *)
Lemma solve_trace (coeff_vec : option (list Scalar)) st :
  nonlinear_isOkay ext (world st) = true ->
  1 <= num_last_vectors_used cfg ->
  (exists tr,
     new_events st (snd (solve ext cfg coeff_vec st))
     = setup_events cfg (match sln_vector st with Some _ => true | None => false end)
       ++ tr
     /\ @loop_trace Scalar cfg tr)
  /\ sln_vector (snd (solve ext cfg coeff_vec st)) <> None.
Proof.
  intros Hok Hm. rewrite solve_unfold, Hok. cbn [negb].
  destruct (_ <? 1) eqn:E; [apply Z.ltb_lt in E; lia|]. cbv zeta.
  destruct (picard_loop ext _ cfg _ _ _) as [r st'] eqn:Hrun.
  destruct (picard_loop_trace _ _ _ _ _ _ Hrun) as [(tr & Et & L) Hs].
  cbn [snd]. split.
  - exists tr. split; [|exact L].
    apply new_events_app. rewrite Et. unfold initial_state. cbn [trace].
    now rewrite app_assoc.
  - apply Hs. discriminate.
Qed.

End TraceShape.

Ltac count_events :=
  unfold news, deletes, lu_calls; simpl;
  repeat (destruct (block_eq_dec _ _)); simpl; try lia; congruence.

Section CountsOfATrace.
Context {Scalar : Type}.

Lemma release_events_counts (cfg : config) (pv : list (slot Scalar)) (b : block) :
  (forall i, b <> PreviousVector i) ->
  news b (release_events cfg pv) = 0%nat
  /\ deletes b (release_events cfg pv)
     = deletes b ([Delete LastIterVector]
                  ++ (if anderson_is_on cfg
                      then [Delete PreviousVectors; Delete AndersonCoeffs] else []))
  /\ lu_calls (release_events cfg pv) = 0%nat.
Proof.
  intro Hb. unfold release_events.
  rewrite !news_app, !deletes_app, !lu_calls_app.
  destruct (anderson_is_on cfg); [|repeat split; count_events].
  rewrite !news_app, !deletes_app, !lu_calls_app.
  assert (G : forall l : list nat,
            news b (map (fun i => Delete (PreviousVector
                       (slot_buf (nth i pv {| slot_buf := 0%nat; slot_data := [] |})))) l)
            = 0%nat
            /\ deletes b (map (fun i => Delete (PreviousVector
                       (slot_buf (nth i pv {| slot_buf := 0%nat; slot_data := [] |})))) l)
               = 0%nat
            /\ lu_calls (map (fun i => Delete (PreviousVector
                       (slot_buf (nth i pv {| slot_buf := 0%nat; slot_data := [] |})))) l)
               = 0%nat).
  { induction l as [|i l (IH1 & IH2 & IH3)]; [repeat split|].
    split; [exact IH1|]. split; [|exact IH3].
    unfold deletes in *. simpl.
    destruct (block_eq_dec b _) as [Heq|_]; [now apply Hb in Heq | exact IH2]. }
  destruct (G (seq 0 (Z.to_nat (num_last_vectors_used cfg)))) as (-> & -> & ->).
  repeat split; count_events.
Qed.

(** In the loop: one [perm] allocated per call of [ludcmp] and none
    deleted; the solution vector neither allocated nor deleted. *)
Lemma loop_trace_counts (cfg : config) (tr : list event) :
  @loop_trace Scalar cfg tr ->
  news CoeffsPerm tr = lu_calls tr
  /\ deletes CoeffsPerm tr = 0%nat
  /\ news CoeffsMat tr = lu_calls tr
  /\ news CoeffsRhs tr = lu_calls tr
  /\ deletes CoeffsMat tr = deletes CoeffsRhs tr
  /\ (deletes CoeffsMat tr <= lu_calls tr)%nat
  /\ news SlnVector tr = 0%nat
  /\ deletes SlnVector tr = 0%nat.
Proof.
  induction 1 as [|a b _ IHa _ IHb|reusable| | | |m|pv].
  - repeat split. reflexivity.
  - destruct IHa as (A1 & A2 & A3 & A4 & A5 & A6 & A7 & A8).
    destruct IHb as (B1 & B2 & B3 & B4 & B5 & B6 & B7 & B8).
    rewrite !news_app, !deletes_app, !lu_calls_app.
    repeat (split; [lia|]); lia.
  - unfold assemble_events.
    destruct reusable, (constant_jacobian cfg); repeat split; reflexivity.
  - repeat split. reflexivity.
  - repeat split. vm_compute. lia.
  - repeat split. vm_compute. lia.
  - repeat split. reflexivity.
  - destruct (release_events_counts cfg pv CoeffsPerm ltac:(discriminate))
      as (P1 & P2 & P3).
    destruct (release_events_counts cfg pv CoeffsMat ltac:(discriminate))
      as (M1 & M2 & _).
    destruct (release_events_counts cfg pv CoeffsRhs ltac:(discriminate))
      as (R1 & R2 & _).
    destruct (release_events_counts cfg pv SlnVector ltac:(discriminate))
      as (S1 & S2 & _).
    rewrite P1, P2, P3, M1, M2, R1, R2, S1, S2.
    destruct (anderson_is_on cfg); repeat split; vm_compute; lia.
Qed.

Lemma setup_events_counts (cfg : config) (had : bool) (b : block) :
  (forall i, b <> PreviousVector i) ->
  news b (setup_events cfg had)
  = news b ([New SlnVector; New LastIterVector]
            ++ (if anderson_is_on cfg
                then [New PreviousVectors; New AndersonCoeffs] else []))
  /\ deletes b (setup_events cfg had)
     = deletes b (if had then [Delete SlnVector] else [])
  /\ lu_calls (setup_events cfg had) = 0%nat.
Proof.
  intro Hb. unfold setup_events.
  rewrite !news_app, !deletes_app, !lu_calls_app.
  assert (G : forall l : list nat,
            news b (map (fun i => New (PreviousVector i)) l) = 0%nat
            /\ deletes b (map (fun i => New (PreviousVector i)) l) = 0%nat
            /\ lu_calls (map (fun i => New (PreviousVector i)) l) = 0%nat).
  { induction l as [|i l (IH1 & IH2 & IH3)]; [repeat split|].
    split; [|split; [exact IH2 | exact IH3]].
    unfold news in *. simpl.
    destruct (block_eq_dec b _) as [Heq|_]; [now apply Hb in Heq | exact IH1]. }
  destruct (G (seq 0 (Z.to_nat (num_last_vectors_used cfg)))) as (G1 & G2 & G3).
  destruct had, (anderson_is_on cfg);
    rewrite ?news_app, ?deletes_app, ?lu_calls_app, ?G1, ?G2, ?G3;
    repeat split; count_events.
Qed.

End CountsOfATrace.

(** Whatever [solve] does and however it ends: each call of [ludcmp] has
    its own [mat], [rhs] and [perm]; [mat] and [rhs] are deleted together,
    at most once per call; [perm] (line 139) is never deleted. *)
Theorem perm_is_never_deleted
    {World Scalar : Type} `{ScalarOps Scalar} (ext : externals World Scalar)
    (cfg : config) (coeff_vec : option (list Scalar)) (st : state World Scalar) :
  let tr := new_events st (snd (solve ext cfg coeff_vec st)) in
  news CoeffsPerm tr = lu_calls tr
  /\ deletes CoeffsPerm tr = 0%nat
  /\ news CoeffsMat tr = lu_calls tr
  /\ news CoeffsRhs tr = lu_calls tr
  /\ deletes CoeffsMat tr = deletes CoeffsRhs tr
  /\ (deletes CoeffsMat tr <= lu_calls tr)%nat.
Proof.
  cbv zeta.
  destruct (nonlinear_isOkay ext (world st)) eqn:Hok;
    [destruct (Z.le_gt_cases 1 (num_last_vectors_used cfg)) as [Hm|Hm]|].
  - destruct (solve_trace ext cfg coeff_vec st Hok Hm) as [(tr & -> & L) _].
    destruct (loop_trace_counts cfg tr L) as (A1 & A2 & A3 & A4 & A5 & A6 & _).
    set (had := match sln_vector st with Some _ => true | None => false end).
    destruct (setup_events_counts cfg had CoeffsPerm
                ltac:(discriminate)) as (P1 & P2 & P3).
    destruct (setup_events_counts cfg had CoeffsMat
                ltac:(discriminate)) as (M1 & M2 & _).
    destruct (setup_events_counts cfg had CoeffsRhs
                ltac:(discriminate)) as (R1 & R2 & _).
    rewrite !news_app, !deletes_app, !lu_calls_app.
    rewrite P1, P2, P3, M1, M2, R1, R2.
    destruct had, (anderson_is_on cfg); repeat split; simpl; lia.
  - rewrite solve_unfold, Hok. cbn [negb].
    apply Z.ltb_lt in Hm. rewrite Hm. cbn [snd].
    unfold new_events. rewrite skipn_all. repeat split. reflexivity.
  - rewrite solve_unfold, Hok. cbn [negb snd].
    unfold new_events. rewrite skipn_all. repeat split. reflexivity.
Qed.

(** A [solve] that passes the validation deletes the solution vector of
    an earlier [solve], if there is one, allocates its own once, and never
    deletes it: however [solve] ends, the solver owns one solution
    vector. *)
Theorem solution_vector_is_owned
    {World Scalar : Type} `{ScalarOps Scalar} (ext : externals World Scalar)
    (cfg : config) (coeff_vec : option (list Scalar)) (st : state World Scalar) :
  nonlinear_isOkay ext (world st) = true ->
  1 <= num_last_vectors_used cfg ->
  let st' := snd (solve ext cfg coeff_vec st) in
  let tr := new_events st st' in
  news SlnVector tr = 1%nat
  /\ deletes SlnVector tr = (match sln_vector st with Some _ => 1 | None => 0 end)%nat
  /\ hd_error tr = Some (match sln_vector st with
                         | Some _ => Delete SlnVector
                         | None => New SlnVector
                         end)
  /\ sln_vector st' <> None.
Proof.
  intros Hok Hm. cbv zeta.
  destruct (solve_trace ext cfg coeff_vec st Hok Hm) as [(tr & -> & L) Hs].
  destruct (loop_trace_counts cfg tr L) as (_ & _ & _ & _ & _ & _ & A7 & A8).
  set (had := match sln_vector st with Some _ => true | None => false end).
  destruct (setup_events_counts cfg had SlnVector
              ltac:(discriminate)) as (S1 & S2 & _).
  rewrite !news_app, !deletes_app, S1, S2, A7, A8.
  split; [destruct (anderson_is_on cfg); reflexivity|].
  split; [unfold had; destruct (sln_vector st); reflexivity|].
  split; [|exact Hs].
  unfold had, setup_events. destruct (sln_vector st); reflexivity.
Qed.

Lemma solution_vector_is_owned_witness :
  let cfg := init_picard false in
  let st1 := snd (solve affine_map cfg None (fresh_solver [])) in
  let tr := new_events st1 (snd (solve affine_map cfg None st1)) in
  news SlnVector tr = 1%nat /\ deletes SlnVector tr = 1%nat.
Proof.
  cbv zeta.
  destruct (solution_vector_is_owned affine_map (init_picard false) None
              (snd (solve affine_map (init_picard false) None (fresh_solver [])))
              eq_refl ltac:(simpl; lia)) as (Hn & Hd & _).
  split; [exact Hn|].
  rewrite Hd.
  destruct (solution_vector_is_owned affine_map (init_picard false) None
              (fresh_solver []) eq_refl ltac:(simpl; lia)) as (_ & _ & _ & Hs).
  destruct (sln_vector _); [reflexivity | congruence].
Defined.

(** ** When Anderson starts to mix *)

Section AndersonWarmUp.
Context {World Scalar : Type} `{ScalarOps Scalar}.
Variable ext : externals World Scalar.
Variable cfg : config.
Hypothesis Hon : anderson_is_on cfg = true.
Hypothesis Hm : 3 <= num_last_vectors_used cfg.
Implicit Types st : state World Scalar.

Lemma anderson_step_general (ndof : Z) (pv : list (slot Scalar))
    (coeffs sln : list Scalar) st (r : result (list Scalar * list Scalar)) st' :
  anderson_step ext cfg ndof pv coeffs sln st = (r, st') ->
  ((exists x, r = Return x) /\ trace st' = trace st ++ coeffs_events_solved)
  \/ (r = Throw LUException /\ trace st' = trace st ++ coeffs_events_failed).
Proof.
  unfold anderson_step, bind.
  rewrite calculate_anderson_coeffs_general by exact Hm. cbv zeta.
  destruct (anderson_system _ _ _) as [mat rhs].
  destruct (ludcmp ext mat _) as [[lu perm]|]; intro Hrun.
  - unfold set_sln_vector, ret in Hrun. inversion Hrun; subst. left.
    split; [eexists; reflexivity | reflexivity].
  - inversion Hrun; subst. right. split; reflexivity.
Qed.

Lemma assemble_events_lu_calls (reusable : bool) :
  lu_calls (assemble_events cfg reusable) = 0%nat.
Proof. unfold assemble_events. now destruct reusable, (constant_jacobian cfg). Qed.

(** One pass: the vector enters the memory, and the dense system is
    solved when the memory is full after that. *)
Lemma iteration_lu_calls (ndof : Z) (l : locals) st (r : result iterate) st' :
  iteration ext cfg ndof l st = (r, st') ->
  vec_in_memory l <= num_last_vectors_used cfg ->
  exists tr,
    trace st' = trace st ++ tr
    /\ (r = Throw LinearMatrixSolverException -> lu_calls tr = 0%nat)
    /\ (r <> Throw LinearMatrixSolverException ->
        lu_calls tr
        = if num_last_vectors_used cfg <=? vec_in_memory l + 1 then 1%nat else 0%nat)
    /\ (forall res, r = Return res ->
        new_vec_in_memory res
        = Z.min (vec_in_memory l + 1) (num_last_vectors_used cfg)).
Proof.
  intros Hrun Hvim. unfold iteration in Hrun. rewrite Hon in Hrun.
  destruct (assemble_step_run ext cfg (last_iter_vector l) st) as [w Ha].
  rewrite (bind_Return _ _ _ _ _ Ha) in Hrun. clear Ha.
  pose proof (assemble_events_lu_calls (jacobian_reusable st)) as Qa.
  set (ea := assemble_events cfg (jacobian_reusable st)) in *.
  match type of Hrun with bind _ _ ?s = _ => set (st1 := s) in * end.
  destruct (linear_solve_step_run ext ndof st1) as [w' [Hl|[sln Hl]]].
  - rewrite (bind_Throw _ _ _ _ _ Hl) in Hrun. inversion Hrun; subst; clear Hrun.
    exists (ea ++ [MatrixSolve]). cbn [trace st1]. rewrite <- app_assoc.
    split; [reflexivity|]. rewrite lu_calls_app, Qa.
    split; [reflexivity|]. split; [congruence | discriminate].
  - rewrite (bind_Return _ _ _ _ _ Hl) in Hrun. clear Hl.
    match type of Hrun with _ ?s = _ => set (st2 := s) in * end.
    destruct (history_push (num_last_vectors_used cfg) (Z.to_nat ndof)
                (previous_vectors l) (vec_in_memory l) sln) as [pv vim] eqn:Eh.
    assert (Hv : vim = Z.min (vec_in_memory l + 1) (num_last_vectors_used cfg)).
    { unfold history_push in Eh.
      destruct (vec_in_memory l <? num_last_vectors_used cfg) eqn:E;
        inversion Eh; subst; [apply Z.ltb_lt in E | apply Z.ltb_ge in E]; lia. }
    assert (Hc : (num_last_vectors_used cfg <=? vim)
                 = (num_last_vectors_used cfg <=? vec_in_memory l + 1)).
    { rewrite Hv.
      destruct (num_last_vectors_used cfg <=? vec_in_memory l + 1) eqn:E;
        [apply Z.leb_le in E; apply Z.leb_le | apply Z.leb_gt in E; apply Z.leb_gt];
        lia. }
    cbn [andb] in Hrun. rewrite Hc in Hrun.
    destruct (num_last_vectors_used cfg <=? vec_in_memory l + 1).
    + destruct (anderson_step ext cfg ndof pv (anderson_coeffs l) sln st2)
        as [ra st3] eqn:Hs.
      destruct (anderson_step_general ndof pv (anderson_coeffs l) sln st2 ra st3 Hs)
        as [[[[c mixed] ->] Et]|[-> Et]].
      * rewrite (bind_Return _ _ _ _ _ Hs) in Hrun.
        match type of Hrun with
        | bind (if ?b then emit (Info ?m1) else emit (Info ?m2)) _ ?s = _ =>
            destruct (info_run b m1 m2 s) as [m Hi]
        end.
        rewrite (bind_Return _ _ _ _ _ Hi) in Hrun. unfold ret in Hrun.
        inversion Hrun; subst r st'; clear Hrun.
        exists (ea ++ [MatrixSolve] ++ coeffs_events_solved ++ [Info m]).
        cbn [trace log]. rewrite Et. cbn [trace st2 st1].
        split; [now rewrite <- !app_assoc|].
        rewrite lu_calls_app, Qa.
        split; [discriminate|]. split; [reflexivity|].
        intros res Hres. inversion Hres; subst res. exact Hv.
      * rewrite (bind_Throw _ _ _ _ _ Hs) in Hrun.
        inversion Hrun; subst r st'; clear Hrun.
        exists (ea ++ [MatrixSolve] ++ coeffs_events_failed).
        rewrite Et. cbn [trace st2 st1].
        split; [now rewrite <- !app_assoc|].
        rewrite lu_calls_app, Qa.
        split; [discriminate|]. split; [reflexivity | discriminate].
    + unfold ret at 1 in Hrun. unfold bind at 1 in Hrun.
      match type of Hrun with
      | bind (if ?b then emit (Info ?m1) else emit (Info ?m2)) _ ?s = _ =>
          destruct (info_run b m1 m2 s) as [m Hi]
      end.
      rewrite (bind_Return _ _ _ _ _ Hi) in Hrun. unfold ret in Hrun.
      inversion Hrun; subst r st'; clear Hrun.
      exists (ea ++ [MatrixSolve] ++ [Info m]).
      cbn [trace log st2 st1].
      split; [now rewrite <- !app_assoc|].
      rewrite lu_calls_app, Qa.
      split; [discriminate|]. split; [reflexivity|].
      intros res Hres. inversion Hres; subst res. exact Hv.
Qed.

(** The iterations [it], [it + 1], ... of the loop: those from
    [num_last_vectors_used - 1] on solve the dense system, unless the
    linear solver has failed before. *)
Lemma picard_loop_lu_calls (ndof : Z) (fuel : nat) :
  forall (l : locals) st (r : result unit) st',
    picard_loop ext fuel cfg ndof l st = (r, st') ->
    1 <= it l ->
    vec_in_memory l = Z.min (it l) (num_last_vectors_used cfg) ->
    exists tr,
      trace st' = trace st ++ tr
      /\ (r = Throw LinearMatrixSolverException ->
          Z.of_nat (lu_calls tr)
          = Z.max 0 (it l + Z.of_nat (solves tr) - num_last_vectors_used cfg)
            - Z.max 0 (it l + 1 - num_last_vectors_used cfg))
      /\ (r <> Throw LinearMatrixSolverException ->
          Z.of_nat (lu_calls tr)
          = Z.max 0 (it l + Z.of_nat (solves tr) + 1 - num_last_vectors_used cfg)
            - Z.max 0 (it l + 1 - num_last_vectors_used cfg)).
Proof.
  induction fuel as [|fuel IH]; intros l st r st' Hrun Hit Hvim.
  - simpl in Hrun. inversion Hrun; subst. exists []. rewrite app_nil_r.
    split; [reflexivity|]. split; [discriminate|]. intros _. simpl. lia.
  - simpl in Hrun.
    destruct (iteration ext cfg ndof l st) as [ri st1] eqn:Ei.
    destruct (iteration_run ext cfg ndof l st ri st1 Ei)
      as (tr1 & Et1 & _ & _ & _ & _ & S1 & _ & Hri).
    destruct (iteration_lu_calls ndof l st ri st1 Ei ltac:(lia))
      as (tr1' & Et1' & Lf & Lo & Hv).
    assert (tr1' = tr1)
      by (apply (app_inv_head (trace st)); now rewrite <- Et1, <- Et1').
    subst tr1'. clear Et1'.
    assert (Hif : (if num_last_vectors_used cfg <=? vec_in_memory l + 1
                   then 1%nat else 0%nat)
                  = Z.to_nat (Z.max 0 (it l + 2 - num_last_vectors_used cfg)
                              - Z.max 0 (it l + 1 - num_last_vectors_used cfg))).
    { destruct (num_last_vectors_used cfg <=? vec_in_memory l + 1) eqn:E;
        [apply Z.leb_le in E | apply Z.leb_gt in E]; lia. }
    rewrite Hif in Lo. clear Hif.
    destruct ri as [res|e|]; [| |contradiction].
    + rewrite (bind_Return _ _ _ _ _ Ei) in Hrun.
      specialize (Lo ltac:(discriminate)). specialize (Hv res eq_refl).
      destruct (release_events_quiet cfg (new_previous_vectors res))
        as (_ & _ & _ & Qs).
      destruct (release_events_counts cfg (new_previous_vectors res) CoeffsPerm
                  ltac:(discriminate)) as (_ & _ & Ql).
      destruct (Binary64.ltb (new_rel_error res) (tol cfg)).
      * rewrite release_run in Hrun. inversion Hrun; subst r st'; clear Hrun.
        exists (tr1 ++ release_events cfg (new_previous_vectors res)).
        rewrite solves_app, lu_calls_app, S1, Qs, Ql, Lo. cbn [trace log].
        rewrite Et1, <- app_assoc. split; [reflexivity|].
        split; [discriminate|]. intros _. simpl Nat.add. lia.
      * destruct (max_iter cfg <=? it l).
        -- rewrite (bind_Return _ _ _ _ _
                      (release_run cfg (new_previous_vectors res) st1)) in Hrun.
           unfold throw in Hrun. inversion Hrun; subst r st'; clear Hrun.
           exists (tr1 ++ release_events cfg (new_previous_vectors res)).
           rewrite solves_app, lu_calls_app, S1, Qs, Ql, Lo. cbn [trace log].
           rewrite Et1, <- app_assoc. split; [reflexivity|].
           split; [discriminate|]. intros _. simpl Nat.add. lia.
        -- destruct (IH (next_locals ndof l res) st1 r st' Hrun)
             as (tr2 & Et2 & F2 & O2).
           { simpl. lia. }
           { simpl. rewrite Hv. lia. }
           exists (tr1 ++ tr2).
           rewrite solves_app, lu_calls_app, S1, Lo, Et2, Et1, <- app_assoc.
           split; [reflexivity|]. simpl it in F2, O2.
           split; intro Hr; [specialize (F2 Hr) | specialize (O2 Hr)]; lia.
    + rewrite (bind_Throw _ _ _ _ _ Ei) in Hrun.
      inversion Hrun; subst r st'; clear Hrun.
      exists tr1. rewrite S1. split; [assumption|].
      split; intro Hr.
      * inversion Hr; subst e. rewrite (Lf eq_refl). simpl. lia.
      * rewrite Lo by (intro Hc; apply Hr; inversion Hc; reflexivity).
        simpl Z.of_nat. lia.
Qed.

End AndersonWarmUp.

(** With Anderson on and [num_last_vectors_used >= 3], the dense system
    of [calculate_anderson_coeffs] is solved in every iteration from
    iteration [num_last_vectors_used - 1] on and in none before: the
    first [num_last_vectors_used - 2] iterations are plain Picard
    iterations.  An iteration in which the linear solver fails does not
    get there. *)
Theorem anderson_waits_for_the_memory
    {World Scalar : Type} `{ScalarOps Scalar} (ext : externals World Scalar)
    (cfg : config) (coeff_vec : option (list Scalar)) (st : state World Scalar) :
  nonlinear_isOkay ext (world st) = true ->
  anderson_is_on cfg = true ->
  3 <= num_last_vectors_used cfg ->
  let r := fst (solve ext cfg coeff_vec st) in
  let tr := new_events st (snd (solve ext cfg coeff_vec st)) in
  let iterations :=
    match r with
    | Throw LinearMatrixSolverException => Z.of_nat (solves tr) - 1
    | _ => Z.of_nat (solves tr)
    end in
  Z.of_nat (lu_calls tr)
  = Z.max 0 (iterations - (num_last_vectors_used cfg - 2)).
Proof.
  intros Hok Hon Hm. cbv zeta. rewrite solve_unfold, Hok. cbn [negb].
  destruct (_ <? 1) eqn:E; [apply Z.ltb_lt in E; lia|]. cbv zeta.
  set (ndof := get_num_dofs ext (world st)).
  destruct (picard_loop ext _ cfg ndof _ _) as [r st'] eqn:Hrun.
  destruct (picard_loop_lu_calls ext cfg Hon Hm ndof _ _ _ _ _ Hrun)
    as (tr & Et & Hf & Ho).
  { simpl. lia. }
  { simpl. lia. }
  cbn [fst snd]. simpl it in Hf, Ho.
  set (had := match sln_vector st with Some _ => true | None => false end).
  rewrite (new_events_app st st' (setup_events cfg had ++ tr))
    by (rewrite Et; unfold initial_state; cbn [trace]; now rewrite app_assoc).
  rewrite solves_app, lu_calls_app.
  destruct (setup_events_allocated cfg had) as (_ & _ & _ & _ & ->).
  destruct (setup_events_counts cfg had CoeffsPerm ltac:(discriminate))
    as (_ & _ & ->).
  simpl Nat.add.
  destruct r as [u|e|]; [rewrite Ho by discriminate; lia | |
                         rewrite Ho by discriminate; lia].
  destruct e; try (rewrite Ho by discriminate; lia).
  rewrite Hf by reflexivity. lia.
Qed.

(** The scalar map from the zero vector, three vectors remembered: of
    the three iterations, the second and the third solve the dense
    system. *)
Lemma anderson_waits_for_the_memory_witness :
  let cfg := set_picard_tol (decimal 1 9)
               (use_Anderson_acceleration true (init_picard false)) in
  let run := solve affine_map cfg None (fresh_solver []) in
  solves (new_events (fresh_solver []) (snd run)) = 3%nat
  /\ lu_calls (new_events (fresh_solver []) (snd run)) = 2%nat.
Proof.
  cbv zeta.
  set (cfg := set_picard_tol (decimal 1 9)
                (use_Anderson_acceleration true (init_picard false))).
  pose proof (anderson_waits_for_the_memory affine_map cfg None (fresh_solver [])
                eq_refl eq_refl ltac:(simpl; lia)) as Hw.
  cbv zeta in Hw.
  assert (Hr : fst (solve affine_map cfg None (fresh_solver [])) = Throw LUException)
    by (vm_compute; reflexivity).
  assert (Hs : solves (new_events (fresh_solver [])
                         (snd (solve affine_map cfg None (fresh_solver []))))
               = 3%nat)
    by (vm_compute; reflexivity).
  rewrite Hr, Hs in Hw. split; [exact Hs|].
  change (num_last_vectors_used cfg) with 3 in Hw. lia.
Defined.

(** ** With Anderson off *)

Section AndersonOff.
Context {World Scalar : Type} `{ScalarOps Scalar}.
Variable ext : externals World Scalar.
Variables cfg cfg' : config.
Hypothesis Hoff : anderson_is_on cfg = false.
Hypothesis Hoff' : anderson_is_on cfg' = false.
Hypothesis Htol : tol cfg' = tol cfg.
Hypothesis Hmax : max_iter cfg' = max_iter cfg.
Hypothesis Hjac : constant_jacobian cfg' = constant_jacobian cfg.
Implicit Types st : state World Scalar.

Lemma iteration_off (ndof : Z) (l : locals) st :
  iteration ext cfg' ndof l st = iteration ext cfg ndof l st.
Proof.
  unfold iteration, assemble_step. rewrite Hoff, Hoff', Hjac. reflexivity.
Qed.

Lemma release_off (pv : list (slot Scalar)) st :
  release cfg' pv st = release cfg pv st.
Proof. unfold release. rewrite Hoff, Hoff'. reflexivity. Qed.

Lemma picard_loop_off (ndof : Z) (fuel : nat) :
  forall (l : locals) st,
    picard_loop ext fuel cfg' ndof l st = picard_loop ext fuel cfg ndof l st.
Proof.
  induction fuel as [|fuel IH]; intros l st; [reflexivity|].
  simpl. unfold bind at 1 3. rewrite iteration_off.
  destruct (iteration ext cfg ndof l st) as [[res|e|] st1]; try reflexivity.
  rewrite Htol, Hmax.
  destruct (Binary64.ltb _ _); [apply release_off|].
  destruct (_ <=? _); [|apply IH].
  unfold bind. rewrite release_off. reflexivity.
Qed.

End AndersonOff.

(** With Anderson off, [solve] reads [picard_tol], [picard_max_iter] and
    [constant_jacobian], and nothing else of the configuration but the
    test of line 77: [anderson_beta] and [num_last_vectors_used] change
    neither the result, nor the solution vector, nor what is allocated. *)
Theorem anderson_off_ignores_its_parameters
    {World Scalar : Type} `{ScalarOps Scalar} (ext : externals World Scalar)
    (cfg cfg' : config) (coeff_vec : option (list Scalar)) (st : state World Scalar) :
  anderson_is_on cfg = false ->
  anderson_is_on cfg' = false ->
  tol cfg' = tol cfg ->
  max_iter cfg' = max_iter cfg ->
  constant_jacobian cfg' = constant_jacobian cfg ->
  1 <= num_last_vectors_used cfg ->
  1 <= num_last_vectors_used cfg' ->
  solve ext cfg' coeff_vec st = solve ext cfg coeff_vec st.
Proof.
  intros Hoff Hoff' Htol Hmax Hjac Hm Hm'.
  rewrite !solve_unfold.
  destruct (negb _); [reflexivity|].
  destruct (num_last_vectors_used cfg <? 1) eqn:E; [apply Z.ltb_lt in E; lia|].
  destruct (num_last_vectors_used cfg' <? 1) eqn:E'; [apply Z.ltb_lt in E'; lia|].
  cbv zeta.
  rewrite (picard_loop_off ext cfg cfg' Hoff Hoff' Htol Hmax Hjac).
  unfold iterations_bound, initial_locals, initial_state, setup_events.
  rewrite Hoff, Hoff', Hmax. reflexivity.
Qed.

Lemma anderson_off_ignores_its_parameters_witness :
  let cfg := init_picard false in
  solve affine_map
    (set_anderson_beta (decimal 5 1) (set_num_last_vector_used 7 cfg))
    None (fresh_solver [])
  = solve affine_map cfg None (fresh_solver []).
Proof.
  cbv zeta.
  apply (anderson_off_ignores_its_parameters affine_map (init_picard false)
           (set_anderson_beta (decimal 5 1)
              (set_num_last_vector_used 7 (init_picard false)))
           None (fresh_solver []));
    try reflexivity; simpl; lia.
Defined.

(** ** Two vectors, no relaxation: the whole of [solve] *)

Section TwoRuns.
Context {World Scalar : Type} `{ScalarOps Scalar}.
Variable ext : externals World Scalar.
Implicit Types st : state World Scalar.

Lemma same_solver_refl st : same_solver st st.
Proof. repeat split. Qed.

(** Events that are no call to a collaborator change nothing. *)
Lemma same_solver_log (tr1 tr2 : list event) st1 st2 :
  schemes tr1 = [] -> assembles tr1 = [] -> solves tr1 = 0%nat ->
  schemes tr2 = [] -> assembles tr2 = [] -> solves tr2 = 0%nat ->
  same_solver st1 st2 -> same_solver (log tr1 st1) (log tr2 st2).
Proof.
  intros S1 A1 N1 S2 A2 N2 (Hw & Hj & Hs & Hsch & Hasm & Hsol).
  unfold same_solver, log. cbn [world jacobian_reusable sln_vector trace].
  rewrite !schemes_app, !assembles_app, !solves_app, S1, A1, N1, S2, A2, N2,
    !app_nil_r, !Nat.add_0_r.
  repeat split; assumption.
Qed.

Lemma assemble_step_sim (cfg1 cfg2 : config) (v : list Scalar) st1 st2 :
  constant_jacobian cfg1 = constant_jacobian cfg2 ->
  same_solver st1 st2 ->
  exists st1' st2',
    assemble_step ext cfg1 v st1 = (Return tt, st1')
    /\ assemble_step ext cfg2 v st2 = (Return tt, st2')
    /\ same_solver st1' st2'
    /\ sln_vector st1' = sln_vector st1.
Proof.
  intros Hc (Hw & Hj & Hs & Hsch & Hasm & Hsol).
  destruct st1 as [w1 j1 s1 t1], st2 as [w2 j2 s2 t2].
  cbn [world jacobian_reusable sln_vector trace] in *. subst w2 j2 s2.
  unfold assemble_step, bind, get_jacobian_reusable, get_world,
    put_world, emit, set_jacobian_reusable, log.
  cbn [world jacobian_reusable sln_vector trace fst snd].
  rewrite <- Hc.
  destruct j1; [destruct (constant_jacobian cfg1)|];
    cbn [world jacobian_reusable sln_vector trace];
    eexists; eexists; (split; [reflexivity|]); (split; [reflexivity|]);
    unfold same_solver; cbn [world jacobian_reusable sln_vector trace];
    rewrite !schemes_app, !assembles_app, !solves_app, Hsch, Hasm, Hsol;
    repeat split; assumption.
Qed.

Lemma linear_solve_step_sim (ndof : Z) st1 st2 :
  same_solver st1 st2 ->
  (exists st1' st2',
     linear_solve_step ext ndof st1 = (Throw LinearMatrixSolverException, st1')
     /\ linear_solve_step ext ndof st2 = (Throw LinearMatrixSolverException, st2')
     /\ same_solver st1' st2')
  \/ (exists sln st1' st2',
        linear_solve_step ext ndof st1 = (Return sln, st1')
        /\ linear_solve_step ext ndof st2 = (Return sln, st2')
        /\ same_solver st1' st2'
        /\ sln_vector st1' = Some sln
        /\ sln = memcpy (match sln_vector st1 with Some a => a | None => [] end)
                   (matrix_solver_sln_vector ext (world st1')) (Z.to_nat ndof)).
Proof.
  intros (Hw & Hj & Hs & Hsch & Hasm & Hsol).
  destruct st1 as [w1 j1 s1 t1], st2 as [w2 j2 s2 t2].
  cbn [world jacobian_reusable sln_vector trace] in *. subst w2 j2 s2.
  unfold linear_solve_step, bind, get_world, put_world, emit, sln_array,
    get_sln_vector, set_sln_vector, ret, throw, log.
  cbn [world jacobian_reusable sln_vector trace fst snd].
  destruct (matrix_solver_solve ext w1) as [ok w].
  cbn [world jacobian_reusable sln_vector trace].
  destruct ok; cbn [negb world jacobian_reusable sln_vector trace].
  - right. eexists. eexists. eexists.
    split; [reflexivity|]. split; [reflexivity|].
    split; [|split; reflexivity].
    unfold same_solver; cbn [world jacobian_reusable sln_vector trace].
    rewrite !schemes_app, !assembles_app, !solves_app, Hsch, Hasm, Hsol.
    repeat split; assumption.
  - left. eexists. eexists.
    split; [reflexivity|]. split; [reflexivity|].
    unfold same_solver; cbn [world jacobian_reusable sln_vector trace].
    rewrite !schemes_app, !assembles_app, !solves_app, Hsch, Hasm, Hsol.
    repeat split; assumption.
Qed.

End TwoRuns.

Lemma add_zero_l_sign (y : double) :
  Binary64.add Binary64.zero y <> S754_zero true.
Proof. destruct y as [[|]|[|]| |s m e]; simpl; discriminate. Qed.

Lemma same_eq (a x : double) :
  same a x -> a <> S754_zero true -> x <> S754_zero true -> a = x.
Proof.
  intros [->|[Ha Hx]] Hna Hnx; [reflexivity|].
  destruct a as [[|]| | |]; try discriminate; try congruence.
  destruct x as [[|]| | |]; try discriminate; try congruence.
Qed.

(** One entry of the mixing with the coefficient [1.0] and [beta = 1.0]:
    [0 + (1.0 * x - ((1.0 - 1.0) * 1.0) * (x - u))] is [x] itself, unless
    [x - u] overflows or [x] is [-0.0]. *)
Lemma mix_two_exact (x u : double) :
  valid x = true -> x <> S754_zero true ->
  is_finite (Binary64.sub x u) = true ->
  Binary64.add Binary64.zero (mix_term Binary64.one Binary64.one x u) = x.
Proof.
  intros Hv Hx Hd.
  apply same_eq; [|apply add_zero_l_sign | assumption].
  eapply same_trans; [apply add_zero_l|].
  eapply same_trans; [apply mix_term_beta_one; [reflexivity | assumption]|].
  rewrite mul_one_l by assumption. apply same_refl.
Qed.

Section OlderVector.
Context {Scalar : Type} `{ScalarOps Scalar}.

(** With two buffers, the older vector after a push is the newest before
    it. *)
Lemma older_after_push (ndof : nat) (pv : list (slot Scalar)) (vim : Z)
    (v : list Scalar) :
  history_ok 2 ndof pv vim -> length v = ndof ->
  nth 0 (map (@slot_data Scalar) (fst (history_push 2 ndof pv vim v))) []
  = nth (Z.to_nat (vim - 1)) (map (@slot_data Scalar) pv) [].
Proof.
  intros (Hlen & Hvim & Hdata & Hbufs) Hv.
  destruct pv as [|x [|y [|z pv]]]; try (simpl in Hlen; lia).
  unfold history_push.
  destruct (vim <? 2) eqn:E.
  - apply Z.ltb_lt in E. assert (vim = 1) as -> by lia. reflexivity.
  - apply Z.ltb_ge in E. assert (vim = 2) as -> by lia. reflexivity.
Qed.

End OlderVector.

Section PlainPicard.
Context {World : Type}.
Variable ext : externals World double.
Variable cfg : config.
Hypothesis Hon : anderson_is_on cfg = true.
Hypothesis Hm : num_last_vectors_used cfg = 2.
Hypothesis Hbeta : anderson_beta cfg = Binary64.one.
Variable ndof : Z.
Hypothesis Hlen :
  forall w, (Z.to_nat ndof <= length (matrix_solver_sln_vector ext w))%nat.
Hypothesis Hval :
  forall w k, (k < Z.to_nat ndof)%nat ->
    valid (at1 (matrix_solver_sln_vector ext w) k) = true
    /\ at1 (matrix_solver_sln_vector ext w) k <> S754_zero true.
Hypothesis Hdiff :
  forall w w' k, (k < Z.to_nat ndof)%nat ->
    is_finite (Binary64.sub (at1 (matrix_solver_sln_vector ext w) k)
                            (at1 (matrix_solver_sln_vector ext w') k)) = true.
Implicit Types st : state World double.

(** The copy of line 278. *)
Lemma candidate_entries (old : list double) (w : World) :
  length old = Z.to_nat ndof ->
  let sln := memcpy old (matrix_solver_sln_vector ext w) (Z.to_nat ndof) in
  length sln = Z.to_nat ndof
  /\ forall k, (k < Z.to_nat ndof)%nat ->
       at1 sln k = at1 (matrix_solver_sln_vector ext w) k.
Proof.
  intros Hold. cbv zeta. unfold memcpy.
  rewrite (skipn_all2 old) by lia. rewrite app_nil_r.
  split; [apply firstn_length_le, Hlen|].
  intros k Hk. unfold at1. rewrite nth_firstn.
  apply Nat.ltb_lt in Hk. now rewrite Hk.
Qed.

(** Lines 304-319 with two vectors and [beta = 1.0]: the mixed vector is
    the candidate. *)
Lemma anderson_step_exact (pv : list (slot double)) (vim : Z)
    (coeffs sln : list double) st :
  history_ok 2 (Z.to_nat ndof) pv vim ->
  length coeffs = 1%nat ->
  length sln = Z.to_nat ndof ->
  (forall k, (k < Z.to_nat ndof)%nat ->
     valid (at1 sln k) = true
     /\ at1 sln k <> S754_zero true
     /\ is_finite
          (Binary64.sub (at1 sln k)
             (at1 (nth (Z.to_nat (vim - 1)) (map (@slot_data double) pv) []) k))
        = true) ->
  anderson_step ext cfg ndof (fst (history_push 2 (Z.to_nat ndof) pv vim sln))
    coeffs sln st
  = (Return ([Binary64.one], sln),
     {| world := world st; jacobian_reusable := jacobian_reusable st;
        sln_vector := Some sln; trace := trace st |}).
Proof.
  intros Hok Hc Hs Hent.
  destruct (history_push_newest 2 (Z.to_nat ndof) pv vim sln Hok Hs) as [Hnew Hvim'].
  pose proof (older_after_push (Z.to_nat ndof) pv vim sln Hok Hs) as Hold.
  assert (Hsnd : snd (history_push 2 (Z.to_nat ndof) pv vim sln) = 2)
    by (destruct Hok as (_ & ? & _); lia).
  rewrite Hsnd in Hnew. change (Z.to_nat (2 - 1)) with 1%nat in Hnew.
  set (h := history_push 2 (Z.to_nat ndof) pv vim sln) in *.
  unfold anderson_step. rewrite Hm, Hbeta.
  unfold bind. rewrite calculate_anderson_coeffs_two.
  destruct coeffs as [|c0 [|c1 coeffs]]; try discriminate Hc.
  simpl store. unfold set_sln_vector, ret.
  assert (Hmix : anderson_mix Binary64.one [Binary64.one]
                   (map (@slot_data double) (fst h)) 2 (Z.to_nat ndof) sln = sln).
  { rewrite anderson_mix_entries by lia.
    rewrite (skipn_all2 sln) by lia. rewrite app_nil_r.
    transitivity (map (at1 sln) (seq 0 (Z.to_nat ndof)));
      [|rewrite <- Hs; symmetry; apply map_at1].
    apply map_ext_in. intros k Hk. apply in_seq in Hk.
    change (seq 0 (Z.to_nat (2 - 1))) with [0%nat]. cbn [map fold_left].
    change (@at1 double double_ScalarOps [Binary64.one] 0) with Binary64.one.
    change (@s_add double double_ScalarOps) with Binary64.add.
    change (@s_zero double double_ScalarOps) with Binary64.zero.
    replace (at2 (map (@slot_data double) (fst h)) 1 k) with (at1 sln k)
      by (unfold at2, at1; now rewrite Hnew).
    replace (at2 (map (@slot_data double) (fst h)) 0 k)
      with (at1 (nth (Z.to_nat (vim - 1)) (map (@slot_data double) pv) []) k)
      by (unfold at2, at1; now rewrite Hold).
    destruct (Hent k ltac:(lia)) as (Hv & Hz & Hf).
    now apply mix_two_exact. }
  rewrite Hmix. reflexivity.
Qed.

Variable cfg' : config.
Hypothesis Hoff : anderson_is_on cfg' = false.
Hypothesis Hjac : constant_jacobian cfg' = constant_jacobian cfg.
Hypothesis Htol : tol cfg' = tol cfg.
Hypothesis Hmax : max_iter cfg' = max_iter cfg.

(** One pass of the loop, with Anderson and without. *)
Lemma iteration_sim (l1 l2 : locals) st1 st2 (old : list double) :
  same_solver st1 st2 ->
  sln_vector st1 = Some old -> length old = Z.to_nat ndof ->
  last_iter_vector l1 = last_iter_vector l2 ->
  it l1 = it l2 ->
  history_ok 2 (Z.to_nat ndof) (previous_vectors l1) (vec_in_memory l1) ->
  length (anderson_coeffs l1) = 1%nat ->
  (forall w k, (k < Z.to_nat ndof)%nat ->
     is_finite
       (Binary64.sub (at1 (matrix_solver_sln_vector ext w) k)
          (at1 (nth (Z.to_nat (vec_in_memory l1 - 1))
                    (map (@slot_data double) (previous_vectors l1)) []) k))
     = true) ->
  exists r1 r2 st1' st2',
    iteration ext cfg ndof l1 st1 = (r1, st1')
    /\ iteration ext cfg' ndof l2 st2 = (r2, st2')
    /\ same_solver st1' st2'
    /\ ((r1 = Throw LinearMatrixSolverException
         /\ r2 = Throw LinearMatrixSolverException)
        \/ exists res1 res2,
             r1 = Return res1 /\ r2 = Return res2
             /\ new_sln res1 = new_sln res2
             /\ new_rel_error res1 = new_rel_error res2
             /\ sln_vector st1' = Some (new_sln res1)
             /\ length (new_sln res1) = Z.to_nat ndof
             /\ history_ok 2 (Z.to_nat ndof)
                  (new_previous_vectors res1) (new_vec_in_memory res1)
             /\ length (new_anderson_coeffs res1) = 1%nat
             /\ forall w k, (k < Z.to_nat ndof)%nat ->
                  is_finite
                    (Binary64.sub (at1 (matrix_solver_sln_vector ext w) k)
                       (at1 (nth (Z.to_nat (new_vec_in_memory res1 - 1))
                                 (map (@slot_data double) (new_previous_vectors res1))
                                 []) k))
                  = true).
Proof.
  intros HR Hold Hlold Hliv Hit Hok Hc Hnear.
  destruct (iteration ext cfg ndof l1 st1) as [r1 st1'] eqn:I1.
  destruct (iteration ext cfg' ndof l2 st2) as [r2 st2'] eqn:I2.
  exists r1, r2, st1', st2'. split; [reflexivity|]. split; [reflexivity|].
  unfold iteration in I1, I2. rewrite Hon, Hm in I1. rewrite Hoff in I2.
  rewrite <- Hliv, <- Hit in I2.
  destruct (assemble_step_sim ext cfg cfg' (last_iter_vector l1) st1 st2
              (eq_sym Hjac) HR) as (a1 & a2 & E1 & E2 & HRa & Hsa).
  rewrite (bind_Return _ _ _ _ _ E1) in I1.
  rewrite (bind_Return _ _ _ _ _ E2) in I2. clear E1 E2.
  destruct (linear_solve_step_sim ext ndof a1 a2 HRa)
    as [(b1 & b2 & L1 & L2 & HRb)|(sln & b1 & b2 & L1 & L2 & HRb & Hsb & Hsln)].
  - rewrite (bind_Throw _ _ _ _ _ L1) in I1.
    rewrite (bind_Throw _ _ _ _ _ L2) in I2.
    inversion I1; inversion I2; subst. split; [exact HRb|]. left. split; reflexivity.
  - rewrite (bind_Return _ _ _ _ _ L1) in I1.
    rewrite (bind_Return _ _ _ _ _ L2) in I2. clear L1 L2.
    rewrite Hsa, Hold in Hsln.
    destruct (candidate_entries old (world b1) Hlold) as [Hls Hes].
    rewrite <- Hsln in Hls, Hes. clear Hsln.
    (* with Anderson *)
    destruct (history_push_ok 2 (Z.to_nat ndof) (previous_vectors l1)
                (vec_in_memory l1) sln Hok Hls) as [Hok' _].
    destruct (history_push_newest 2 (Z.to_nat ndof) (previous_vectors l1)
                (vec_in_memory l1) sln Hok Hls) as [Hnew Hvim'].
    assert (Hexact := anderson_step_exact (previous_vectors l1) (vec_in_memory l1)
                        (anderson_coeffs l1) sln b1 Hok Hc Hls).
    destruct (history_push 2 (Z.to_nat ndof) (previous_vectors l1)
                (vec_in_memory l1) sln) as [pv vim] eqn:Eh.
    cbn [fst snd] in Hok', Hnew, Hvim', Hexact.
    assert (Hv2 : vim = 2) by (destruct Hok as (_ & ? & _); lia).
    clear Hvim'. subst vim.
    change (Z.to_nat (2 - 1)) with 1%nat in Hnew.
    cbn [andb] in I1. change (2 <=? 2) with true in I1. cbv iota in I1.
    rewrite (bind_Return _ _ _ _ _
               (Hexact ltac:(intros k Hk; rewrite (Hes k Hk);
                             destruct (Hval (world b1) k Hk); auto))) in I1.
    clear Hexact.
    match type of I1 with
    | bind (if ?b then emit (Info ?m1) else emit (Info ?m2)) _ ?s = _ =>
        destruct (info_run b m1 m2 s) as [m Hi]
    end.
    rewrite (bind_Return _ _ _ _ _ Hi) in I1. unfold ret in I1. clear Hi.
    (* without *)
    cbn [andb] in I2. unfold ret at 1 in I2. unfold bind at 1 in I2.
    match type of I2 with
    | bind (if ?b then emit (Info ?m1) else emit (Info ?m2)) _ ?s = _ =>
        destruct (info_run b m1 m2 s) as [m' Hi]
    end.
    rewrite (bind_Return _ _ _ _ _ Hi) in I2. unfold ret in I2. clear Hi.
    inversion I1; inversion I2; subst r1 st1' r2 st2'; clear I1 I2.
    split.
    + apply same_solver_log; try reflexivity.
      destruct HRb as (Hw & Hj & Hs & Hsch & Hasm & Hsol).
      unfold same_solver. cbn [world jacobian_reusable sln_vector trace].
      rewrite <- Hs, Hsb. repeat split; assumption.
    + right. eexists. eexists.
      split; [reflexivity|]. split; [reflexivity|].
      cbn [new_sln new_rel_error new_previous_vectors new_vec_in_memory
           new_anderson_coeffs log sln_vector].
      split; [reflexivity|]. split; [reflexivity|]. split; [reflexivity|].
      split; [exact Hls|]. split; [exact Hok'|]. split; [reflexivity|].
      intros w k Hk. change (Z.to_nat (2 - 1)) with 1%nat. rewrite Hnew.
      rewrite (Hes k Hk). now apply Hdiff.
Qed.

Lemma picard_loop_sim (fuel : nat) :
  forall (l1 l2 : locals) st1 st2 (old : list double),
    same_solver st1 st2 ->
    sln_vector st1 = Some old -> length old = Z.to_nat ndof ->
    last_iter_vector l1 = last_iter_vector l2 ->
    it l1 = it l2 ->
    history_ok 2 (Z.to_nat ndof) (previous_vectors l1) (vec_in_memory l1) ->
    length (anderson_coeffs l1) = 1%nat ->
    (forall w k, (k < Z.to_nat ndof)%nat ->
       is_finite
         (Binary64.sub (at1 (matrix_solver_sln_vector ext w) k)
            (at1 (nth (Z.to_nat (vec_in_memory l1 - 1))
                      (map (@slot_data double) (previous_vectors l1)) []) k))
       = true) ->
    fst (picard_loop ext fuel cfg ndof l1 st1)
    = fst (picard_loop ext fuel cfg' ndof l2 st2)
    /\ same_solver (snd (picard_loop ext fuel cfg ndof l1 st1))
                   (snd (picard_loop ext fuel cfg' ndof l2 st2)).
Proof.
  induction fuel as [|fuel IH];
    intros l1 l2 st1 st2 old HR Hold Hlold Hliv Hit Hok Hc Hnear.
  - simpl. split; [reflexivity | exact HR].
  - destruct (iteration_sim l1 l2 st1 st2 old HR Hold Hlold Hliv Hit Hok Hc Hnear)
      as (r1 & r2 & a1 & a2 & I1 & I2 & HRa
          & [[-> ->]|(res1 & res2 & -> & -> & Hsln & Hrel & Hsa & Hla & Hoka & Hca
                      & Hneara)]).
    + simpl picard_loop.
      rewrite (bind_Throw _ _ _ _ _ I1), (bind_Throw _ _ _ _ _ I2).
      split; [reflexivity | exact HRa].
    + simpl picard_loop.
      rewrite (bind_Return _ _ _ _ _ I1), (bind_Return _ _ _ _ _ I2).
      rewrite Htol, Hmax, <- Hrel, <- Hit.
      assert (HRr : same_solver
                      (log (release_events cfg (new_previous_vectors res1)) a1)
                      (log (release_events cfg' (new_previous_vectors res2)) a2)).
      { destruct (release_events_quiet cfg (new_previous_vectors res1))
          as (_ & ? & ? & ?).
        destruct (release_events_quiet cfg' (new_previous_vectors res2))
          as (_ & ? & ? & ?).
        now apply same_solver_log. }
      destruct (Binary64.ltb (new_rel_error res1) (tol cfg)).
      * rewrite !release_run. split; [reflexivity | exact HRr].
      * destruct (max_iter cfg <=? it l1).
        -- rewrite (bind_Return _ _ _ _ _
                      (release_run cfg (new_previous_vectors res1) a1)).
           rewrite (bind_Return _ _ _ _ _
                      (release_run cfg' (new_previous_vectors res2) a2)).
           split; [reflexivity | exact HRr].
        -- apply (IH _ _ _ _ (new_sln res1)); try assumption.
           ++ unfold next_locals. cbn [last_iter_vector]. now rewrite Hliv, Hsln.
           ++ unfold next_locals. cbn [it]. now rewrite Hit.
Qed.

(** [solve] with Anderson, two vectors and [beta = 1.0], and [solve]
    without Anderson. *)
Lemma solve_sim (coeff_vec : option (list double)) st :
  ndof = get_num_dofs ext (world st) ->
  1 <= num_last_vectors_used cfg' ->
  length (initial_sln ndof coeff_vec) = Z.to_nat ndof ->
  (forall w k, (k < Z.to_nat ndof)%nat ->
     is_finite
       (Binary64.sub (at1 (matrix_solver_sln_vector ext w) k)
                     (at1 (initial_sln ndof coeff_vec) k)) = true) ->
  fst (solve ext cfg coeff_vec st) = fst (solve ext cfg' coeff_vec st)
  /\ same_solver (snd (solve ext cfg coeff_vec st)) (snd (solve ext cfg' coeff_vec st)).
Proof.
  intros Hndof Hm' Hl0 Hinit. rewrite !solve_unfold.
  destruct (negb (nonlinear_isOkay ext (world st)));
    [split; [reflexivity | apply same_solver_refl]|].
  rewrite Hm. change (2 <? 1) with false. cbv iota.
  destruct (num_last_vectors_used cfg' <? 1) eqn:E; [apply Z.ltb_lt in E; lia|].
  cbv zeta. rewrite <- Hndof.
  replace (iterations_bound cfg') with (iterations_bound cfg)
    by (unfold iterations_bound; now rewrite Hmax).
  destruct (initial_history_ok 2 (Z.to_nat ndof) (initial_sln ndof coeff_vec)
              ltac:(lia) Hl0) as [Hok Hst].
  apply (picard_loop_sim _ _ _ _ _ (initial_sln ndof coeff_vec)).
  - set (had := match sln_vector st with Some _ => true | None => false end).
    destruct (setup_events_allocated cfg had) as (_ & _ & S1 & A1 & N1).
    destruct (setup_events_allocated cfg' had) as (_ & _ & S2 & A2 & N2).
    unfold same_solver, initial_state.
    cbn [world jacobian_reusable sln_vector trace]. fold had.
    rewrite !schemes_app, !assembles_app, !solves_app, S1, A1, N1, S2, A2, N2.
    repeat split.
  - reflexivity.
  - exact Hl0.
  - reflexivity.
  - reflexivity.
  - unfold initial_locals. cbn [previous_vectors vec_in_memory].
    rewrite Hon, Hm. exact Hok.
  - unfold initial_locals. cbn [anderson_coeffs]. rewrite Hon, Hm. reflexivity.
  - unfold initial_locals. cbn [previous_vectors vec_in_memory].
    rewrite Hon, Hm. change (Z.to_nat (1 - 1)) with 0%nat.
    unfold stored in Hst. change (Z.to_nat 1) with 1%nat in Hst.
    destruct (map (@slot_data double) _) as [|d ds]; [discriminate Hst|].
    simpl in Hst. inversion Hst. exact Hinit.
Qed.

End PlainPicard.

(** C10, as the code has it.  With two vectors in the memory and
    [beta = 1.0], for [Scalar = double].  In one mixing step the single
    coefficient is [1.0], nothing is called, and wherever the new vector
    minus the older one is finite, the entry of the mixed vector is the
    entry of the new vector, up to the sign of a zero.  For the whole of
    [solve]: when the vectors of the matrix solver hold no [-0.0] and
    differ from each other and from the initial vector by finite amounts,
    [solve] ends as it ends with Anderson switched off, with the same
    solution vector, the same collaborators and the same calls to the
    assembler and to the matrix solver. *)
Theorem anderson_two_vectors_identity
    {World : Type} (ext : externals World double) (cfg : config) :
  num_last_vectors_used cfg = 2 ->
  anderson_beta cfg = Binary64.one ->
  (forall (ndof : Z) (pv : list (slot double)) (vim : Z) (coeffs sln : list double)
          (st : state World double),
      history_ok 2 (Z.to_nat ndof) pv vim ->
      length coeffs = 1%nat ->
      length sln = Z.to_nat ndof ->
      let h := history_push 2 (Z.to_nat ndof) pv vim sln in
      let older := nth 0 (map (@slot_data double) (fst h)) [] in
      exists mixed st',
        anderson_step ext cfg ndof (fst h) coeffs sln st
        = (Return ([Binary64.one], mixed), st')
        /\ sln_vector st' = Some mixed
        /\ trace st' = trace st
        /\ forall k, (k < Z.to_nat ndof)%nat ->
             valid (at1 sln k) = true ->
             is_finite (Binary64.sub (at1 sln k) (at1 older k)) = true ->
             same (at1 mixed k) (at1 sln k))
  /\ (forall (coeff_vec : option (list double)) (st : state World double),
        anderson_is_on cfg = true ->
        let ndof := get_num_dofs ext (world st) in
        let v0 := initial_sln ndof coeff_vec in
        let without := use_Anderson_acceleration false cfg in
        length v0 = Z.to_nat ndof ->
        (forall w, (Z.to_nat ndof <= length (matrix_solver_sln_vector ext w))%nat) ->
        (forall w k, (k < Z.to_nat ndof)%nat ->
           valid (at1 (matrix_solver_sln_vector ext w) k) = true
           /\ at1 (matrix_solver_sln_vector ext w) k <> S754_zero true) ->
        (forall w w' k, (k < Z.to_nat ndof)%nat ->
           is_finite (Binary64.sub (at1 (matrix_solver_sln_vector ext w) k)
                                   (at1 (matrix_solver_sln_vector ext w') k)) = true) ->
        (forall w k, (k < Z.to_nat ndof)%nat ->
           is_finite (Binary64.sub (at1 (matrix_solver_sln_vector ext w) k)
                                   (at1 v0 k)) = true) ->
        fst (solve ext cfg coeff_vec st) = fst (solve ext without coeff_vec st)
        /\ same_solver (snd (solve ext cfg coeff_vec st))
                       (snd (solve ext without coeff_vec st))).
Proof.
  intros Hm Hbeta. split.
  - intros ndof pv vim coeffs sln st Hok Hc Hs.
    exact (anderson_step_two_vectors ext cfg ndof pv vim coeffs sln st
             Hm Hbeta Hok Hc Hs).
  - intros coeff_vec st Hon ndof v0 without Hl0 Hlen Hval Hdiff Hinit.
    apply (solve_sim ext cfg Hon Hm Hbeta ndof Hlen Hval Hdiff without);
      try reflexivity; try assumption.
    unfold without. simpl. lia.
Qed.

(** The problem whose systems all have the solution [6], from the zero
    vector: the first mixed vector is the candidate [6], and the whole
    [solve] is the one without Anderson. *)
Lemma anderson_two_vectors_identity_witness :
  let cfg := set_num_last_vector_used 2
               (use_Anderson_acceleration true (init_picard false)) in
  let h := history_push 2 1
             (memcpy_into (allocate_previous_vectors 2 1) 0 [Binary64.zero] 1) 1
             [of_Z 6] in
  (exists mixed st',
     anderson_step constant_map cfg 1 (fst h) [Binary64.zero] [of_Z 6]
       (fresh_solver tt)
     = (Return ([Binary64.one], mixed), st')
     /\ same (at1 mixed 0) (of_Z 6))
  /\ fst (solve constant_map cfg None (fresh_solver tt))
     = fst (solve constant_map (use_Anderson_acceleration false cfg) None
              (fresh_solver tt))
  /\ same_solver
       (snd (solve constant_map cfg None (fresh_solver tt)))
       (snd (solve constant_map (use_Anderson_acceleration false cfg) None
               (fresh_solver tt))).
Proof.
  cbv zeta.
  destruct (anderson_two_vectors_identity constant_map
              (set_num_last_vector_used 2
                 (use_Anderson_acceleration true (init_picard false)))
              eq_refl eq_refl) as [Hstep Hsolve].
  split.
  - destruct (Hstep 1 (memcpy_into (allocate_previous_vectors 2 1) 0 [Binary64.zero] 1)
                1 [Binary64.zero] [of_Z 6] (fresh_solver tt)
                (proj1 (initial_history_ok 2 1 [Binary64.zero] ltac:(lia) eq_refl))
                eq_refl eq_refl)
      as (mixed & st' & Hrun & _ & _ & Hsame).
    exists mixed, st'. split; [exact Hrun|].
    apply (Hsame 0%nat); [simpl; lia | reflexivity | reflexivity].
  - apply (Hsolve None (fresh_solver tt) eq_refl eq_refl).
    + intros w. simpl. lia.
    + intros w [|k] Hk; [|simpl in Hk; lia].
      split; [reflexivity | discriminate].
    + intros w w' [|k] Hk; [reflexivity | simpl in Hk; lia].
    + intros w [|k] Hk; [reflexivity | simpl in Hk; lia].
Defined.
